(** * cdft/minimise.py: Picard solvers of the neural classical DFT code

    A shallow embedding of [src/cdft/minimise.py] and the properties of its
    solvers.

    Numbers.  A numpy [float64] is modelled by [fl]: a real number or one of
    the three IEEE special values.  Arithmetic on finite values is exact real
    arithmetic (no rounding, overflow or underflow, one zero); the special
    values follow IEEE 754 as numpy and Python implement it.  Decimal
    literals denote the real they spell.  Where float64 leaves the reals for
    good, as [np.exp] does outside about [-745, 709], the statements that
    depend on it keep their arguments inside the range as a hypothesis.

    Arrays.  A one-dimensional numpy array is a [list fl].  All profiles of
    one solve have the grid's length (numpy raises on a shape mismatch);
    element-wise operations are [zip_with].

    Effects.  A solver returns [Some] of its Python result, or [None] when
    numpy raises ([np.max] of an empty array, an index out of range).
    Printing and plotting are not modelled, except where the plotting branch
    assigns to a variable of the loop.  The learned evaluator and the
    spectral utilities live outside this file of the repository: the
    evaluator is a function of the number of the call and of the densities,
    the spectral utilities are a record of functions. *)

From Stdlib Require Import Reals Lra Lia ZArith.
From stdpp Require Import base list gmap.

Open Scope R_scope.

(** ** Floating-point values *)

Inductive fl : Type :=
| Fin (x : R)
| PInf
| NInf
| NaN.

Definition Rltb (x y : R) : bool := if Rlt_dec x y then true else false.
Definition Reqb (x y : R) : bool := if Req_dec_T x y then true else false.

Definition fneg (a : fl) : fl :=
  match a with
  | Fin x => Fin (- x)
  | PInf => NInf
  | NInf => PInf
  | NaN => NaN
  end.

Definition fadd (a b : fl) : fl :=
  match a, b with
  | NaN, _ | _, NaN => NaN
  | Fin x, Fin y => Fin (x + y)
  | PInf, NInf | NInf, PInf => NaN
  | PInf, _ | _, PInf => PInf
  | NInf, _ | _, NInf => NInf
  end.

Definition fsub (a b : fl) : fl := fadd a (fneg b).

(** The product of an infinity with the finite value [x]. *)
Definition inf_times (pos : bool) (x : R) : fl :=
  if Reqb x 0 then NaN
  else if xorb pos (Rltb 0 x) then NInf else PInf.

Definition fmul (a b : fl) : fl :=
  match a, b with
  | NaN, _ | _, NaN => NaN
  | Fin x, Fin y => Fin (x * y)
  | PInf, Fin y => inf_times true y
  | NInf, Fin y => inf_times false y
  | Fin x, PInf => inf_times true x
  | Fin x, NInf => inf_times false x
  | PInf, PInf | NInf, NInf => PInf
  | PInf, NInf | NInf, PInf => NInf
  end.

(** numpy division: a finite value over zero is an infinity of its sign
    (NaN for 0/0), with a warning and no exception. *)
Definition fdiv (a b : fl) : fl :=
  match a, b with
  | NaN, _ | _, NaN => NaN
  | Fin x, Fin y =>
      if Reqb y 0 then
        if Reqb x 0 then NaN else if Rltb 0 x then PInf else NInf
      else Fin (x / y)
  | Fin _, _ => Fin 0
  | PInf, Fin y => if Rltb y 0 then NInf else PInf
  | NInf, Fin y => if Rltb y 0 then PInf else NInf
  | _, _ => NaN
  end.

Definition fabs (a : fl) : fl :=
  match a with
  | Fin x => Fin (Rabs x)
  | PInf | NInf => PInf
  | NaN => NaN
  end.

(** [np.exp]: exponentiating minus infinity gives exactly zero.  On finite
    arguments this is the exact exponential: float64 underflow to zero (below
    about -745) and overflow to infinity (above about 709) are not
    represented, so statements on the sign or finiteness of a density keep
    the log-density within [log_lo] and [log_hi] (see [exp_safe]). *)
Definition fexp (a : fl) : fl :=
  match a with
  | Fin x => Fin (exp x)
  | PInf => PInf
  | NInf => Fin 0
  | NaN => NaN
  end.

(** [np.log] *)
Definition flog (a : fl) : fl :=
  match a with
  | Fin x => if Rltb 0 x then Fin (ln x) else if Reqb x 0 then NInf else NaN
  | PInf => PInf
  | NInf | NaN => NaN
  end.

(** [a < b]; every comparison with NaN is false. *)
Definition flt (a b : fl) : bool :=
  match a, b with
  | NaN, _ | _, NaN => false
  | Fin x, Fin y => Rltb x y
  | NInf, NInf | PInf, _ | _, NInf => false
  | _, _ => true
  end.

Definition fgt (a b : fl) : bool := flt b a.

Definition isnan (a : fl) : bool :=
  match a with NaN => true | _ => false end.

Definition isfinite (a : fl) : bool :=
  match a with Fin _ => true | _ => false end.

(** Python's builtin [max(a, b)]: the first argument is kept unless the
    second compares greater. *)
Definition py_max (a b : fl) : fl := if fgt b a then b else a.

(** The reduction step of [np.max]: a NaN on either side propagates. *)
Definition np_maximum (a b : fl) : fl :=
  if isnan a then a else if isnan b then b else if flt a b then b else a.

(** [np.max] of an array; it raises [ValueError] on an empty array. *)
Definition np_max (l : list fl) : option fl :=
  match l with
  | [] => None
  | x :: xs => Some (foldl np_maximum x xs)
  end.

(** ** Element-wise array operations *)

(** [vscale c l] is [c * l] and [vmuls l c] is [l * c], for a scalar [c]. *)

Definition vadd : list fl → list fl → list fl := zip_with fadd.
Definition vsub : list fl → list fl → list fl := zip_with fsub.
Definition vscale (c : fl) : list fl → list fl := fmap (fmul c).
Definition vmuls (l : list fl) (c : fl) : list fl := fmap (λ x, fmul x c) l.
Definition vexp : list fl → list fl := fmap fexp.
Definition vabs : list fl → list fl := fmap fabs.
Definition vneg : list fl → list fl := fmap fneg.
Definition ones_like (l : list fl) : list fl := fmap (λ _, Fin 1) l.

(** ** Relaxation schedules *)

(** A schedule is the dict from iteration thresholds to coefficients. *)
Abbreviation schedule := (gmap Z fl).

(** [if i in alpha_updates: alpha = alpha_updates[i]] *)
Definition schedule_update (updates : schedule) (i : nat) (alpha : fl) : fl :=
  match updates !! Z.of_nat i with
  | Some a => a
  | None => alpha
  end.

(** The coefficient in force during iteration [i] of a loop that started
    with [alpha0] and visited 0, 1, ..., i in order. *)
Fixpoint active_alpha (updates : schedule) (alpha0 : fl) (i : nat) : fl :=
  match i with
  | O => schedule_update updates O alpha0
  | S j => schedule_update updates i (active_alpha updates alpha0 j)
  end.

(** The lookup as the specification words it: the coefficient of the largest
    threshold key [≤ i], and the initial coefficient when there is none. *)
Definition thresholds_le (updates : schedule) (i : nat) : list Z :=
  filter (λ k, (k ≤ Z.of_nat i)%Z) (fmap fst (map_to_list updates)).

Definition largest (ks : list Z) : option Z :=
  foldr (λ k acc, Some (from_option (Z.max k) k acc)) None ks.

Definition schedule_lookup_spec (updates : schedule) (alpha0 : fl) (i : nat) : fl :=
  match largest (thresholds_le updates i) with
  | Some k => default alpha0 (updates !! k)
  | None => alpha0
  end.

Definition alpha_updates_default_onetype : schedule :=
  list_to_map [
    (10%Z, Fin 0.0001); (20%Z, Fin 0.001); (50%Z, Fin 0.001);
    (100%Z, Fin 0.005); (300%Z, Fin 0.005); (900%Z, Fin 0.008);
    (2000%Z, Fin 0.01); (5000%Z, Fin 0.1)
  ].

Definition alpha_updates_default_onetype_LR : schedule :=
  list_to_map [
    (10%Z, Fin 0.0001); (20%Z, Fin 0.0005); (50%Z, Fin 0.0006);
    (100%Z, Fin 0.0008); (300%Z, Fin 0.001); (900%Z, Fin 0.002);
    (2000%Z, Fin 0.005); (2500%Z, Fin 0.007); (3000%Z, Fin 0.01);
    (3500%Z, Fin 0.05); (4000%Z, Fin 0.1)
  ].

Definition alpha_updates_default_twotype : schedule :=
  list_to_map [
    (10%Z, Fin 0.000001); (20%Z, Fin 0.00001); (50%Z, Fin 0.00002);
    (100%Z, Fin 0.00004); (200%Z, Fin 0.00006); (400%Z, Fin 0.0001);
    (1000%Z, Fin 0.0002); (1200%Z, Fin 0.0004); (1400%Z, Fin 0.0005);
    (1700%Z, Fin 0.0006); (1800%Z, Fin 0.0007); (1900%Z, Fin 0.0008);
    (2100%Z, Fin 0.0009); (2200%Z, Fin 0.001); (2300%Z, Fin 0.0011);
    (2400%Z, Fin 0.0012); (2600%Z, Fin 0.0013); (2800%Z, Fin 0.0014);
    (3000%Z, Fin 0.0015); (3200%Z, Fin 0.0016); (3400%Z, Fin 0.0018);
    (3600%Z, Fin 0.0020); (3800%Z, Fin 0.0021); (4000%Z, Fin 0.0023);
    (4200%Z, Fin 0.0025); (4400%Z, Fin 0.0026); (4600%Z, Fin 0.0028);
    (4800%Z, Fin 0.0030); (5000%Z, Fin 0.0032); (5200%Z, Fin 0.0035);
    (5400%Z, Fin 0.0036); (5500%Z, Fin 0.0040); (5800%Z, Fin 0.0050);
    (6000%Z, Fin 0.0060); (6200%Z, Fin 0.008); (6400%Z, Fin 0.015);
    (7000%Z, Fin 0.02); (8000%Z, Fin 0.03); (9000%Z, Fin 0.07);
    (10000%Z, Fin 0.08)
  ].

Definition alpha_restr_updates_default : schedule :=
  list_to_map [
    (1100%Z, Fin 0.015); (1200%Z, Fin 0.02); (1500%Z, Fin 0.05);
    (1800%Z, Fin 0.08); (2000%Z, Fin 0.10); (2200%Z, Fin 0.15)
  ].

(** ** The log-domain density update shared by the three solvers *)

(** [valid = np.isfinite(muloc)] *)
Definition valid_mask (muloc : list fl) : list bool := fmap isfinite muloc.

(** [log_rho[valid] = np.log(initial_guess); log_rho[~valid] = -np.inf] *)
Definition initial_log_rho (valid : list bool) (initial_guess : fl) : list fl :=
  fmap (λ v : bool, if v then flog initial_guess else NInf) valid.

(** [log_rho_new[valid] = muloc[valid] + c1[valid];
     log_rho_new[~valid] = -np.inf].  Every position is written in every
    iteration, so the array does not depend on its earlier contents. *)
Definition target_log (valid : list bool) (muloc c1 : list fl) : list fl :=
  zip_with (λ (v : bool) x, if v then x else NInf) valid (vadd muloc c1).

(** [(1 - alpha) * log_rho + alpha * log_rho_new] *)
Definition mix (alpha : fl) (old new : list fl) : list fl :=
  vadd (vscale (fsub (Fin 1) alpha) old) (vscale alpha new).

(** [np.max(np.abs(a - b))] *)
Definition max_abs_diff (a b : list fl) : option fl := np_max (vabs (vsub a b)).

(** What a solver hands back: the converged fields, or the tuple of [None]s. *)
Inductive outcome (A : Type) : Type :=
| Converged (fields : A)
| Sentinel.
Arguments Converged {A} fields.
Arguments Sentinel {A}.

(** ** minimise_SR_onetype *)

(** The correlation evaluator [neural.c1_onetype] with its model, window
    size and output flag fixed: from the number of the call and the current
    density to the correlation profile. *)
Definition evaluator1 : Type := nat → list fl → list fl.

Record sr1_input : Type := {
  sr1_zbins : list fl;
  sr1_muloc : list fl;
  sr1_initial_guess : fl;
  sr1_maxiter : nat;
  sr1_alpha_initial : fl;
  sr1_alpha_updates : option schedule;
  sr1_tolerance : fl
}.

Definition sr1_alpha_initial_default : fl := Fin 1e-6.
Definition sr1_tolerance_default : fl := Fin 5e-6.

Record sr1_state : Type := {
  sr1_alpha : fl;
  sr1_rho : list fl;
  sr1_log_rho : list fl
}.

Definition sr1_schedule (inp : sr1_input) : schedule :=
  default alpha_updates_default_onetype (sr1_alpha_updates inp).

Definition sr1_init (inp : sr1_input) : sr1_state :=
  let valid := valid_mask (sr1_muloc inp) in
  {| sr1_alpha := sr1_alpha_initial inp;
     sr1_rho := vscale (sr1_initial_guess inp) (ones_like (sr1_zbins inp));
     sr1_log_rho := initial_log_rho valid (sr1_initial_guess inp) |}.

(** Lines 131-146: the schedule, the evaluator call and the density update
    of iteration [i].  Returns the new state and the target density
    [rho_new]. *)
Definition sr1_update (c1 : evaluator1) (inp : sr1_input) (i : nat)
    (st : sr1_state) : sr1_state * list fl :=
  let valid := valid_mask (sr1_muloc inp) in
  let alpha := schedule_update (sr1_schedule inp) i (sr1_alpha st) in
  let c1_pred := c1 i (sr1_rho st) in
  let log_rho_new := target_log valid (sr1_muloc inp) c1_pred in
  let rho_new := vexp log_rho_new in
  let log_rho := mix alpha (sr1_log_rho st) log_rho_new in
  let rho := vexp log_rho in
  ({| sr1_alpha := alpha; sr1_rho := rho; sr1_log_rho := log_rho |}, rho_new).

(** [delta < tolerance or relative_error < tolerance] *)
Definition sr_converged (delta relative_error tolerance : fl) : bool :=
  flt delta tolerance || flt relative_error tolerance.

(** The loop over [range(maxiter + 1)], [n] iterations from index [i].
    [None] is an exception raised by numpy. *)
Fixpoint sr1_loop (c1 : evaluator1) (inp : sr1_input) (n i : nat)
    (st : sr1_state) : option (outcome (list fl * list fl)) :=
  match n with
  | O => Some Sentinel
  | S n' =>
      let '(st', rho_new) := sr1_update c1 inp i st in
      delta ← max_abs_diff rho_new (sr1_rho st');
      if isnan delta then Some Sentinel
      else
        top ← np_max (sr1_rho st');
        let relative_error := fdiv delta top in
        if sr_converged delta relative_error (sr1_tolerance inp)
        then Some (Converged (sr1_zbins inp, sr1_rho st'))
        else sr1_loop c1 inp n' (S i) st'
  end.

(** [L = zbins[-1] - zbins[0]] raises on an empty grid. *)
Definition minimise_SR_onetype (c1 : evaluator1) (inp : sr1_input)
    : option (outcome (list fl * list fl)) :=
  match sr1_zbins inp with
  | [] => None
  | _ :: _ => sr1_loop c1 inp (S (sr1_maxiter inp)) 0 (sr1_init inp)
  end.

(** The state after [n] iterations of the loop body, were it not left. *)
Fixpoint sr1_iterate (c1 : evaluator1) (inp : sr1_input) (n : nat) : sr1_state :=
  match n with
  | O => sr1_init inp
  | S k => fst (sr1_update c1 inp k (sr1_iterate c1 inp k))
  end.

(** ** minimise_SR_twotype *)

(** [neural.c1_twotype]: one joint call for both species. *)
Definition evaluator2 : Type := nat → list fl → list fl → list fl * list fl.

Record sr2_input : Type := {
  sr2_zbins : list fl;
  sr2_muloc_H : list fl;
  sr2_muloc_O : list fl;
  sr2_initial_guess : fl;
  sr2_maxiter : nat;
  sr2_alpha_initial : fl;
  sr2_alpha_updates : option schedule;
  sr2_tolerance : fl
}.

Definition sr2_alpha_initial_default : fl := Fin 0.000001.
Definition sr2_initial_guess_default : fl := Fin 0.04.
Definition sr2_tolerance_default : fl := Fin 1e-5.

Record sr2_state : Type := {
  sr2_alpha : fl;
  sr2_rho_H : list fl;
  sr2_rho_O : list fl;
  sr2_log_rho_H : list fl;
  sr2_log_rho_O : list fl
}.

Definition sr2_schedule (inp : sr2_input) : schedule :=
  default alpha_updates_default_twotype (sr2_alpha_updates inp).

Definition sr2_init (inp : sr2_input) : sr2_state :=
  let g := sr2_initial_guess inp in
  {| sr2_alpha := sr2_alpha_initial inp;
     sr2_rho_H := vscale g (ones_like (sr2_zbins inp));
     sr2_rho_O := vscale g (ones_like (sr2_zbins inp));
     sr2_log_rho_H := initial_log_rho (valid_mask (sr2_muloc_H inp)) g;
     sr2_log_rho_O := initial_log_rho (valid_mask (sr2_muloc_O inp)) g |}.

(** Lines 226-247.  Returns the new state and the two target densities. *)
Definition sr2_update (c1 : evaluator2) (inp : sr2_input) (i : nat)
    (st : sr2_state) : sr2_state * (list fl * list fl) :=
  let validH := valid_mask (sr2_muloc_H inp) in
  let validO := valid_mask (sr2_muloc_O inp) in
  let alpha := schedule_update (sr2_schedule inp) i (sr2_alpha st) in
  let '(c1_H_pred, c1_O_pred) := c1 i (sr2_rho_H st) (sr2_rho_O st) in
  let log_rho_H_new := target_log validH (sr2_muloc_H inp) c1_H_pred in
  let log_rho_O_new := target_log validO (sr2_muloc_O inp) c1_O_pred in
  let rho_H_new := vexp log_rho_H_new in
  let rho_O_new := vexp log_rho_O_new in
  let log_rho_H := mix alpha (sr2_log_rho_H st) log_rho_H_new in
  let log_rho_O := mix alpha (sr2_log_rho_O st) log_rho_O_new in
  ({| sr2_alpha := alpha;
      sr2_rho_H := vexp log_rho_H; sr2_rho_O := vexp log_rho_O;
      sr2_log_rho_H := log_rho_H; sr2_log_rho_O := log_rho_O |},
   (rho_H_new, rho_O_new)).

(** Lines 250-252: the joint delta is Python's [max] of the two
    [np.max] reductions. *)
Definition joint_delta (rho_H_new rho_H rho_O_new rho_O : list fl) : option fl :=
  delta_H ← max_abs_diff rho_H_new rho_H;
  delta_O ← max_abs_diff rho_O_new rho_O;
  Some (py_max delta_H delta_O).

Fixpoint sr2_loop (c1 : evaluator2) (inp : sr2_input) (n i : nat)
    (st : sr2_state) : option (outcome (list fl * list fl * list fl)) :=
  match n with
  | O => Some Sentinel
  | S n' =>
      let '(st', (rho_H_new, rho_O_new)) := sr2_update c1 inp i st in
      delta ← joint_delta rho_H_new (sr2_rho_H st') rho_O_new (sr2_rho_O st');
      if isnan delta then Some Sentinel
      else
        top_O ← np_max (sr2_rho_O st');
        top_H ← np_max (sr2_rho_H st');
        let relative_error := fdiv delta (py_max top_O top_H) in
        if sr_converged delta relative_error (sr2_tolerance inp)
        then Some (Converged (sr2_zbins inp, sr2_rho_H st', sr2_rho_O st'))
        else sr2_loop c1 inp n' (S i) st'
  end.

Definition minimise_SR_twotype (c1 : evaluator2) (inp : sr2_input)
    : option (outcome (list fl * list fl * list fl)) :=
  sr2_loop c1 inp (S (sr2_maxiter inp)) 0 (sr2_init inp).

Fixpoint sr2_iterate (c1 : evaluator2) (inp : sr2_input) (n : nat) : sr2_state :=
  match n with
  | O => sr2_init inp
  | S k => fst (sr2_update c1 inp k (sr2_iterate c1 inp k))
  end.

(** ** mu_correction *)

(** The entries of [scipy.constants] the code reads. *)
Record constants : Type := {
  elementary_charge : fl;
  epsilon_0 : fl;
  Boltzmann : fl
}.

(** [const.pi] and [np.pi ** 0.5] *)
Definition const_pi : fl := Fin PI.
Definition sqrt_pi : fl := Fin (sqrt PI).

(** Lines 273-278, as the solver calls it: the charge is [np.abs(q)], a numpy
    float, so [q**2] and the division by [kappa_inv * pi**0.5] follow numpy
    (infinity or NaN with a warning).  On plain Python floats [q**2] raises on
    overflow and a division by zero raises, as does [1 / (kB * temp)] at a
    temperature of zero; statements on the value of [mu_correction] take
    finite arguments with no zero denominator. *)
Definition mu_correction (const : constants) (q kappa_inv temp : fl) : fl :=
  let prefactor :=
    fdiv (fmul (elementary_charge const) (elementary_charge const))
         (fmul (fmul (fmul (Fin 4) const_pi) (epsilon_0 const)) (Fin 1e-10)) in
  let beta := fdiv (Fin 1) (fmul (Boltzmann const) temp) in
  let first := fdiv (fneg (fmul q q)) (fmul kappa_inv sqrt_pi) in
  fmul (fmul prefactor first) beta.

(** ** The spectral utilities of [lmft_utils], an external module *)

Record lmft_utils : Type := {
  spectrum : Type;
  calculate_prefactor : fl → fl → fl;
  compute_wave_numbers : nat → fl → list fl;
  fourier_transform : list fl → list fl → list fl → list fl * spectrum;
  restructure_electrostatic_potential :
    spectrum → list fl → list fl → fl → list fl
}.

(** ** calculate_charge_density and update_electrostatic_potential *)

Definition fsum (l : list fl) : fl := foldl fadd (Fin 0) l.

(** [np.diff(x)]: [x[i+1] - x[i]] *)
Definition diff (x : list fl) : list fl := zip_with fsub (tail x) x.

(** [np.trapz(y, x) = (diff(x) * (y[1:] + y[:-1]) / 2.0).sum()], for [y] and
    [x] of the same length; on other shapes numpy raises or broadcasts, while
    [zip_with] truncates, so statements on [trapz] take equal lengths. *)
Definition trapz (y x : list fl) : fl :=
  fsum (zip_with (λ d s, fdiv (fmul d s) (Fin 2)) (diff x) (zip_with fadd (tail y) y)).

Definition calculate_charge_density (rho_new : list fl) (charge L : fl)
    (zbins : list fl) : list fl :=
  let total_number_particle := trapz rho_new zbins in
  let total_charge := fmul total_number_particle charge in
  let background_charge_density := fdiv total_charge L in
  fmap (λ r, fsub (fmul r charge) background_charge_density) rho_new.

Definition update_electrostatic_potential (lmft : lmft_utils)
    (n_z zbins : list fl) (dz kappa_inv prefactor : fl) : list fl :=
  let N := length zbins in
  let kbins := compute_wave_numbers lmft N dz in
  let '(kbins, n_k) := fourier_transform lmft zbins n_z kbins in
  vmuls (restructure_electrostatic_potential lmft n_k kbins zbins kappa_inv)
        prefactor.

(** ** minimise_LR_twotype *)

Record lr_input : Type := {
  lr_zbins : list fl;
  lr_muloc_H : list fl;
  lr_muloc_O : list fl;
  lr_q_H : fl;
  lr_q_O : fl;
  lr_kappa_inv : fl;
  lr_temp : fl;
  lr_dielectric : fl;
  lr_plot : bool;
  lr_maxiter : nat;
  lr_alpha_initial : fl;
  lr_alpha_updates : option schedule;
  lr_alpha_restr_updates : option schedule;
  lr_initial_guess : fl;
  lr_plot_every : nat;
  lr_tolerance : fl;
  lr_tolerance_restr : fl
}.

Definition lr_alpha_initial_default : fl := Fin 0.000001.
Definition lr_initial_guess_default : fl := Fin 0.04.
Definition lr_tolerance_default : fl := Fin 1e-5.
Definition lr_tolerance_restr_default : fl := Fin 1e-3.

(** The literal of line 345 and the literal of line 398. *)
Definition lr_alpha_restr_initial : fl := Fin 0.01.
Definition lr_secondary_threshold : fl := Fin 1e-2.

Record lr_state : Type := {
  lr_alpha : fl;
  lr_alpha_restr : fl;
  lr_rho_H : list fl;
  lr_rho_O : list fl;
  lr_log_rho_H : list fl;
  lr_log_rho_O : list fl;
  lr_delta_phi : list fl;
  lr_kbins : list fl
}.

(** The diagnostics of one iteration. *)
Record lr_diag : Type := {
  lr_rho_H_new : list fl;
  lr_rho_O_new : list fl;
  lr_delta_phi_new : list fl;
  lr_delta : fl;
  lr_delta_restr : fl
}.

Definition lr_schedule (inp : lr_input) : schedule :=
  default alpha_updates_default_twotype (lr_alpha_updates inp).

Definition lr_schedule_restr (inp : lr_input) : schedule :=
  default alpha_restr_updates_default (lr_alpha_restr_updates inp).

Definition lr_mu_H_correction (const : constants) (inp : lr_input) : list fl :=
  vscale (mu_correction const (fabs (lr_q_H inp)) (lr_kappa_inv inp) (lr_temp inp))
         (ones_like (lr_zbins inp)).

Definition lr_mu_O_correction (const : constants) (inp : lr_input) : list fl :=
  vscale (mu_correction const (fabs (lr_q_O inp)) (lr_kappa_inv inp) (lr_temp inp))
         (ones_like (lr_zbins inp)).

(** Lines 318-345; [zbins[1] - zbins[0]] raises on a grid of fewer than two
    points. *)
Definition lr_init (lmft : lmft_utils) (inp : lr_input) : option lr_state :=
  match lr_zbins inp with
  | z0 :: z1 :: _ =>
      let g := lr_initial_guess inp in
      Some {| lr_alpha := lr_alpha_initial inp;
              lr_alpha_restr := lr_alpha_restr_initial;
              lr_rho_H := vscale g (ones_like (lr_zbins inp));
              lr_rho_O := vscale g (ones_like (lr_zbins inp));
              lr_log_rho_H := initial_log_rho (valid_mask (lr_muloc_H inp)) g;
              lr_log_rho_O := initial_log_rho (valid_mask (lr_muloc_O inp)) g;
              lr_delta_phi := fmap (λ _, Fin 0) (lr_zbins inp);
              lr_kbins :=
                compute_wave_numbers lmft (length (lr_zbins inp)) (fsub z1 z0) |}
  | _ => None
  end.

(** [c1_pred_SR - mu_correction + q * delta_phi] *)
Definition lr_correlation (c1_SR mu_corr : list fl) (q : fl) (delta_phi : list fl)
    : list fl :=
  vadd (vsub c1_SR mu_corr) (vscale q delta_phi).

(** Line 386: [charge_density = rho_O * q_O + rho_H * q_H] *)
Definition lr_charge_density (rho_H rho_O : list fl) (q_H q_O : fl) : list fl :=
  vadd (vmuls rho_O q_O) (vmuls rho_H q_H).

(** Lines 386-388 (and 411-413): from the densities to the transformed
    wave numbers and the new target potential. *)
Definition lr_target_potential (lmft : lmft_utils) (inp : lr_input)
    (rho_H rho_O kbins : list fl) : list fl * list fl :=
  let charge_density := lr_charge_density rho_H rho_O (lr_q_H inp) (lr_q_O inp) in
  let '(kbins', n_k) := fourier_transform lmft (lr_zbins inp) charge_density kbins in
  let prefactor_restructure :=
    calculate_prefactor lmft (lr_temp inp) (lr_dielectric inp) in
  (kbins',
   vmuls (vneg (restructure_electrostatic_potential lmft n_k kbins'
                  (lr_zbins inp) (lr_kappa_inv inp)))
         prefactor_restructure).

(** Lines 398-401: the two-phase update of the restructuring potential. *)
Definition restr_update (delta delta_restr tolerance_restr alpha_restr : fl)
    (delta_phi delta_phi_new : list fl) : list fl :=
  if flt delta lr_secondary_threshold && fgt delta_restr tolerance_restr
  then mix alpha_restr delta_phi delta_phi_new
  else delta_phi_new.

(** Lines 357-401: one pass of the loop body up to the potential update. *)
Definition lr_step (lmft : lmft_utils) (const : constants) (c1 : evaluator2)
    (inp : lr_input) (i : nat) (st : lr_state) : option (lr_state * lr_diag) :=
  let validH := valid_mask (lr_muloc_H inp) in
  let validO := valid_mask (lr_muloc_O inp) in
  let alpha := schedule_update (lr_schedule inp) i (lr_alpha st) in
  let alpha_restr := schedule_update (lr_schedule_restr inp) i (lr_alpha_restr st) in
  let '(c1_H_pred_SR, c1_O_pred_SR) := c1 i (lr_rho_H st) (lr_rho_O st) in
  let c1_H_LR := lr_correlation c1_H_pred_SR (lr_mu_H_correction const inp)
                   (lr_q_H inp) (lr_delta_phi st) in
  let c1_O_LR := lr_correlation c1_O_pred_SR (lr_mu_O_correction const inp)
                   (lr_q_O inp) (lr_delta_phi st) in
  let log_rho_H_new := target_log validH (lr_muloc_H inp) c1_H_LR in
  let log_rho_O_new := target_log validO (lr_muloc_O inp) c1_O_LR in
  let rho_H_new := vexp log_rho_H_new in
  let rho_O_new := vexp log_rho_O_new in
  let log_rho_H := mix alpha (lr_log_rho_H st) log_rho_H_new in
  let log_rho_O := mix alpha (lr_log_rho_O st) log_rho_O_new in
  let rho_H := vexp log_rho_H in
  let rho_O := vexp log_rho_O in
  let '(kbins, delta_phi_new) :=
    lr_target_potential lmft inp rho_H rho_O (lr_kbins st) in
  delta ← joint_delta rho_H_new rho_H rho_O_new rho_O;
  delta_restr ← max_abs_diff delta_phi_new (lr_delta_phi st);
  let delta_phi :=
    restr_update delta delta_restr (lr_tolerance_restr inp) alpha_restr
                 (lr_delta_phi st) delta_phi_new in
  Some ({| lr_alpha := alpha; lr_alpha_restr := alpha_restr;
           lr_rho_H := rho_H; lr_rho_O := rho_O;
           lr_log_rho_H := log_rho_H; lr_log_rho_O := log_rho_O;
           lr_delta_phi := delta_phi; lr_kbins := kbins |},
        {| lr_rho_H_new := rho_H_new; lr_rho_O_new := rho_O_new;
           lr_delta_phi_new := delta_phi_new;
           lr_delta := delta; lr_delta_restr := delta_restr |}).

(** Lines 410-417: the plotting branch transforms the charge density again
    and so reassigns [kbins].  With [plot] set and [plot_every = 0] Python's
    [i % plot_every] raises; here [i mod 0 = i], so statements that involve
    the plotting flag take [plot_every ≠ 0]. *)
Definition lr_plot_branch (lmft : lmft_utils) (inp : lr_input) (i : nat)
    (st : lr_state) : lr_state :=
  if lr_plot inp && (i mod lr_plot_every inp =? 0)%nat then
    {| lr_alpha := lr_alpha st; lr_alpha_restr := lr_alpha_restr st;
       lr_rho_H := lr_rho_H st; lr_rho_O := lr_rho_O st;
       lr_log_rho_H := lr_log_rho_H st; lr_log_rho_O := lr_log_rho_O st;
       lr_delta_phi := lr_delta_phi st;
       lr_kbins := fst (lr_target_potential lmft inp (lr_rho_H st) (lr_rho_O st)
                          (lr_kbins st)) |}
  else st.

(** [delta < tolerance and delta_restr < tolerance_restr] *)
Definition lr_converged (inp : lr_input) (d : lr_diag) : bool :=
  flt (lr_delta d) (lr_tolerance inp)
  && flt (lr_delta_restr d) (lr_tolerance_restr inp).

Fixpoint lr_loop (lmft : lmft_utils) (const : constants) (c1 : evaluator2)
    (inp : lr_input) (n i : nat) (st : lr_state)
    : option (outcome (list fl * list fl * list fl)) :=
  match n with
  | O => Some Sentinel
  | S n' =>
      '(st', d) ← lr_step lmft const c1 inp i st;
      if isnan (lr_delta d) then Some Sentinel
      else
        let st'' := lr_plot_branch lmft inp i st' in
        if lr_converged inp d
        then Some (Converged (lr_zbins inp, lr_rho_H st'', lr_rho_O st''))
        else lr_loop lmft const c1 inp n' (S i) st''
  end.

Definition minimise_LR_twotype (lmft : lmft_utils) (const : constants)
    (c1 : evaluator2) (inp : lr_input)
    : option (outcome (list fl * list fl * list fl)) :=
  st ← lr_init lmft inp;
  lr_loop lmft const c1 inp (S (lr_maxiter inp)) 0 st.

(** The state at the start of iteration [n], were the loop not left before;
    [None] when numpy raised on the way. *)
Fixpoint lr_iterate (lmft : lmft_utils) (const : constants) (c1 : evaluator2)
    (inp : lr_input) (n : nat) : option lr_state :=
  match n with
  | O => lr_init lmft inp
  | S k =>
      st ← lr_iterate lmft const c1 inp k;
      '(st', _) ← lr_step lmft const c1 inp k st;
      Some (lr_plot_branch lmft inp k st')
  end.

(** The same input with another potential-relaxation schedule, and the same
    state with another potential-relaxation coefficient. *)
Definition lr_with_restr_updates (inp : lr_input) (s : option schedule) : lr_input :=
  {| lr_zbins := lr_zbins inp; lr_muloc_H := lr_muloc_H inp;
     lr_muloc_O := lr_muloc_O inp; lr_q_H := lr_q_H inp; lr_q_O := lr_q_O inp;
     lr_kappa_inv := lr_kappa_inv inp; lr_temp := lr_temp inp;
     lr_dielectric := lr_dielectric inp; lr_plot := lr_plot inp;
     lr_maxiter := lr_maxiter inp; lr_alpha_initial := lr_alpha_initial inp;
     lr_alpha_updates := lr_alpha_updates inp;
     lr_alpha_restr_updates := s;
     lr_initial_guess := lr_initial_guess inp;
     lr_plot_every := lr_plot_every inp; lr_tolerance := lr_tolerance inp;
     lr_tolerance_restr := lr_tolerance_restr inp |}.

Definition lr_with_alpha_restr (st : lr_state) (a : fl) : lr_state :=
  {| lr_alpha := lr_alpha st; lr_alpha_restr := a;
     lr_rho_H := lr_rho_H st; lr_rho_O := lr_rho_O st;
     lr_log_rho_H := lr_log_rho_H st; lr_log_rho_O := lr_log_rho_O st;
     lr_delta_phi := lr_delta_phi st; lr_kbins := lr_kbins st |}.

(** [lr_runs i st k st_k]: the loop, entering iteration [i] in state [st],
    goes on to enter iteration [k] in state [st_k]: no iteration in between
    raised, aborted on NaN or converged. *)
Inductive lr_runs (lmft : lmft_utils) (const : constants) (c1 : evaluator2)
    (inp : lr_input) : nat → lr_state → nat → lr_state → Prop :=
| lr_runs_here i st : lr_runs lmft const c1 inp i st i st
| lr_runs_next i st st' d k st_k :
    lr_step lmft const c1 inp i st = Some (st', d) →
    isnan (lr_delta d) = false →
    lr_converged inp d = false →
    lr_runs lmft const c1 inp (S i) (lr_plot_branch lmft inp i st') k st_k →
    lr_runs lmft const c1 inp i st k st_k.

(** ** Real-valued counterparts, for profiles without special values *)

Definition sumR (l : list R) : R := foldr Rplus 0 l.

Definition diffR (x : list R) : list R := zip_with Rminus (tail x) x.

Definition trapzR (y x : list R) : R :=
  sumR (zip_with (λ d s, d * s / 2) (diffR x) (zip_with Rplus (tail y) y)).

(** Last grid point minus first grid point, [zbins[-1] - zbins[0]]. *)
Definition extentR (x : list R) : R :=
  match x with
  | [] => 0
  | x0 :: _ => default x0 (last x) - x0
  end.

(** ** Well-formed solves *)

Definition positive (a : fl) : Prop := ∃ x, a = Fin x ∧ 0 < x.

Definition unit_open (a : fl) : Prop := ∃ x, a = Fin x ∧ 0 < x < 1.

(** [fexp] is the exact exponential.  On float64, [np.exp] underflows to
    zero below about -745 and overflows to infinity above about 709; for
    arguments between [log_lo] and [log_hi] it returns a positive normal
    number, and there the two agree up to rounding. *)
Definition log_lo : R := -700.
Definition log_hi : R := 700.

Definition exp_safe (l : fl) : Prop := ∃ x, l = Fin x ∧ log_lo <= x <= log_hi.

(** A density at a position with local chemical potential [m]: a positive
    number between [exp log_lo] and [exp log_hi] where [m] is finite, exactly
    zero elsewhere. *)
Definition density_ok (m r : fl) : Prop :=
  if isfinite m
  then ∃ x, r = Fin x ∧ 0 < x ∧ exp log_lo <= x <= exp log_hi
  else r = Fin 0.

Definition profile_ok (muloc rho : list fl) : Prop := Forall2 density_ok muloc rho.

(** The same in log-space: within the range where valid, minus infinity
    elsewhere. *)
Definition log_ok (m l : fl) : Prop :=
  if isfinite m then exp_safe l else l = NInf.

(** The correlation profile [c] has the length of [muloc], and the target
    log-density [muloc + c] lies within the range at every valid position
    (so [c] is finite there). *)
Definition target_in_range (muloc c : list fl) : Prop :=
  Forall2 (λ m x, isfinite m = true → exp_safe (fadd m x)) muloc c.

Definition all_finite (l : list fl) : Prop := Forall (λ x, isfinite x = true) l.

(** A finite value of absolute value at most [P]. *)
Definition within (P : R) (a : fl) : Prop := ∃ x, a = Fin x ∧ - P <= x <= P.

Definition schedule_in_unit (updates : schedule) : Prop :=
  ∀ k a, updates !! k = Some a → unit_open a.

Record sr1_well_formed (c1 : evaluator1) (inp : sr1_input) : Prop := {
  sr1_wf_guess : positive (sr1_initial_guess inp);
  sr1_wf_guess_range : exp_safe (flog (sr1_initial_guess inp));
  sr1_wf_alpha : unit_open (sr1_alpha_initial inp);
  sr1_wf_schedule : schedule_in_unit (sr1_schedule inp);
  sr1_wf_length : length (sr1_muloc inp) = length (sr1_zbins inp);
  sr1_wf_c1 : ∀ i rho,
    length rho = length (sr1_muloc inp) →
    target_in_range (sr1_muloc inp) (c1 i rho)
}.

Record sr2_well_formed (c1 : evaluator2) (inp : sr2_input) : Prop := {
  sr2_wf_guess : positive (sr2_initial_guess inp);
  sr2_wf_guess_range : exp_safe (flog (sr2_initial_guess inp));
  sr2_wf_alpha : unit_open (sr2_alpha_initial inp);
  sr2_wf_schedule : schedule_in_unit (sr2_schedule inp);
  sr2_wf_length_H : length (sr2_muloc_H inp) = length (sr2_zbins inp);
  sr2_wf_length_O : length (sr2_muloc_O inp) = length (sr2_zbins inp);
  sr2_wf_c1 : ∀ i rho_H rho_O,
    length rho_H = length (sr2_zbins inp) →
    length rho_O = length (sr2_zbins inp) →
    target_in_range (sr2_muloc_H inp) (c1 i rho_H rho_O).1
    ∧ target_in_range (sr2_muloc_O inp) (c1 i rho_H rho_O).2
}.

(** For the long-range solver the target log-density is
    [muloc + c1 - mu_correction + q * delta_phi].  [P] bounds the absolute
    value of every target potential the spectral utilities produce; the
    target log-density is to lie within the range for every potential so
    bounded. *)
Record lr_well_formed (lmft : lmft_utils) (const : constants) (c1 : evaluator2)
    (inp : lr_input) (P : R) : Prop := {
  lr_wf_guess : positive (lr_initial_guess inp);
  lr_wf_guess_range : exp_safe (flog (lr_initial_guess inp));
  lr_wf_alpha : unit_open (lr_alpha_initial inp);
  lr_wf_schedule : schedule_in_unit (lr_schedule inp);
  lr_wf_schedule_restr : schedule_in_unit (lr_schedule_restr inp);
  lr_wf_length_H : length (lr_muloc_H inp) = length (lr_zbins inp);
  lr_wf_length_O : length (lr_muloc_O inp) = length (lr_zbins inp);
  lr_wf_bound : 0 <= P;
  lr_wf_target : ∀ i rho_H rho_O delta_phi,
    length rho_H = length (lr_zbins inp) →
    length rho_O = length (lr_zbins inp) →
    length delta_phi = length (lr_zbins inp) →
    Forall (within P) delta_phi →
    target_in_range (lr_muloc_H inp)
      (lr_correlation (c1 i rho_H rho_O).1 (lr_mu_H_correction const inp)
         (lr_q_H inp) delta_phi)
    ∧ target_in_range (lr_muloc_O inp)
        (lr_correlation (c1 i rho_H rho_O).2 (lr_mu_O_correction const inp)
           (lr_q_O inp) delta_phi);
  lr_wf_potential : ∀ n_k kbins,
    Forall (within P)
      (vmuls (vneg (restructure_electrostatic_potential lmft n_k kbins
                      (lr_zbins inp) (lr_kappa_inv inp)))
             (calculate_prefactor lmft (lr_temp inp) (lr_dielectric inp)))
    ∧ length (restructure_electrostatic_potential lmft n_k kbins
                (lr_zbins inp) (lr_kappa_inv inp))
      = length (lr_zbins inp)
}.

(** What every state of a well-formed long-range solve satisfies. *)
Definition lr_state_ok (inp : lr_input) (P : R) (st : lr_state) : Prop :=
  unit_open (lr_alpha st)
  ∧ unit_open (lr_alpha_restr st)
  ∧ Forall2 log_ok (lr_muloc_H inp) (lr_log_rho_H st)
  ∧ Forall2 log_ok (lr_muloc_O inp) (lr_log_rho_O st)
  ∧ Forall (within P) (lr_delta_phi st)
  ∧ length (lr_delta_phi st) = length (lr_zbins inp)
  ∧ length (lr_rho_H st) = length (lr_zbins inp)
  ∧ length (lr_rho_O st) = length (lr_zbins inp).

(** ** Concrete evaluators and inputs *)

(** An evaluator that returns zero correlation everywhere. *)
Definition zero_c1 : evaluator1 := λ _ rho, (λ _, Fin 0) <$> rho.

(** An evaluator that returns NaN everywhere. *)
Definition nan_c1 : evaluator1 := λ _ rho, (λ _, NaN) <$> rho.

(** A two-species evaluator that returns zero for H and NaN for O. *)
Definition nan_for_O_c1 : evaluator2 :=
  λ _ rho_H rho_O, ((λ _, Fin 0) <$> rho_H, (λ _, NaN) <$> rho_O).

Definition zero_c2 : evaluator2 :=
  λ _ rho_H rho_O, ((λ _, Fin 0) <$> rho_H, (λ _, Fin 0) <$> rho_O).

(** One grid point, where the local chemical potential is zero. *)
Definition one_point_input : sr1_input :=
  {| sr1_zbins := [Fin 0]; sr1_muloc := [Fin 0]; sr1_initial_guess := Fin 1;
     sr1_maxiter := 10; sr1_alpha_initial := sr1_alpha_initial_default;
     sr1_alpha_updates := None; sr1_tolerance := sr1_tolerance_default |}.

Definition one_point_input2 : sr2_input :=
  {| sr2_zbins := [Fin 0]; sr2_muloc_H := [Fin 0]; sr2_muloc_O := [Fin 0];
     sr2_initial_guess := Fin 1; sr2_maxiter := 10;
     sr2_alpha_initial := sr2_alpha_initial_default;
     sr2_alpha_updates := None; sr2_tolerance := sr2_tolerance_default |}.

(** An evaluator that returns minus infinity everywhere. *)
Definition ninf_c1 : evaluator1 := λ _ rho, (λ _, NInf) <$> rho.

(** Spectral utilities that leave the wave numbers alone and reconstruct the
    zero potential. *)
Definition flat_lmft : lmft_utils :=
  {| spectrum := unit;
     calculate_prefactor := λ _ _, Fin 1;
     compute_wave_numbers := λ n _, replicate n (Fin 0);
     fourier_transform := λ _ _ kbins, (kbins, tt);
     restructure_electrostatic_potential := λ _ _ zbins _, (λ _, Fin 0) <$> zbins |}.

(** The values of [scipy.constants] (CODATA 2018). *)
Definition codata : constants :=
  {| elementary_charge := Fin 1.602176634e-19;
     epsilon_0 := Fin 8.8541878128e-12;
     Boltzmann := Fin 1.380649e-23 |}.

Definition two_point_input : lr_input :=
  {| lr_zbins := [Fin 0; Fin 1];
     lr_muloc_H := [Fin 0; PInf]; lr_muloc_O := [Fin 0; Fin 0];
     lr_q_H := Fin 1; lr_q_O := Fin (-1);
     lr_kappa_inv := Fin 4; lr_temp := Fin 300; lr_dielectric := Fin 1;
     lr_plot := false; lr_maxiter := 10;
     lr_alpha_initial := lr_alpha_initial_default;
     lr_alpha_updates := None; lr_alpha_restr_updates := None;
     lr_initial_guess := lr_initial_guess_default;
     lr_plot_every := 1000;
     lr_tolerance := lr_tolerance_default;
     lr_tolerance_restr := lr_tolerance_restr_default |}.

(** A state of the long-range loop on the two-point grid. *)
Definition two_point_state : lr_state :=
  {| lr_alpha := lr_alpha_initial_default;
     lr_alpha_restr := lr_alpha_restr_initial;
     lr_rho_H := [Fin 0.04; Fin 0]; lr_rho_O := [Fin 0.04; Fin 0.04];
     lr_log_rho_H := [flog (Fin 0.04); NInf];
     lr_log_rho_O := [flog (Fin 0.04); flog (Fin 0.04)];
     lr_delta_phi := [Fin 0; Fin 0];
     lr_kbins := [Fin 0; Fin 0] |}.

(** One grid point with local chemical potential [ln 2], relaxed with
    coefficient 1/2 and no schedule. *)
Definition ln2_input : sr1_input :=
  {| sr1_zbins := [Fin 0]; sr1_muloc := [Fin (ln 2)]; sr1_initial_guess := Fin 1;
     sr1_maxiter := 10; sr1_alpha_initial := Fin (1/2);
     sr1_alpha_updates := Some ∅; sr1_tolerance := sr1_tolerance_default |}.

(** ** Further predicates and inputs *)

(** A density value that is a finite, non-negative number. *)
Definition finite_nonneg (a : fl) : Prop := ∃ x, a = Fin x ∧ 0 <= x.

(** A two-species evaluator that returns NaN for H and zero for O. *)
Definition nan_for_H_c1 : evaluator2 :=
  λ _ rho_H rho_O, ((λ _, NaN) <$> rho_H, (λ _, Fin 0) <$> rho_O).

(** Spectral utilities that reconstruct the potential 1 everywhere. *)
Definition unit_lmft : lmft_utils :=
  {| spectrum := unit;
     calculate_prefactor := λ _ _, Fin 1;
     compute_wave_numbers := λ n _, replicate n (Fin 0);
     fourier_transform := λ _ _ kbins, (kbins, tt);
     restructure_electrostatic_potential := λ _ _ zbins _, (λ _, Fin 1) <$> zbins |}.

(** Two grid points, both inside the wall for both species. *)
Definition walled_input : lr_input :=
  {| lr_zbins := [Fin 0; Fin 1];
     lr_muloc_H := [PInf; PInf]; lr_muloc_O := [PInf; PInf];
     lr_q_H := Fin 1; lr_q_O := Fin (-1);
     lr_kappa_inv := Fin 4; lr_temp := Fin 300; lr_dielectric := Fin 1;
     lr_plot := false; lr_maxiter := 10;
     lr_alpha_initial := lr_alpha_initial_default;
     lr_alpha_updates := None; lr_alpha_restr_updates := None;
     lr_initial_guess := lr_initial_guess_default;
     lr_plot_every := 1000;
     lr_tolerance := lr_tolerance_default;
     lr_tolerance_restr := lr_tolerance_restr_default |}.

(** The state in which the loop on [walled_input] starts. *)
Definition walled_state : lr_state :=
  {| lr_alpha := lr_alpha_initial_default;
     lr_alpha_restr := lr_alpha_restr_initial;
     lr_rho_H := vscale lr_initial_guess_default [Fin 1; Fin 1];
     lr_rho_O := vscale lr_initial_guess_default [Fin 1; Fin 1];
     lr_log_rho_H := [NInf; NInf]; lr_log_rho_O := [NInf; NInf];
     lr_delta_phi := [Fin 0; Fin 0];
     lr_kbins := [Fin 0; Fin 0] |}.

(** The same input with another plotting flag. *)
Definition lr_with_plot (inp : lr_input) (b : bool) : lr_input :=
  {| lr_zbins := lr_zbins inp; lr_muloc_H := lr_muloc_H inp;
     lr_muloc_O := lr_muloc_O inp; lr_q_H := lr_q_H inp; lr_q_O := lr_q_O inp;
     lr_kappa_inv := lr_kappa_inv inp; lr_temp := lr_temp inp;
     lr_dielectric := lr_dielectric inp; lr_plot := b;
     lr_maxiter := lr_maxiter inp; lr_alpha_initial := lr_alpha_initial inp;
     lr_alpha_updates := lr_alpha_updates inp;
     lr_alpha_restr_updates := lr_alpha_restr_updates inp;
     lr_initial_guess := lr_initial_guess inp;
     lr_plot_every := lr_plot_every inp; lr_tolerance := lr_tolerance inp;
     lr_tolerance_restr := lr_tolerance_restr inp |}.

(** A value that is an infinity or NaN. *)
Definition not_finite (a : fl) : Prop := isfinite a = false.

(** One grid point inside the wall, relaxed with coefficient 1 (the plain
    fixed-point iteration). *)
Definition wall_point_input : sr1_input :=
  {| sr1_zbins := [Fin 0]; sr1_muloc := [PInf]; sr1_initial_guess := Fin 1;
     sr1_maxiter := 10; sr1_alpha_initial := Fin 1;
     sr1_alpha_updates := None; sr1_tolerance := sr1_tolerance_default |}.

(** The same wall point with the default coefficient. *)
Definition damped_wall_point_input : sr1_input :=
  {| sr1_zbins := [Fin 0]; sr1_muloc := [PInf]; sr1_initial_guess := Fin 1;
     sr1_maxiter := 10; sr1_alpha_initial := sr1_alpha_initial_default;
     sr1_alpha_updates := None; sr1_tolerance := sr1_tolerance_default |}.

(** Two evaluators agree for an input when, in every iteration the loop can
    reach and for every density, their outputs have the same length and
    the same entries at the valid positions. *)
Definition agree_where_valid (inp : sr1_input) (c1 c1' : evaluator1) : Prop :=
  ∀ i rho, (i ≤ sr1_maxiter inp)%nat →
    length (c1 i rho) = length (c1' i rho)
    ∧ ∀ j m, sr1_muloc inp !! j = Some m → isfinite m = true →
        c1 i rho !! j = c1' i rho !! j.

(** A two-species evaluator that treats the two species alike. *)
Definition symmetric_evaluator (c1 : evaluator2) : Prop :=
  ∀ i rho, (c1 i rho rho).1 = (c1 i rho rho).2.

(** [a ≤ b] between finite values. *)
Definition fle (a b : fl) : Prop := ∃ x y, a = Fin x ∧ b = Fin y ∧ x <= y.

(** A schedule table listed by strictly increasing threshold, whose
    coefficients never decrease and start no lower than [a0]. *)
Fixpoint nondecreasing_from (k0 : Z) (a0 : fl) (l : list (Z * fl)) : Prop :=
  match l with
  | [] => True
  | (k, a) :: l' => (k0 < k)%Z ∧ fle a0 a ∧ nondecreasing_from k a l'
  end.

(** A value that is not negative: a finite number [≥ 0] or plus infinity. *)
Definition fnonneg (a : fl) : Prop := a = PInf ∨ ∃ x, a = Fin x ∧ 0 <= x.

(** The one-point input with a tolerance of zero. *)
Definition zero_tolerance_input : sr1_input :=
  {| sr1_zbins := [Fin 0]; sr1_muloc := [Fin 0]; sr1_initial_guess := Fin 1;
     sr1_maxiter := 10; sr1_alpha_initial := sr1_alpha_initial_default;
     sr1_alpha_updates := None; sr1_tolerance := Fin 0 |}.

(** A two-species input on the empty grid, and a long-range input on a grid
    of one point. *)
Definition empty_grid_input2 : sr2_input :=
  {| sr2_zbins := []; sr2_muloc_H := []; sr2_muloc_O := [];
     sr2_initial_guess := sr2_initial_guess_default; sr2_maxiter := 10;
     sr2_alpha_initial := sr2_alpha_initial_default;
     sr2_alpha_updates := None; sr2_tolerance := sr2_tolerance_default |}.

Definition single_point_lr_input : lr_input :=
  {| lr_zbins := [Fin 0];
     lr_muloc_H := [Fin 0]; lr_muloc_O := [Fin 0];
     lr_q_H := Fin 1; lr_q_O := Fin (-1);
     lr_kappa_inv := Fin 4; lr_temp := Fin 300; lr_dielectric := Fin 1;
     lr_plot := false; lr_maxiter := 10;
     lr_alpha_initial := lr_alpha_initial_default;
     lr_alpha_updates := None; lr_alpha_restr_updates := None;
     lr_initial_guess := lr_initial_guess_default;
     lr_plot_every := 1000;
     lr_tolerance := lr_tolerance_default;
     lr_tolerance_restr := lr_tolerance_restr_default |}.

(** A log-density value: a finite number or minus infinity. *)
Definition log_value (l : fl) : Prop := isfinite l = true ∨ l = NInf.

(** The same input with another initial relaxation coefficient. *)
Definition sr1_with_alpha_initial (inp : sr1_input) (a : fl) : sr1_input :=
  {| sr1_zbins := sr1_zbins inp; sr1_muloc := sr1_muloc inp;
     sr1_initial_guess := sr1_initial_guess inp;
     sr1_maxiter := sr1_maxiter inp; sr1_alpha_initial := a;
     sr1_alpha_updates := sr1_alpha_updates inp;
     sr1_tolerance := sr1_tolerance inp |}.

(** The one-point input with a schedule that sets the coefficient in
    iteration 0. *)
Definition keyed_input : sr1_input :=
  {| sr1_zbins := [Fin 0]; sr1_muloc := [Fin 0]; sr1_initial_guess := Fin 1;
     sr1_maxiter := 10; sr1_alpha_initial := sr1_alpha_initial_default;
     sr1_alpha_updates := Some {[ 0%Z := Fin 0.5 ]};
     sr1_tolerance := sr1_tolerance_default |}.

(** Spectral utilities whose reconstructed potential is NaN everywhere. *)
Definition nan_lmft : lmft_utils :=
  {| spectrum := unit;
     calculate_prefactor := λ _ _, Fin 1;
     compute_wave_numbers := λ n _, replicate n (Fin 0);
     fourier_transform := λ _ _ kbins, (kbins, tt);
     restructure_electrostatic_potential := λ _ _ zbins _, (λ _, NaN) <$> zbins |}.

(* ===================================================================== *)
(** * Properties *)
(* ===================================================================== *)

(** ** Comparisons and special values *)

Lemma Rltb_true x y : Rltb x y = true ↔ x < y.
Proof. unfold Rltb. destruct (Rlt_dec x y); split; intros; try done. Qed.

Lemma Rltb_false x y : Rltb x y = false ↔ ¬ x < y.
Proof. unfold Rltb. destruct (Rlt_dec x y); split; intros; try done. Qed.

Lemma Reqb_true x y : Reqb x y = true ↔ x = y.
Proof. unfold Reqb. destruct (Req_dec_T x y); split; intros; try done. Qed.

Lemma Reqb_false x y : Reqb x y = false ↔ x ≠ y.
Proof. unfold Reqb. destruct (Req_dec_T x y); split; intros; try done. Qed.

Ltac rbool :=
  repeat match goal with
  | |- context [Rltb ?x ?y] =>
      let H := fresh in
      destruct (Rltb x y) eqn:H;
      [apply Rltb_true in H | apply Rltb_false in H]
  | |- context [Reqb ?x ?y] =>
      let H := fresh in
      destruct (Reqb x y) eqn:H;
      [apply Reqb_true in H | apply Reqb_false in H]
  end.

Lemma flt_nan_l b : flt NaN b = false.
Proof. done. Qed.

Lemma flt_nan_r a : flt a NaN = false.
Proof. by destruct a. Qed.

Lemma flt_true_not_nan a b : flt a b = true → isnan a = false ∧ isnan b = false.
Proof. destruct a, b; simpl; auto. Qed.

Lemma flt_fin x y : flt (Fin x) (Fin y) = true ↔ x < y.
Proof. apply Rltb_true. Qed.

Lemma fexp_finite a : isfinite a = true → ∃ x, fexp a = Fin x ∧ 0 < x.
Proof.
  destruct a as [x| | |]; try done. intros _.
  exists (exp x). split; [done | apply exp_pos].
Qed.

(** ** Element-wise operations, position by position *)

Lemma mix_lookup alpha (old new : list fl) j x y :
  old !! j = Some x → new !! j = Some y →
  mix alpha old new !! j
  = Some (fadd (fmul (fsub (Fin 1) alpha) x) (fmul alpha y)).
Proof.
  intros Hx Hy. unfold mix, vadd, vscale.
  by rewrite lookup_zip_with, !list_lookup_fmap, Hx, Hy.
Qed.

Lemma mix_length alpha (old new : list fl) :
  length old = length new → length (mix alpha old new) = length old.
Proof.
  intros H. unfold mix, vadd, vscale.
  rewrite length_zip_with, !length_fmap. lia.
Qed.

Lemma target_log_lookup (muloc c1 : list fl) j m c :
  muloc !! j = Some m → c1 !! j = Some c →
  target_log (valid_mask muloc) muloc c1 !! j
  = Some (if isfinite m then fadd m c else NInf).
Proof.
  intros Hm Hc. unfold target_log, valid_mask, vadd.
  by rewrite !lookup_zip_with, list_lookup_fmap, Hm, Hc.
Qed.

Lemma target_log_length (muloc c1 : list fl) :
  length c1 = length muloc →
  length (target_log (valid_mask muloc) muloc c1) = length muloc.
Proof.
  intros H. unfold target_log, valid_mask, vadd.
  rewrite !length_zip_with, length_fmap. lia.
Qed.

(** ** The secondary threshold of the long-range solver *)

(** C3, as stated, fails: the secondary threshold is not below the default
    density tolerance. *)
Lemma secondary_threshold_not_below_default_tolerance :
  flt lr_secondary_threshold lr_tolerance_default = false.
Proof.
  unfold lr_secondary_threshold, lr_tolerance_default. simpl.
  apply Rltb_false. lra.
Qed.

(** C3, amended: the secondary threshold of the two-phase switch is the
    constant 1e-2; it is looser than the default density tolerance 1e-5,
    namely a thousand times larger. *)
Theorem secondary_threshold_looser_than_default_tolerance :
  flt lr_tolerance_default lr_secondary_threshold = true
  ∧ lr_secondary_threshold = fmul (Fin 1000) lr_tolerance_default.
Proof.
  unfold lr_secondary_threshold, lr_tolerance_default. simpl. split.
  - apply Rltb_true. lra.
  - f_equal. lra.
Qed.

(** ** Log-domain mixing *)

(** C9: at a position whose old and target densities are positive, the
    density after the log-domain mixing step is the geometric interpolation
    old^(1-alpha) * target^alpha, for every alpha in (0,1). *)
Theorem mix_is_geometric_interpolation
    (alpha rho_old rho_target : R) (log_old log_new : list fl) (j : nat) :
  0 < alpha < 1 → 0 < rho_old → 0 < rho_target →
  log_old !! j = Some (flog (Fin rho_old)) →
  log_new !! j = Some (flog (Fin rho_target)) →
  vexp (mix (Fin alpha) log_old log_new) !! j
  = Some (Fin (Rpower rho_old (1 - alpha) * Rpower rho_target alpha)).
Proof.
  intros _ Ho Ht Hold Hnew. unfold vexp.
  rewrite list_lookup_fmap, (mix_lookup _ _ _ _ _ _ Hold Hnew).
  simpl. apply Rltb_true in Ho, Ht. rewrite Ho, Ht. simpl.
  do 2 f_equal. unfold Rpower. rewrite <- exp_plus. reflexivity.
Qed.

Lemma mix_is_geometric_interpolation_witness :
  vexp (mix (Fin (1/2)) [flog (Fin 1)] [flog (Fin 4)]) !! 0%nat
  = Some (Fin (Rpower 1 (1 - 1/2) * Rpower 4 (1/2))).
Proof.
  apply (mix_is_geometric_interpolation (1/2) 1 4 [flog (Fin 1)] [flog (Fin 4)] 0);
    [lra | lra | lra | reflexivity | reflexivity].
Defined.

(** ** Relaxation schedules *)

Lemma largest_spec ks :
  match largest ks with
  | Some k => k ∈ ks ∧ ∀ k', k' ∈ ks → (k' ≤ k)%Z
  | None => ks = []
  end.
Proof.
  induction ks as [|k ks IH]; [done|].
  change (largest (k :: ks)) with (Some (from_option (Z.max k) k (largest ks))).
  destruct (largest ks) as [m|]; simpl.
  - destruct IH as [Hm Hmax]. split.
    + destruct (Z.max_spec k m) as [[_ ->]|[_ ->]]; [by right | by left].
    + intros k' [->|Hk']%elem_of_cons; [lia|]. specialize (Hmax _ Hk'). lia.
  - subst ks. split; [by left|]. intros k' Hk'%list_elem_of_singleton. lia.
Qed.

Lemma thresholds_le_elem (updates : schedule) i k :
  k ∈ thresholds_le updates i ↔ is_Some (updates !! k) ∧ (k ≤ Z.of_nat i)%Z.
Proof.
  unfold thresholds_le. rewrite list_elem_of_filter, list_elem_of_fmap. split.
  - intros [Hle [[k' a] [-> Hin]]]. apply elem_of_map_to_list in Hin. eauto.
  - intros [[a Ha] Hle]. split; [done|]. exists (k, a). split; [done|].
    by apply elem_of_map_to_list.
Qed.

Lemma schedule_lookup_spec_key (updates : schedule) alpha0 i k a :
  updates !! k = Some a → (k ≤ Z.of_nat i)%Z →
  (∀ k', is_Some (updates !! k') → (k' ≤ Z.of_nat i)%Z → (k' ≤ k)%Z) →
  schedule_lookup_spec updates alpha0 i = a.
Proof.
  intros Ha Hle Hmax. unfold schedule_lookup_spec.
  pose proof (largest_spec (thresholds_le updates i)) as Hl.
  destruct (largest (thresholds_le updates i)) as [m|].
  - destruct Hl as [Hm Hlm]. apply thresholds_le_elem in Hm as [Hsome Hmi].
    assert (k ∈ thresholds_le updates i) as Hk by (apply thresholds_le_elem; eauto).
    specialize (Hlm _ Hk). specialize (Hmax _ Hsome Hmi).
    assert (m = k) as -> by lia. by rewrite Ha.
  - assert (k ∈ thresholds_le updates i) as Hk by (apply thresholds_le_elem; eauto).
    rewrite Hl in Hk. by apply elem_of_nil in Hk.
Qed.

Lemma schedule_lookup_spec_none (updates : schedule) alpha0 i :
  (∀ k, is_Some (updates !! k) → ¬ (k ≤ Z.of_nat i)%Z) →
  schedule_lookup_spec updates alpha0 i = alpha0.
Proof.
  intros Hno. unfold schedule_lookup_spec.
  pose proof (largest_spec (thresholds_le updates i)) as Hl.
  destruct (largest (thresholds_le updates i)) as [m|]; [|done].
  destruct Hl as [Hm _]. apply thresholds_le_elem in Hm as [Hsome Hmi].
  by destruct (Hno _ Hsome).
Qed.

(** What the overwrite-on-match loop holds at iteration [i]: the value of
    the last key it met, or the initial coefficient when it met none. *)
Lemma active_alpha_last_match (updates : schedule) alpha0 i :
  (∃ k a, (k ≤ i)%nat ∧ updates !! Z.of_nat k = Some a
          ∧ active_alpha updates alpha0 i = a
          ∧ ∀ k', (k < k' ≤ i)%nat → updates !! Z.of_nat k' = None)
  ∨ (active_alpha updates alpha0 i = alpha0
     ∧ ∀ k', (k' ≤ i)%nat → updates !! Z.of_nat k' = None).
Proof.
  induction i as [|i IH]; simpl; unfold schedule_update.
  - destruct (updates !! Z.of_nat 0) as [a|] eqn:H0.
    + left. exists 0%nat, a. repeat split; [done..|]. intros; lia.
    + right. split; [done|]. intros k' ?. by replace k' with 0%nat by lia.
  - destruct (updates !! Z.of_nat (S i)) as [a|] eqn:HS.
    + left. exists (S i), a. repeat split; [done..|]. intros; lia.
    + destruct IH as [(k & a & Hk & Ha & Hact & Hgap)|[Hact Hgap]].
      * left. exists k, a. repeat split; [lia|done..|].
        intros k' Hk'. destruct (decide (k' = S i)) as [->|]; [done|].
        apply Hgap. lia.
      * right. split; [done|]. intros k' Hk'.
        destruct (decide (k' = S i)) as [->|]; [done|]. apply Hgap. lia.
Qed.

Lemma active_alpha_sticky (updates : schedule) alpha0 i j :
  (i ≤ j)%nat → (∀ k, (i < k ≤ j)%nat → updates !! Z.of_nat k = None) →
  active_alpha updates alpha0 j = active_alpha updates alpha0 i.
Proof.
  induction j as [|j IH]; intros Hij Hgap.
  - by replace i with 0%nat by lia.
  - destruct (decide (i = S j)) as [->|Hne]; [done|].
    simpl. unfold schedule_update. rewrite Hgap by lia.
    apply IH; [lia|]. intros k Hk. apply Hgap. lia.
Qed.

Lemma sr1_alpha_active c1 inp i :
  sr1_alpha (sr1_iterate c1 inp (S i))
  = active_alpha (sr1_schedule inp) (sr1_alpha_initial inp) i.
Proof. induction i as [|i IH]; [done|]. simpl in *. by rewrite IH. Qed.

Lemma sr2_update_alpha c1 inp i st :
  sr2_alpha (fst (sr2_update c1 inp i st))
  = schedule_update (sr2_schedule inp) i (sr2_alpha st).
Proof. unfold sr2_update. by destruct (c1 _ _ _). Qed.

Lemma sr2_alpha_active c1 inp i :
  sr2_alpha (sr2_iterate c1 inp (S i))
  = active_alpha (sr2_schedule inp) (sr2_alpha_initial inp) i.
Proof.
  induction i as [|i IH].
  - apply sr2_update_alpha.
  - change (sr2_iterate c1 inp (S (S i)))
      with (fst (sr2_update c1 inp (S i) (sr2_iterate c1 inp (S i)))).
    by rewrite sr2_update_alpha, IH.
Qed.

Lemma lr_step_alpha lmft const c1 inp i st st' d :
  lr_step lmft const c1 inp i st = Some (st', d) →
  lr_alpha st' = schedule_update (lr_schedule inp) i (lr_alpha st)
  ∧ lr_alpha_restr st'
    = schedule_update (lr_schedule_restr inp) i (lr_alpha_restr st).
Proof.
  unfold lr_step. destruct (c1 _ _ _) as [cH cO].
  destruct (lr_target_potential _ _ _ _ _) as [kb dpn].
  intros H. apply bind_Some in H as (delta & _ & H).
  apply bind_Some in H as (delta_restr & _ & H).
  by simplify_eq.
Qed.

Lemma lr_plot_branch_fields lmft inp i st :
  let st' := lr_plot_branch lmft inp i st in
  lr_alpha st' = lr_alpha st ∧ lr_alpha_restr st' = lr_alpha_restr st
  ∧ lr_rho_H st' = lr_rho_H st ∧ lr_rho_O st' = lr_rho_O st
  ∧ lr_log_rho_H st' = lr_log_rho_H st ∧ lr_log_rho_O st' = lr_log_rho_O st
  ∧ lr_delta_phi st' = lr_delta_phi st.
Proof. unfold lr_plot_branch. by destruct (_ && _). Qed.

Lemma lr_alpha_active lmft const c1 inp i st :
  lr_iterate lmft const c1 inp (S i) = Some st →
  lr_alpha st = active_alpha (lr_schedule inp) (lr_alpha_initial inp) i
  ∧ lr_alpha_restr st
    = active_alpha (lr_schedule_restr inp) lr_alpha_restr_initial i.
Proof.
  revert st. induction i as [|i IH]; intros st H.
  - simpl in H. apply bind_Some in H as (st0 & Hinit & H).
    apply bind_Some in H as ([st1 d] & Hstep & H). simplify_eq.
    apply lr_step_alpha in Hstep as [Ha Hr].
    destruct (lr_plot_branch_fields lmft inp 0 st1) as (-> & -> & _).
    rewrite Ha, Hr. unfold lr_init in Hinit.
    destruct (lr_zbins inp) as [|z0 [|z1 zs]]; simplify_eq. done.
  - change (lr_iterate lmft const c1 inp (S (S i)))
      with (st ← lr_iterate lmft const c1 inp (S i);
            '(st', _) ← lr_step lmft const c1 inp (S i) st;
            Some (lr_plot_branch lmft inp (S i) st')) in H.
    apply bind_Some in H as (st0 & Hprev & H).
    apply bind_Some in H as ([st1 d] & Hstep & H). simplify_eq.
    apply lr_step_alpha in Hstep as [Ha Hr].
    destruct (lr_plot_branch_fields lmft inp (S i) st1) as (-> & -> & _).
    destruct (IH _ Hprev) as [IHa IHr]. rewrite Ha, Hr, IHa, IHr. done.
Qed.

(** C6, as stated, fails for a schedule with a key the loop never visits: with
    the single key -1, iteration 0 still runs with the initial coefficient,
    while the largest key at most 0 is -1. *)
Lemma schedule_negative_key_differs :
  active_alpha {[ (-1)%Z := Fin (1/2) ]} (Fin (1/4)) 0 = Fin (1/4)
  ∧ schedule_lookup_spec {[ (-1)%Z := Fin (1/2) ]} (Fin (1/4)) 0 = Fin (1/2)
  ∧ active_alpha {[ (-1)%Z := Fin (1/2) ]} (Fin (1/4)) 0
    ≠ schedule_lookup_spec {[ (-1)%Z := Fin (1/2) ]} (Fin (1/4)) 0.
Proof.
  assert (schedule_lookup_spec {[ (-1)%Z := Fin (1/2) ]} (Fin (1/4)) 0 = Fin (1/2))
    as Hspec.
  { apply (schedule_lookup_spec_key _ _ _ (-1)%Z); [done|lia|].
    intros k' [a Ha] _. apply lookup_singleton_Some in Ha as [<- _]. lia. }
  assert (active_alpha {[ (-1)%Z := Fin (1/2) ]} (Fin (1/4)) 0 = Fin (1/4))
    as Hact by done.
  repeat split; [done..|]. rewrite Hspec, Hact. intros [=]. lra.
Qed.

(** C6, amended: for a schedule whose keys are all non-negative, at every
    iteration index [i] of a loop that visits 0, 1, ... in order, the
    coefficient left by the overwrite-on-exact-match mechanism is the
    coefficient of the largest key at most [i] (the initial coefficient when
    there is none), and it stays the same up to any later index [j] with no
    key in between; this is the coefficient the single-species loop uses in
    iteration [i], and the coefficients the long-range loop uses. *)
Theorem schedule_refines_lookup (updates : schedule) (alpha0 : fl) (i : nat) :
  (∀ k, is_Some (updates !! k) → (0 ≤ k)%Z) →
  active_alpha updates alpha0 i = schedule_lookup_spec updates alpha0 i
  ∧ (∀ j, (i ≤ j)%nat →
       (∀ k, (i < k ≤ j)%nat → updates !! Z.of_nat k = None) →
       active_alpha updates alpha0 j = active_alpha updates alpha0 i)
  ∧ (∀ c1 inp,
       sr1_schedule inp = updates → sr1_alpha_initial inp = alpha0 →
       sr1_alpha (sr1_iterate c1 inp (S i))
       = schedule_lookup_spec updates alpha0 i)
  ∧ (∀ lmft const c1 inp st,
       lr_schedule inp = updates → lr_alpha_initial inp = alpha0 →
       lr_iterate lmft const c1 inp (S i) = Some st →
       lr_alpha st = schedule_lookup_spec updates alpha0 i)
  ∧ (∀ lmft const c1 inp st,
       lr_schedule_restr inp = updates → lr_alpha_restr_initial = alpha0 →
       lr_iterate lmft const c1 inp (S i) = Some st →
       lr_alpha_restr st = schedule_lookup_spec updates alpha0 i).
Proof.
  intros Hnonneg.
  assert (∀ a0, active_alpha updates a0 i = schedule_lookup_spec updates a0 i)
    as Heq.
  { intros a0.
    destruct (active_alpha_last_match updates a0 i)
      as [(k & a & Hk & Ha & -> & Hgap)|[-> Hgap]]; symmetry.
    - apply (schedule_lookup_spec_key _ _ _ (Z.of_nat k)); [done|lia|].
      intros k' Hsome Hle. pose proof (Hnonneg _ Hsome) as H0.
      destruct (decide (k' ≤ Z.of_nat k)%Z) as [|Hgt]; [done|].
      destruct Hsome as [a' Ha']. rewrite <- (Z2Nat.id k') in Ha' by done.
      rewrite Hgap in Ha' by lia. done.
    - apply schedule_lookup_spec_none. intros k' Hsome Hle.
      pose proof (Hnonneg _ Hsome) as H0.
      destruct Hsome as [a' Ha']. rewrite <- (Z2Nat.id k') in Ha' by done.
      rewrite Hgap in Ha' by lia. done. }
  split; [apply Heq|]. split; [intros; by apply active_alpha_sticky|].
  split; [|split].
  - intros c1 inp <- <-. by rewrite sr1_alpha_active.
  - intros lmft const c1 inp st <- <- Hst.
    apply lr_alpha_active in Hst as [-> _]. apply Heq.
  - intros lmft const c1 inp st <- <- Hst.
    apply lr_alpha_active in Hst as [_ ->]. apply Heq.
Qed.

Lemma schedule_refines_lookup_witness :
  (∀ k, is_Some (({[ 10%Z := Fin 0.0001 ]} : schedule) !! k) → (0 ≤ k)%Z)
  ∧ active_alpha {[ 10%Z := Fin 0.0001 ]} (Fin 1e-6) 12
    = schedule_lookup_spec {[ 10%Z := Fin 0.0001 ]} (Fin 1e-6) 12.
Proof.
  assert (∀ k, is_Some (({[ 10%Z := Fin 0.0001 ]} : schedule) !! k) → (0 ≤ k)%Z)
    as Hkeys.
  { intros k [a Ha]. apply lookup_singleton_Some in Ha as [<- _]. lia. }
  split; [exact Hkeys|].
  exact (proj1 (schedule_refines_lookup {[ 10%Z := Fin 0.0001 ]} (Fin 1e-6) 12 Hkeys)).
Defined.

(** ** The maximum of an array *)

Lemma np_maximum_not_nan a b :
  isnan (np_maximum a b) = false →
  isnan a = false ∧ isnan b = false
  ∧ np_maximum a b = (if flt a b then b else a).
Proof.
  unfold np_maximum. destruct (isnan a) eqn:Ha; [by rewrite Ha|].
  destruct (isnan b) eqn:Hb; [by rewrite Hb|]. done.
Qed.

Lemma flt_below_max d a x :
  isnan d = false → isnan a = false → isnan x = false →
  flt d (np_maximum a x) = false →
  flt d a = false ∧ flt d x = false.
Proof.
  unfold np_maximum.
  destruct d, a, x; simpl; try done; rbool; simpl; rbool; try done;
    intros; exfalso; lra.
Qed.

Lemma foldl_np_maximum_not_nan xs a :
  isnan (foldl np_maximum a xs) = false →
  isnan a = false
  ∧ Forall (λ x, isnan x = false) xs
  ∧ foldl np_maximum a xs ∈ a :: xs
  ∧ Forall (λ x, flt (foldl np_maximum a xs) x = false) (a :: xs).
Proof.
  revert a. induction xs as [|x xs IH]; intros a Hd; simpl in *.
  - repeat split; [done|constructor|by left|].
    constructor; [|constructor]. destruct a; simpl in *; try done.
    apply Rltb_false. lra.
  - destruct (IH _ Hd) as (Hm & Hxs & Hin & Hmax).
    apply np_maximum_not_nan in Hm as (Ha & Hx & Hm).
    repeat split; [done|by constructor| |].
    + apply elem_of_cons in Hin as [Hin|Hin]; [|by do 2 right].
      rewrite Hin, Hm. destruct (flt a x); [right; by left | by left].
    + apply Forall_cons in Hmax as [Hmax Hrest].
      apply flt_below_max in Hmax as [? ?]; [|done..].
      by repeat constructor.
Qed.

Lemma foldl_np_maximum_nan xs a :
  NaN ∈ a :: xs → foldl np_maximum a xs = NaN.
Proof.
  revert a. induction xs as [|x xs IH]; intros a Hin; simpl.
  - by apply list_elem_of_singleton in Hin.
  - apply IH. apply elem_of_cons in Hin as [<-|Hin]; [by left|].
    apply elem_of_cons in Hin as [<-|Hin]; [|by right].
    assert (np_maximum a NaN = NaN) as -> by (by destruct a). by left.
Qed.

Lemma np_maximum_nan_inv a x : np_maximum a x = NaN → a = NaN ∨ x = NaN.
Proof.
  unfold np_maximum.
  destruct a, x; simpl; try destruct (Rltb _ _); auto; discriminate.
Qed.

Lemma foldl_np_maximum_nan_inv xs a :
  foldl np_maximum a xs = NaN → NaN ∈ a :: xs.
Proof.
  revert a. induction xs as [|x xs IH]; intros a H; simpl in H.
  - subst. by left.
  - apply IH in H. apply elem_of_cons in H as [H|H]; [|by do 2 right].
    symmetry in H. apply np_maximum_nan_inv in H as [->| ->];
      [by left | right; by left].
Qed.

Lemma np_max_nan_inv l : np_max l = Some NaN → NaN ∈ l.
Proof.
  destruct l as [|a xs]; [done|]. simpl. intros [= H].
  by apply foldl_np_maximum_nan_inv.
Qed.

(** [np.max] propagates NaN. *)
Lemma np_max_nan l : NaN ∈ l → np_max l = Some NaN.
Proof.
  destruct l as [|a xs]; [by intros ?%elem_of_nil|].
  intros H. simpl. f_equal. by apply foldl_np_maximum_nan.
Qed.

(** Otherwise its result is an entry that no entry exceeds. *)
Lemma np_max_not_nan l d :
  np_max l = Some d → isnan d = false →
  d ∈ l ∧ ∀ x, x ∈ l → isnan x = false ∧ flt d x = false.
Proof.
  destruct l as [|a xs]; [done|]. simpl. intros [= <-] Hd.
  destruct (foldl_np_maximum_not_nan _ _ Hd) as (Ha & Hxs & Hin & Hmax).
  split; [done|]. intros x Hx. split.
  - apply elem_of_cons in Hx as [->|Hx]; [done|].
    by apply (proj1 (Forall_forall _ _) Hxs).
  - by apply (proj1 (Forall_forall _ _) Hmax).
Qed.

Lemma np_max_is_Some l : l ≠ [] → is_Some (np_max l).
Proof. destruct l; [done|]. by eexists. Qed.

Lemma vabs_vsub_lookup (a b : list fl) j x y :
  a !! j = Some x → b !! j = Some y →
  vabs (vsub a b) !! j = Some (fabs (fsub x y)).
Proof.
  intros Hx Hy. unfold vabs, vsub.
  by rewrite list_lookup_fmap, lookup_zip_with, Hx, Hy.
Qed.

Lemma vabs_vsub_elem (a b : list fl) d :
  d ∈ vabs (vsub a b) ↔
  ∃ j x y, a !! j = Some x ∧ b !! j = Some y ∧ d = fabs (fsub x y).
Proof.
  rewrite list_elem_of_lookup. split.
  - intros [j Hj]. unfold vabs, vsub in Hj.
    rewrite list_lookup_fmap, lookup_zip_with in Hj.
    destruct (a !! j) as [x|] eqn:Hx; [|done].
    destruct (b !! j) as [y|] eqn:Hy; [|done].
    simpl in Hj. exists j, x, y. by simplify_eq.
  - intros (j & x & y & Hx & Hy & ->). exists j. by apply vabs_vsub_lookup.
Qed.

(** [np.max(np.abs(a - b))] is the maximum over the grid of [|a_j - b_j|]:
    NaN exactly when some difference is NaN, and otherwise one of the
    differences, which no other exceeds. *)
Lemma max_abs_diff_spec (a b : list fl) delta :
  max_abs_diff a b = Some delta →
  if isnan delta
  then ∃ j x y, a !! j = Some x ∧ b !! j = Some y ∧ isnan (fabs (fsub x y)) = true
  else (∃ j x y, a !! j = Some x ∧ b !! j = Some y ∧ delta = fabs (fsub x y))
       ∧ (∀ j x y, a !! j = Some x → b !! j = Some y →
            isnan (fabs (fsub x y)) = false
            ∧ flt delta (fabs (fsub x y)) = false).
Proof.
  unfold max_abs_diff. intros H. destruct (isnan delta) eqn:Hd.
  - destruct delta; try done. apply np_max_nan_inv in H.
    apply vabs_vsub_elem in H as (j & x & y & ? & ? & Hn).
    exists j, x, y. by rewrite <- Hn.
  - destruct (np_max_not_nan _ _ H Hd) as [Hin Hmax]. split.
    + by apply vabs_vsub_elem.
    + intros j x y Hx Hy. apply Hmax. apply vabs_vsub_elem. eauto 6.
Qed.

(** ** One iteration of the single-species solver *)

Lemma sr1_loop_unfold c1 inp n i st :
  sr1_loop c1 inp (S n) i st
  = (let st' := fst (sr1_update c1 inp i st) in
     let rho_new := snd (sr1_update c1 inp i st) in
     delta ← max_abs_diff rho_new (sr1_rho st');
     if isnan delta then Some Sentinel
     else
       top ← np_max (sr1_rho st');
       if sr_converged delta (fdiv delta top) (sr1_tolerance inp)
       then Some (Converged (sr1_zbins inp, sr1_rho st'))
       else sr1_loop c1 inp n (S i) st').
Proof. done. Qed.

Lemma max_abs_diff_is_Some (a b : list fl) :
  a ≠ [] → length a = length b → is_Some (max_abs_diff a b).
Proof.
  intros Ha Hlen. apply np_max_is_Some.
  destruct a as [|x a]; [done|]. destruct b as [|y b]; [done|]. done.
Qed.

(** C1: an iteration of the single-species loop computes, at every grid
    position, the target log-density [muloc + c1] (minus infinity where
    [muloc] is not finite), the target density as its exponential, the mixed
    log-density [(1-alpha)*old + alpha*target] and the density as its
    exponential; the [delta] it then tests is the maximum over the grid of
    [|target density - mixed density|]: the un-mixed target against the density
    already mixed in this iteration. *)
Theorem sr1_iteration_delta (c1 : evaluator1) (inp : sr1_input) (n i : nat)
    (st : sr1_state) :
  let alpha := schedule_update (sr1_schedule inp) i (sr1_alpha st) in
  let c1_pred := c1 i (sr1_rho st) in
  let st' := fst (sr1_update c1 inp i st) in
  let rho_new := snd (sr1_update c1 inp i st) in
  (∀ j m c old,
      sr1_muloc inp !! j = Some m → c1_pred !! j = Some c →
      sr1_log_rho st !! j = Some old →
      let target_log_j := if isfinite m then fadd m c else NInf in
      let new_log_j :=
        fadd (fmul (fsub (Fin 1) alpha) old) (fmul alpha target_log_j) in
      rho_new !! j = Some (fexp target_log_j)
      ∧ sr1_log_rho st' !! j = Some new_log_j
      ∧ sr1_rho st' !! j = Some (fexp new_log_j))
  ∧ sr1_loop c1 inp (S n) i st
    = (delta ← max_abs_diff rho_new (sr1_rho st');
       if isnan delta then Some Sentinel
       else
         top ← np_max (sr1_rho st');
         if sr_converged delta (fdiv delta top) (sr1_tolerance inp)
         then Some (Converged (sr1_zbins inp, sr1_rho st'))
         else sr1_loop c1 inp n (S i) st')
  ∧ (∀ delta,
      max_abs_diff rho_new (sr1_rho st') = Some delta →
      if isnan delta
      then ∃ j t r, rho_new !! j = Some t ∧ sr1_rho st' !! j = Some r
                    ∧ isnan (fabs (fsub t r)) = true
      else (∃ j t r, rho_new !! j = Some t ∧ sr1_rho st' !! j = Some r
                     ∧ delta = fabs (fsub t r))
           ∧ (∀ j t r, rho_new !! j = Some t → sr1_rho st' !! j = Some r →
                isnan (fabs (fsub t r)) = false
                ∧ flt delta (fabs (fsub t r)) = false))
  ∧ (sr1_muloc inp ≠ [] →
     length c1_pred = length (sr1_muloc inp) →
     length (sr1_log_rho st) = length (sr1_muloc inp) →
     is_Some (max_abs_diff rho_new (sr1_rho st'))).
Proof.
  intros alpha c1_pred st' rho_new. split; [|split; [|split]].
  - intros j m c old Hm Hc Hold tl nl.
    pose proof (target_log_lookup _ _ _ _ _ Hm Hc) as Ht.
    subst st' rho_new tl nl alpha c1_pred. unfold sr1_update. simpl. unfold vexp.
    rewrite !list_lookup_fmap, (mix_lookup _ _ _ _ _ _ Hold Ht), Ht. done.
  - apply sr1_loop_unfold.
  - intros delta. apply max_abs_diff_spec.
  - intros Hne Hc Hl. subst st' rho_new. unfold sr1_update. simpl.
    apply max_abs_diff_is_Some.
    + unfold vexp. intros H%fmap_nil_inv.
      apply (f_equal length) in H. rewrite target_log_length in H by done.
      by destruct (sr1_muloc inp).
    + unfold vexp. rewrite !length_fmap, mix_length;
        rewrite target_log_length; done.
Qed.

(** ** The long-range solver: potential update and termination *)

Lemma lr_step_inv lmft const c1 inp i st st' d :
  lr_step lmft const c1 inp i st = Some (st', d) →
  snd (lr_target_potential lmft inp (lr_rho_H st') (lr_rho_O st') (lr_kbins st))
  = lr_delta_phi_new d
  ∧ joint_delta (lr_rho_H_new d) (lr_rho_H st') (lr_rho_O_new d) (lr_rho_O st')
    = Some (lr_delta d)
  ∧ max_abs_diff (lr_delta_phi_new d) (lr_delta_phi st) = Some (lr_delta_restr d)
  ∧ lr_delta_phi st'
    = restr_update (lr_delta d) (lr_delta_restr d) (lr_tolerance_restr inp)
        (lr_alpha_restr st') (lr_delta_phi st) (lr_delta_phi_new d).
Proof.
  unfold lr_step. destruct (c1 _ _ _) as [cH cO].
  destruct (lr_target_potential _ _ _ _ _) as [kb dpn] eqn:Htp.
  intros H. apply bind_Some in H as (delta & Hdelta & H).
  apply bind_Some in H as (delta_restr & Hrestr & H).
  simplify_eq. simpl. by rewrite Htp.
Qed.

Lemma lr_step_transform lmft const c1 inp i st st' d :
  lr_step lmft const c1 inp i st = Some (st', d) →
  (lr_kbins st', lr_delta_phi_new d)
  = lr_target_potential lmft inp (lr_rho_H st') (lr_rho_O st') (lr_kbins st).
Proof.
  unfold lr_step. destruct (c1 _ _ _) as [cH cO].
  destruct (lr_target_potential _ _ _ _ _) as [kb dpn] eqn:Htp.
  intros H. apply bind_Some in H as (delta & _ & H).
  apply bind_Some in H as (delta_restr & _ & H).
  simplify_eq. simpl. by rewrite Htp.
Qed.

(** C2: in every iteration of the long-range loop the restructuring potential
    is updated by the two-phase rule.  The target potential is minus the
    potential reconstructed from the transform of the charge density of the
    densities just updated, times the prefactor; [delta_restr] is [np.max] of
    the absolute
    differences between the target and the current potential (NaN when one of
    them is NaN, otherwise an attained upper bound); the coefficient
    [alpha_restr] is the one in force after the schedule lookup of this
    iteration.  When the joint density delta is below [1e-2] and
    [delta_restr] exceeds [tolerance_restr], the new potential is, at every
    grid point, [(1 - alpha_restr) * old + alpha_restr * target]; in every
    other case it is the target itself, and then neither the diagnostics nor
    the new potential change with the potential-relaxation schedule or
    coefficient. *)
Theorem lr_two_phase_update lmft const c1 inp i st st' d :
  lr_step lmft const c1 inp i st = Some (st', d) →
  let old := lr_delta_phi st in
  let target := lr_delta_phi_new d in
  let alpha_restr :=
    schedule_update (lr_schedule_restr inp) i (lr_alpha_restr st) in
  let damped :=
    flt (lr_delta d) (Fin 1e-2)
    && flt (lr_tolerance_restr inp) (lr_delta_restr d) in
  let ft :=
    fourier_transform lmft (lr_zbins inp)
      (lr_charge_density (lr_rho_H st') (lr_rho_O st') (lr_q_H inp)
         (lr_q_O inp))
      (lr_kbins st) in
  target
  = snd (lr_target_potential lmft inp (lr_rho_H st') (lr_rho_O st') (lr_kbins st))
  ∧ target
    = vmuls (vneg (restructure_electrostatic_potential lmft ft.2 ft.1
                     (lr_zbins inp) (lr_kappa_inv inp)))
            (calculate_prefactor lmft (lr_temp inp) (lr_dielectric inp))
  ∧ joint_delta (lr_rho_H_new d) (lr_rho_H st') (lr_rho_O_new d) (lr_rho_O st')
    = Some (lr_delta d)
  ∧ np_max (vabs (vsub target old)) = Some (lr_delta_restr d)
  ∧ (if isnan (lr_delta_restr d)
     then ∃ j t o, target !! j = Some t ∧ old !! j = Some o
                   ∧ isnan (fabs (fsub t o)) = true
     else (∃ j t o, target !! j = Some t ∧ old !! j = Some o
                    ∧ lr_delta_restr d = fabs (fsub t o))
          ∧ (∀ j t o, target !! j = Some t → old !! j = Some o →
               isnan (fabs (fsub t o)) = false
               ∧ flt (lr_delta_restr d) (fabs (fsub t o)) = false))
  ∧ lr_alpha_restr st' = alpha_restr
  ∧ (damped = true →
     length (lr_delta_phi st') = min (length old) (length target)
     ∧ ∀ j o t, old !! j = Some o → target !! j = Some t →
         lr_delta_phi st' !! j
         = Some (fadd (fmul (fsub (Fin 1) alpha_restr) o)
                      (fmul alpha_restr t)))
  ∧ (damped = false → lr_delta_phi st' = target)
  ∧ (∀ s a st2 d2,
       lr_step lmft const c1 (lr_with_restr_updates inp s) i
               (lr_with_alpha_restr st a) = Some (st2, d2) →
       d2 = d ∧ (damped = false → lr_delta_phi st2 = target)).
Proof.
  intros Hstep old target alpha_restr damped ft.
  destruct (lr_step_inv _ _ _ _ _ _ _ _ Hstep) as (Ht & Hd & Hr & Hphi).
  destruct (lr_step_alpha _ _ _ _ _ _ _ _ Hstep) as [_ Har].
  split; [done|]. split.
  { pose proof (lr_step_transform _ _ _ _ _ _ _ _ Hstep) as Htr.
    unfold lr_target_potential in Htr. fold ft in Htr.
    destruct ft as [kb nk]. unfold target. by injection Htr as _ ->. }
  clear ft. split; [done|]. split; [done|].
  split; [exact (max_abs_diff_spec _ _ _ Hr)|]. split; [done|].
  split; [|split].
  - intros Hdamped. rewrite Hphi, Har. unfold restr_update.
    change (flt (lr_delta d) lr_secondary_threshold
            && fgt (lr_delta_restr d) (lr_tolerance_restr inp)) with damped.
    rewrite Hdamped. fold alpha_restr old target. split.
    + unfold mix, vadd, vscale. by rewrite length_zip_with, !length_fmap.
    + intros j o t Ho Htg. by apply mix_lookup.
  - intros Hdamped. rewrite Hphi. unfold restr_update.
    change (flt (lr_delta d) lr_secondary_threshold
            && fgt (lr_delta_restr d) (lr_tolerance_restr inp)) with damped.
    by rewrite Hdamped.
  - intros s a st2 d2 H2. revert H2 Hstep. unfold lr_step. simpl.
    unfold lr_mu_H_correction, lr_mu_O_correction, lr_target_potential. simpl.
    destruct (c1 _ _ _) as [cH cO].
    destruct (fourier_transform _ _ _ _) as [kb nk].
    intros H2 H1.
    apply bind_Some in H1 as (delta & Hdelta & H1).
    apply bind_Some in H1 as (delta_restr & Hrestr & H1).
    apply bind_Some in H2 as (delta' & Hdelta' & H2).
    apply bind_Some in H2 as (delta_restr' & Hrestr' & H2).
    unfold damped, target, old, lr_schedule in *. simpl in *. simplify_eq.
    simpl in *. split; [done|]. intros Hdamped.
    unfold restr_update, lr_secondary_threshold, fgt. by rewrite Hdamped.
Qed.

Lemma lr_runs_le lmft const c1 inp i st k st_k :
  lr_runs lmft const c1 inp i st k st_k → (i ≤ k)%nat.
Proof. induction 1; lia. Qed.

Lemma lr_converged_not_nan inp d :
  lr_converged inp d = true → isnan (lr_delta d) = false.
Proof.
  unfold lr_converged. intros [H _]%andb_true_iff.
  by apply flt_true_not_nan in H as [? _].
Qed.

Lemma lr_loop_converged lmft const c1 inp n i st z rH rO :
  lr_loop lmft const c1 inp n i st = Some (Converged (z, rH, rO)) ↔
  ∃ k st_k st' d,
    (k < i + n)%nat
    ∧ lr_runs lmft const c1 inp i st k st_k
    ∧ lr_step lmft const c1 inp k st_k = Some (st', d)
    ∧ lr_converged inp d = true
    ∧ z = lr_zbins inp ∧ rH = lr_rho_H st' ∧ rO = lr_rho_O st'.
Proof.
  revert i st. induction n as [|n IH]; intros i st; simpl.
  - split; [done|]. intros (k & st_k & _ & _ & Hk & Hruns & _).
    apply lr_runs_le in Hruns. lia.
  - split.
    + intros H. apply bind_Some in H as ([st' d] & Hstep & H).
      destruct (isnan (lr_delta d)) eqn:Hnan; [done|].
      destruct (lr_converged inp d) eqn:Hconv.
      * injection H as <- <- <-. exists i, st, st', d.
        destruct (lr_plot_branch_fields lmft inp i st') as (_ & _ & -> & -> & _).
        repeat split; [lia|constructor|done..].
      * apply IH in H as (k & st_k & st2 & d2 & Hk & Hruns & Hrest).
        exists k, st_k, st2, d2. split; [lia|]. split; [|done].
        by eapply lr_runs_next.
    + intros (k & st_k & st2 & d2 & Hk & Hruns & Hstep & Hconv & -> & -> & ->).
      inversion Hruns as [|? ? st1 d1 ? ? Hstep1 Hnan1 Hconv1 Hruns1]; subst.
      * rewrite Hstep. simpl.
        rewrite (lr_converged_not_nan _ _ Hconv), Hconv.
        by destruct (lr_plot_branch_fields lmft inp k st2) as (_ & _ & -> & -> & _).
      * rewrite Hstep1. simpl. rewrite Hnan1, Hconv1.
        apply IH. exists k, st_k, st2, d2. repeat split; [lia|done..].
Qed.

(** C4: the long-range solver returns the grid and the two density fields
    exactly when some iteration its loop enters, with index at most
    [maxiter], has the joint density delta below [tolerance] and [delta_restr]
    below [tolerance_restr] at once; the fields are those of that iteration.
    The test is made in every iteration the loop enters and reads nothing but
    these two diagnostics. *)
Theorem lr_success_iff_joint_test lmft const c1 inp z rH rO :
  minimise_LR_twotype lmft const c1 inp = Some (Converged (z, rH, rO)) ↔
  ∃ st0 k st_k st' d,
    lr_init lmft inp = Some st0
    ∧ (k ≤ lr_maxiter inp)%nat
    ∧ lr_runs lmft const c1 inp 0 st0 k st_k
    ∧ lr_step lmft const c1 inp k st_k = Some (st', d)
    ∧ flt (lr_delta d) (lr_tolerance inp) = true
    ∧ flt (lr_delta_restr d) (lr_tolerance_restr inp) = true
    ∧ z = lr_zbins inp ∧ rH = lr_rho_H st' ∧ rO = lr_rho_O st'.
Proof.
  unfold minimise_LR_twotype. split.
  - intros H. apply bind_Some in H as (st0 & Hinit & H).
    apply lr_loop_converged in H
      as (k & st_k & st' & d & Hk & Hruns & Hstep & Hconv & Hres).
    apply andb_true_iff in Hconv as [Hd Hr].
    exists st0, k, st_k, st', d. repeat split; try done; try lia; apply Hres.
  - intros (st0 & k & st_k & st' & d & Hinit & Hk & Hruns & Hstep & Hd & Hr & Hres).
    rewrite Hinit.
    refine (proj2 (lr_loop_converged lmft const c1 inp (S (lr_maxiter inp)) 0
                     st0 z rH rO) _).
    exists k, st_k, st', d. repeat split; try done; try lia; try apply Hres.
    unfold lr_converged. by rewrite Hd, Hr.
Qed.

(** ** Profiles of finite values *)

Lemma zip_with_fin (f : fl → fl → fl) (g : R → R → R) (a b : list R) :
  (∀ x y, f (Fin x) (Fin y) = Fin (g x y)) →
  zip_with f (Fin <$> a) (Fin <$> b) = Fin <$> zip_with g a b.
Proof.
  intros Hfg. revert b. induction a as [|x a IH]; intros [|y b]; simpl; try done.
  by rewrite Hfg, IH.
Qed.

Lemma tail_fin (l : list R) : tail (Fin <$> l) = Fin <$> tail l.
Proof. by destruct l. Qed.

Lemma foldl_fadd_fin (l : list R) a :
  foldl fadd (Fin a) (Fin <$> l) = Fin (a + sumR l).
Proof.
  revert a. induction l as [|x l IH]; intros a; simpl.
  - f_equal. lra.
  - rewrite IH. f_equal. lra.
Qed.

Lemma fsum_fin (l : list R) : fsum (Fin <$> l) = Fin (sumR l).
Proof. unfold fsum. rewrite foldl_fadd_fin. f_equal. lra. Qed.

Lemma fdiv_fin x y : y ≠ 0 → fdiv (Fin x) (Fin y) = Fin (x / y).
Proof. intros Hy. simpl. apply Reqb_false in Hy. by rewrite Hy. Qed.

Lemma trapz_fin (y x : list R) :
  trapz (Fin <$> y) (Fin <$> x) = Fin (trapzR y x).
Proof.
  unfold trapz, trapzR, diff, diffR. rewrite !tail_fin.
  rewrite (zip_with_fin fsub Rminus) by done.
  rewrite (zip_with_fin fadd Rplus) by done.
  rewrite (zip_with_fin _ (λ d s, d * s / 2)).
  - apply fsum_fin.
  - intros d s. apply fdiv_fin. lra.
Qed.

Lemma calculate_charge_density_fin (r z : list R) (q l : R) :
  l ≠ 0 →
  calculate_charge_density (Fin <$> r) (Fin q) (Fin l) (Fin <$> z)
  = Fin <$> ((λ x, x * q - trapzR r z * q / l) <$> r).
Proof.
  intros Hl. unfold calculate_charge_density.
  rewrite trapz_fin. simpl fmul. rewrite fdiv_fin by done.
  rewrite <- !list_fmap_compose. apply list_fmap_ext. intros _ x _.
  reflexivity.
Qed.

(** ** The trapezoidal rule *)

Lemma sumR_diffR (x : list R) : sumR (diffR x) = extentR x.
Proof.
  destruct x as [|x0 x]; [done|]. revert x0.
  induction x as [|x1 x IH]; intros x0.
  - unfold extentR. simpl. lra.
  - change (diffR (x0 :: x1 :: x)) with ((x1 - x0) :: diffR (x1 :: x)).
    simpl sumR. change (foldr Rplus 0 (diffR (x1 :: x))) with (sumR (diffR (x1 :: x))).
    rewrite IH. unfold extentR. rewrite !last_cons.
    destruct (last x); simpl; lra.
Qed.

(** The integral of [y*q - b] is [q] times the integral of [y], minus [b]
    times the extent of the grid. *)
Lemma trapzR_affine (y x : list R) (q b : R) :
  length y = length x →
  trapzR ((λ v, v * q - b) <$> y) x = q * trapzR y x - b * extentR x.
Proof.
  intros Hlen. rewrite <- sumR_diffR. unfold trapzR.
  destruct x as [|x0 x]; destruct y as [|y0 y]; try done.
  { simpl. lra. }
  revert x0 y0 y Hlen. induction x as [|x1 x IH]; intros x0 y0 [|y1 y] Hlen;
    try done.
  { simpl. lra. }
  change (diffR (x0 :: x1 :: x)) with ((x1 - x0) :: diffR (x1 :: x)).
  specialize (IH x1 y1 y ltac:(simpl in *; lia)).
  simpl in *. rewrite IH. lra.
Qed.

(** ** calculate_charge_density *)

(** C5, as stated, fails when [L] is not the extent of the grid: the density
    [1, 1] on the grid [0, 1] with charge 1 and [L = 2] has background 1/2,
    and the returned field [1/2, 1/2] integrates to 1/2. *)
Lemma charge_density_other_length_not_neutral :
  calculate_charge_density [Fin 1; Fin 1] (Fin 1) (Fin 2) [Fin 0; Fin 1]
  = [Fin (1/2); Fin (1/2)]
  ∧ trapz (calculate_charge_density [Fin 1; Fin 1] (Fin 1) (Fin 2) [Fin 0; Fin 1])
          [Fin 0; Fin 1]
    = Fin (1/2)
  ∧ trapz (calculate_charge_density [Fin 1; Fin 1] (Fin 1) (Fin 2) [Fin 0; Fin 1])
          [Fin 0; Fin 1]
    ≠ Fin 0.
Proof.
  assert (calculate_charge_density [Fin 1; Fin 1] (Fin 1) (Fin 2) [Fin 0; Fin 1]
          = [Fin (1/2); Fin (1/2)]) as Hn.
  { change [Fin 1; Fin 1] with (Fin <$> [1; 1]).
    change [Fin 0; Fin 1] with (Fin <$> [0; 1]).
    rewrite calculate_charge_density_fin by lra.
    unfold trapzR, diffR, sumR. simpl. repeat f_equal; lra. }
  assert (trapz [Fin (1/2); Fin (1/2)] [Fin 0; Fin 1] = Fin (1/2)) as Ht.
  { change [Fin (1/2); Fin (1/2)] with (Fin <$> [1/2; 1/2]).
    change [Fin 0; Fin 1] with (Fin <$> [0; 1]).
    rewrite trapz_fin. unfold trapzR, diffR, sumR. simpl. f_equal. lra. }
  rewrite Hn, Ht. repeat split. intros [=]. lra.
Qed.

(** C5, amended: in exact arithmetic, for every density profile of finite
    values on a grid of finite positions, and every charge, the field
    returned by [calculate_charge_density] integrates to exactly zero under
    the trapezoidal sum over the grid when the domain length [L] passed is
    the extent of the grid, last point minus first point, and is not zero. *)
Theorem charge_density_integrates_to_zero (r z : list R) (q l : R) :
  length r = length z → l = extentR z → l ≠ 0 →
  trapz (calculate_charge_density (Fin <$> r) (Fin q) (Fin l) (Fin <$> z))
        (Fin <$> z)
  = Fin 0.
Proof.
  intros Hlen Hext Hl.
  rewrite calculate_charge_density_fin, trapz_fin, trapzR_affine by done.
  f_equal. rewrite <- Hext. field. done.
Qed.

Lemma charge_density_integrates_to_zero_witness :
  trapz (calculate_charge_density (Fin <$> [1; 3; 2]) (Fin (-1)) (Fin 2)
                                  (Fin <$> [0; 1; 2]))
        (Fin <$> [0; 1; 2])
  = Fin 0.
Proof.
  apply (charge_density_integrates_to_zero [1; 3; 2] [0; 1; 2] (-1) 2).
  - reflexivity.
  - unfold extentR. simpl. lra.
  - lra.
Defined.

(** ** The charge density of the long-range solver *)

Lemma lr_charge_density_fin (rH rO : list R) (qH qO : R) :
  lr_charge_density (Fin <$> rH) (Fin <$> rO) (Fin qH) (Fin qO)
  = Fin <$> zip_with (λ o h, o * qO + h * qH) rO rH.
Proof.
  unfold lr_charge_density, vadd, vmuls.
  revert rH. induction rO as [|o rO IH]; intros [|h rH]; simpl; try done.
  f_equal. apply IH.
Qed.

Lemma standalone_sum_fin (rH rO z : list R) (qH qO l : R) :
  l ≠ 0 →
  vadd (calculate_charge_density (Fin <$> rO) (Fin qO) (Fin l) (Fin <$> z))
       (calculate_charge_density (Fin <$> rH) (Fin qH) (Fin l) (Fin <$> z))
  = Fin <$> zip_with (λ o h, o * qO + h * qH
                             - (trapzR rO z * qO / l + trapzR rH z * qH / l)) rO rH.
Proof.
  intros Hl. rewrite !calculate_charge_density_fin by done.
  generalize (trapzR rO z * qO / l) (trapzR rH z * qH / l). intros bO bH.
  unfold vadd. revert rH. induction rO as [|o rO IH]; intros [|h rH]; simpl; try done.
  f_equal; [f_equal; lra | apply IH].
Qed.

Lemma lr_charge_density_lookup (rho_H rho_O : list fl) q_H q_O j h o :
  rho_H !! j = Some h → rho_O !! j = Some o →
  lr_charge_density rho_H rho_O q_H q_O !! j
  = Some (fadd (fmul o q_O) (fmul h q_H)).
Proof.
  intros Hh Ho. unfold lr_charge_density, vadd, vmuls.
  by rewrite lookup_zip_with, !list_lookup_fmap, Hh, Ho.
Qed.



(** ** Densities stay positive where valid and zero elsewhere *)

Lemma vexp_length l : length (vexp l) = length l.
Proof. unfold vexp. by rewrite length_fmap. Qed.

Lemma unit_open_mix_NInf alpha :
  unit_open alpha →
  fadd (fmul (fsub (Fin 1) alpha) NInf) (fmul alpha NInf) = NInf.
Proof.
  intros (a & -> & Ha). simpl. unfold inf_times.
  assert (Reqb (1 + - a) 0 = false) as -> by (apply Reqb_false; lra).
  assert (Rltb 0 (1 + - a) = true) as -> by (apply Rltb_true; lra).
  assert (Reqb a 0 = false) as -> by (apply Reqb_false; lra).
  assert (Rltb 0 a = true) as -> by (apply Rltb_true; lra).
  done.
Qed.

Lemma exp_le x y : x <= y → exp x <= exp y.
Proof.
  intros [H| ->]; [left; by apply exp_increasing | right; reflexivity].
Qed.

Lemma initial_log_rho_ok muloc g :
  exp_safe (flog g) →
  Forall2 log_ok muloc (initial_log_rho (valid_mask muloc) g).
Proof.
  intros Hg. unfold initial_log_rho, valid_mask.
  induction muloc as [|m muloc IH]; simpl; constructor; [|done].
  unfold log_ok. by destruct (isfinite m).
Qed.

(** A relaxed value lies between the two values it mixes. *)
Lemma mix_between (lo hi a x y : R) :
  0 < a < 1 → lo <= x <= hi → lo <= y <= hi →
  lo <= (1 + - a) * x + a * y <= hi.
Proof. intros Ha Hx Hy. split; nra. Qed.

Lemma mix_exp_safe alpha o t :
  unit_open alpha → exp_safe o → exp_safe t →
  exp_safe (fadd (fmul (fsub (Fin 1) alpha) o) (fmul alpha t)).
Proof.
  intros (a & -> & Ha) (x & -> & Hx) (y & -> & Hy). simpl.
  eexists. split; [done|]. by apply mix_between.
Qed.

Lemma mix_within P alpha (old new : list fl) :
  unit_open alpha →
  Forall (within P) old → Forall (within P) new →
  Forall (within P) (mix alpha old new).
Proof.
  intros (a & -> & Ha) Hold. revert new. unfold mix, vadd, vscale.
  induction Hold as [|o old (x & -> & Hx) _ IH]; intros new Hnew; [constructor|].
  destruct Hnew as [|t new (y & -> & Hy) Hnew]; simpl; constructor; [|by apply IH].
  eexists. split; [done|]. by apply mix_between.
Qed.

Lemma within_constant P c (l : list fl) :
  within P c → Forall (within P) ((λ _, c) <$> l).
Proof. intros Hc. induction l; simpl; by constructor. Qed.

(** The log-domain update keeps the log-density within the range where valid
    and at minus infinity elsewhere. *)
Lemma mix_target_log_ok alpha muloc old c1 :
  unit_open alpha →
  Forall2 log_ok muloc old →
  target_in_range muloc c1 →
  Forall2 log_ok muloc (mix alpha old (target_log (valid_mask muloc) muloc c1)).
Proof.
  intros Halpha Hold. revert c1.
  induction Hold as [|m o muloc old Hm Hold IH]; intros c1 Hc1.
  - inversion Hc1; subst. constructor.
  - inversion Hc1 as [|? c ? c1' Hc Hc1']; subst.
    change (mix alpha (o :: old)
              (target_log (valid_mask (m :: muloc)) (m :: muloc) (c :: c1')))
      with (fadd (fmul (fsub (Fin 1) alpha) o)
                 (fmul alpha (if isfinite m then fadd m c else NInf))
            :: mix alpha old (target_log (valid_mask muloc) muloc c1')).
    constructor; [|by apply IH].
    unfold log_ok in *. destruct (isfinite m) eqn:Hfin.
    + specialize (Hc eq_refl). by apply mix_exp_safe.
    + subst o. by apply unit_open_mix_NInf.
Qed.

Lemma vexp_profile_ok muloc l : Forall2 log_ok muloc l → profile_ok muloc (vexp l).
Proof.
  unfold profile_ok, vexp. induction 1 as [|m x muloc l Hx _ IH]; simpl;
    constructor; [|done].
  unfold log_ok, density_ok in *. destruct (isfinite m).
  - destruct Hx as (v & -> & Hlo & Hhi). exists (exp v).
    split; [done|]. split; [apply exp_pos|]. split; by apply exp_le.
  - by subst.
Qed.

Lemma schedule_update_unit updates i alpha :
  schedule_in_unit updates → unit_open alpha →
  unit_open (schedule_update updates i alpha).
Proof.
  intros Hs Ha. unfold schedule_update.
  destruct (updates !! Z.of_nat i) eqn:H; [by eapply Hs | done].
Qed.

(** *** The single-species solver *)

Section SingleSpecies.
Context (c1 : evaluator1) (inp : sr1_input).

(** A returned density is the density after some iteration. *)
Lemma sr1_loop_returns_iterate n i z rho :
  sr1_loop c1 inp n i (sr1_iterate c1 inp i) = Some (Converged (z, rho)) →
  ∃ k, z = sr1_zbins inp ∧ rho = sr1_rho (sr1_iterate c1 inp (S k)).
Proof.
  revert i. induction n as [|n IH]; intros i; [done|].
  rewrite sr1_loop_unfold. cbv zeta. intros H.
  apply bind_Some in H as (delta & _ & H).
  destruct (isnan delta); [done|].
  apply bind_Some in H as (top & _ & H).
  destruct (sr_converged _ _ _).
  - injection H as <- <-. by exists i.
  - by apply (IH (S i)).
Qed.

Hypothesis Hwf : sr1_well_formed c1 inp.

Lemma sr1_iterate_ok n :
  let st := sr1_iterate c1 inp n in
  unit_open (sr1_alpha st)
  ∧ Forall2 log_ok (sr1_muloc inp) (sr1_log_rho st)
  ∧ length (sr1_rho st) = length (sr1_muloc inp)
  ∧ (0 < n → sr1_rho st = vexp (sr1_log_rho st))%nat.
Proof.
  destruct Hwf as [Hg Hgr Ha Hs Hlen Hc].
  induction n as [|n (IHa & IHl & IHr & _)].
  - repeat split; [done| | |lia].
    + by apply initial_log_rho_ok.
    + simpl. unfold vscale, ones_like. by rewrite !length_fmap.
  - assert (Forall2 log_ok (sr1_muloc inp)
              (sr1_log_rho (sr1_iterate c1 inp (S n)))) as Hl.
    { simpl. apply mix_target_log_ok;
        [by apply schedule_update_unit|done|by apply Hc]. }
    repeat split; [by apply schedule_update_unit|done|].
    simpl. rewrite vexp_length. symmetry. apply (Forall2_length _ _ _ Hl).
Qed.

Lemma sr1_density_ok n :
  profile_ok (sr1_muloc inp) (sr1_rho (sr1_iterate c1 inp (S n))).
Proof.
  destruct (sr1_iterate_ok (S n)) as (_ & Hl & _ & Hr).
  rewrite Hr by lia. by apply vexp_profile_ok.
Qed.

Lemma sr1_returned_density_ok z rho :
  minimise_SR_onetype c1 inp = Some (Converged (z, rho)) →
  profile_ok (sr1_muloc inp) rho.
Proof.
  unfold minimise_SR_onetype. destruct (sr1_zbins inp); [done|].
  intros H. apply (sr1_loop_returns_iterate _ 0) in H as (k & _ & ->).
  apply sr1_density_ok.
Qed.
End SingleSpecies.

(** *** The two-species solver *)

Section TwoSpecies.
Context (c1 : evaluator2) (inp : sr2_input).

Lemma sr2_update_eq i st :
  sr2_update c1 inp i st
  = (let alpha := schedule_update (sr2_schedule inp) i (sr2_alpha st) in
     let c := c1 i (sr2_rho_H st) (sr2_rho_O st) in
     let new_H :=
       target_log (valid_mask (sr2_muloc_H inp)) (sr2_muloc_H inp) c.1 in
     let new_O :=
       target_log (valid_mask (sr2_muloc_O inp)) (sr2_muloc_O inp) c.2 in
     ({| sr2_alpha := alpha;
         sr2_rho_H := vexp (mix alpha (sr2_log_rho_H st) new_H);
         sr2_rho_O := vexp (mix alpha (sr2_log_rho_O st) new_O);
         sr2_log_rho_H := mix alpha (sr2_log_rho_H st) new_H;
         sr2_log_rho_O := mix alpha (sr2_log_rho_O st) new_O |},
      (vexp new_H, vexp new_O))).
Proof. unfold sr2_update. by destruct (c1 _ _ _). Qed.

Lemma sr2_loop_unfold n i st :
  sr2_loop c1 inp (S n) i st
  = (let st' := fst (sr2_update c1 inp i st) in
     let rho_H_new := fst (snd (sr2_update c1 inp i st)) in
     let rho_O_new := snd (snd (sr2_update c1 inp i st)) in
     delta ← joint_delta rho_H_new (sr2_rho_H st') rho_O_new (sr2_rho_O st');
     if isnan delta then Some Sentinel
     else
       top_O ← np_max (sr2_rho_O st');
       top_H ← np_max (sr2_rho_H st');
       if sr_converged delta (fdiv delta (py_max top_O top_H))
            (sr2_tolerance inp)
       then Some (Converged (sr2_zbins inp, sr2_rho_H st', sr2_rho_O st'))
       else sr2_loop c1 inp n (S i) st').
Proof. simpl. by destruct (sr2_update c1 inp i st) as [st' [a b]]. Qed.

Lemma sr2_loop_returns_iterate n i z rho_H rho_O :
  sr2_loop c1 inp n i (sr2_iterate c1 inp i)
  = Some (Converged (z, rho_H, rho_O)) →
  ∃ k, z = sr2_zbins inp
       ∧ rho_H = sr2_rho_H (sr2_iterate c1 inp (S k))
       ∧ rho_O = sr2_rho_O (sr2_iterate c1 inp (S k)).
Proof.
  revert i. induction n as [|n IH]; intros i; [done|].
  rewrite sr2_loop_unfold. cbv zeta. intros H.
  apply bind_Some in H as (delta & _ & H).
  destruct (isnan delta); [done|].
  apply bind_Some in H as (top_O & _ & H).
  apply bind_Some in H as (top_H & _ & H).
  destruct (sr_converged _ _ _).
  - injection H as <- <- <-. by exists i.
  - by apply (IH (S i)).
Qed.

Hypothesis Hwf : sr2_well_formed c1 inp.

Lemma sr2_iterate_ok n :
  let st := sr2_iterate c1 inp n in
  unit_open (sr2_alpha st)
  ∧ Forall2 log_ok (sr2_muloc_H inp) (sr2_log_rho_H st)
  ∧ Forall2 log_ok (sr2_muloc_O inp) (sr2_log_rho_O st)
  ∧ length (sr2_rho_H st) = length (sr2_zbins inp)
  ∧ length (sr2_rho_O st) = length (sr2_zbins inp)
  ∧ (0 < n → sr2_rho_H st = vexp (sr2_log_rho_H st)
             ∧ sr2_rho_O st = vexp (sr2_log_rho_O st))%nat.
Proof.
  destruct Hwf as [Hg Hgr Ha Hs HlenH HlenO Hc].
  induction n as [|n (IHa & IHH & IHO & IHrH & IHrO & _)].
  - repeat split; [done| | | | |lia..]; try (by apply initial_log_rho_ok);
      simpl; unfold vscale, ones_like; by rewrite !length_fmap.
  - destruct (Hc n _ _ IHrH IHrO) as [HcH HcO].
    cbn [sr2_iterate]. rewrite sr2_update_eq. cbv zeta. cbn [fst].
    cbn [sr2_alpha sr2_log_rho_H sr2_log_rho_O sr2_rho_H sr2_rho_O].
    assert (unit_open (schedule_update (sr2_schedule inp) n
                         (sr2_alpha (sr2_iterate c1 inp n)))) as Ha'
      by (by apply schedule_update_unit).
    pose proof (mix_target_log_ok _ _ _ _ Ha' IHH HcH) as HH.
    pose proof (mix_target_log_ok _ _ _ _ Ha' IHO HcO) as HO.
    repeat split; try done.
    + rewrite vexp_length, <- HlenH. symmetry.
      apply (Forall2_length _ _ _ HH).
    + rewrite vexp_length, <- HlenO. symmetry.
      apply (Forall2_length _ _ _ HO).
Qed.

Lemma sr2_density_ok n :
  profile_ok (sr2_muloc_H inp) (sr2_rho_H (sr2_iterate c1 inp (S n)))
  ∧ profile_ok (sr2_muloc_O inp) (sr2_rho_O (sr2_iterate c1 inp (S n))).
Proof.
  destruct (sr2_iterate_ok (S n)) as (_ & HH & HO & _ & _ & Hr).
  destruct Hr as [-> ->]; [lia|]. split; by apply vexp_profile_ok.
Qed.

Lemma sr2_returned_density_ok z rho_H rho_O :
  minimise_SR_twotype c1 inp = Some (Converged (z, rho_H, rho_O)) →
  profile_ok (sr2_muloc_H inp) rho_H ∧ profile_ok (sr2_muloc_O inp) rho_O.
Proof.
  intros H.
  apply (sr2_loop_returns_iterate _ 0) in H as (k & _ & -> & ->).
  apply sr2_density_ok.
Qed.
End TwoSpecies.

(** *** The long-range solver *)

Lemma lr_step_density lmft const c1 inp i st st' d :
  lr_step lmft const c1 inp i st = Some (st', d) →
  let c := c1 i (lr_rho_H st) (lr_rho_O st) in
  let new_H :=
    target_log (valid_mask (lr_muloc_H inp)) (lr_muloc_H inp)
      (lr_correlation c.1 (lr_mu_H_correction const inp) (lr_q_H inp)
         (lr_delta_phi st)) in
  let new_O :=
    target_log (valid_mask (lr_muloc_O inp)) (lr_muloc_O inp)
      (lr_correlation c.2 (lr_mu_O_correction const inp) (lr_q_O inp)
         (lr_delta_phi st)) in
  lr_log_rho_H st' = mix (lr_alpha st') (lr_log_rho_H st) new_H
  ∧ lr_log_rho_O st' = mix (lr_alpha st') (lr_log_rho_O st) new_O
  ∧ lr_rho_H st' = vexp (lr_log_rho_H st')
  ∧ lr_rho_O st' = vexp (lr_log_rho_O st')
  ∧ lr_rho_H_new d = vexp new_H
  ∧ lr_rho_O_new d = vexp new_O.
Proof.
  unfold lr_step. destruct (c1 _ _ _) as [cH cO].
  destruct (lr_target_potential _ _ _ _ _) as [kb dpn].
  intros H. apply bind_Some in H as (delta & _ & H).
  apply bind_Some in H as (delta_restr & _ & H).
  by simplify_eq.
Qed.

Lemma lr_plot_branch_ok lmft inp P i st :
  lr_state_ok inp P st → lr_state_ok inp P (lr_plot_branch lmft inp i st).
Proof.
  unfold lr_state_ok.
  destruct (lr_plot_branch_fields lmft inp i st)
    as (-> & -> & -> & -> & -> & -> & ->). done.
Qed.

Section LongRange.
Context (lmft : lmft_utils) (const : constants) (c1 : evaluator2)
        (inp : lr_input) (P : R).
Hypothesis Hwf : lr_well_formed lmft const c1 inp P.

Lemma lr_init_ok st : lr_init lmft inp = Some st → lr_state_ok inp P st.
Proof.
  unfold lr_init.
  destruct (lr_zbins inp) as [|z0 [|z1 zs]] eqn:Hz; try done.
  intros [= <-]. unfold lr_state_ok. simpl.
  pose proof (lr_wf_bound _ _ _ _ _ Hwf) as HP.
  split_and!.
  - apply Hwf.
  - exists 0.01. split; [done|lra].
  - apply initial_log_rho_ok, Hwf.
  - apply initial_log_rho_ok, Hwf.
  - apply (within_constant P (Fin 0) (z0 :: z1 :: zs)).
    exists 0. split; [done|lra].
  - rewrite Hz. simpl. by rewrite length_fmap.
  - unfold vscale, ones_like. by rewrite !length_fmap, Hz.
  - unfold vscale, ones_like. by rewrite !length_fmap, Hz.
Qed.

Lemma lr_target_potential_within rho_H rho_O kbins :
  Forall (within P) (lr_target_potential lmft inp rho_H rho_O kbins).2
  ∧ length (lr_target_potential lmft inp rho_H rho_O kbins).2
    = length (lr_zbins inp).
Proof.
  unfold lr_target_potential.
  destruct (fourier_transform _ _ _ _) as [kb nk]. cbn [snd].
  destruct (lr_wf_potential _ _ _ _ _ Hwf nk kb) as [Hin Hlen].
  split; [done|]. unfold vmuls, vneg. by rewrite !length_fmap.
Qed.

Lemma lr_step_ok i st st' d :
  lr_state_ok inp P st →
  lr_step lmft const c1 inp i st = Some (st', d) →
  lr_state_ok inp P st'
  ∧ lr_rho_H st' = vexp (lr_log_rho_H st')
  ∧ lr_rho_O st' = vexp (lr_log_rho_O st').
Proof.
  intros (Ha & Har & HH & HO & Hphi & Hlen & HrhoH & HrhoO) Hstep.
  pose proof (lr_step_inv _ _ _ _ _ _ _ _ Hstep) as (Ht & _ & _ & Hnew).
  pose proof (lr_step_alpha _ _ _ _ _ _ _ _ Hstep) as [Halpha Hrestr].
  pose proof (lr_step_density _ _ _ _ _ _ _ _ Hstep)
    as (HlH & HlO & HrH & HrO & _).
  pose proof (lr_target_potential_within (lr_rho_H st') (lr_rho_O st')
                (lr_kbins st)) as [Htf Htl].
  rewrite Ht in Htf, Htl.
  assert (unit_open (lr_alpha st')) as Ha'.
  { rewrite Halpha. apply schedule_update_unit; [apply Hwf|done]. }
  assert (unit_open (lr_alpha_restr st')) as Har'.
  { rewrite Hrestr. apply schedule_update_unit; [apply Hwf|done]. }
  assert (Forall (within P) (lr_delta_phi st')
          ∧ length (lr_delta_phi st') = length (lr_zbins inp))
    as [Hphi' Hlen'].
  { rewrite Hnew. unfold restr_update. destruct (_ && _); [|done].
    split; [by apply mix_within|rewrite mix_length; lia]. }
  pose proof (lr_wf_length_H _ _ _ _ _ Hwf) as HLH.
  pose proof (lr_wf_length_O _ _ _ _ _ Hwf) as HLO.
  destruct (lr_wf_target _ _ _ _ _ Hwf i _ _ _ HrhoH HrhoO Hlen Hphi)
    as [HcH HcO].
  assert (Forall2 log_ok (lr_muloc_H inp) (lr_log_rho_H st')) as HH'.
  { rewrite HlH. by apply mix_target_log_ok. }
  assert (Forall2 log_ok (lr_muloc_O inp) (lr_log_rho_O st')) as HO'.
  { rewrite HlO. by apply mix_target_log_ok. }
  split; [|done]. unfold lr_state_ok. split_and!; try done.
  - rewrite HrH, vexp_length, <- HLH. symmetry.
    apply (Forall2_length _ _ _ HH').
  - rewrite HrO, vexp_length, <- HLO. symmetry.
    apply (Forall2_length _ _ _ HO').
Qed.

Lemma lr_runs_ok i st k st_k :
  lr_runs lmft const c1 inp i st k st_k →
  lr_state_ok inp P st → lr_state_ok inp P st_k.
Proof.
  induction 1 as [|i st st' d k st_k Hstep _ _ _ IH]; [done|].
  intros Hst. apply IH, lr_plot_branch_ok.
  by destruct (lr_step_ok _ _ _ _ Hst Hstep).
Qed.

Lemma lr_density_ok st0 k st_k st' d :
  lr_init lmft inp = Some st0 →
  lr_runs lmft const c1 inp 0 st0 k st_k →
  lr_step lmft const c1 inp k st_k = Some (st', d) →
  profile_ok (lr_muloc_H inp) (lr_rho_H st')
  ∧ profile_ok (lr_muloc_O inp) (lr_rho_O st').
Proof.
  intros Hinit Hruns Hstep.
  pose proof (lr_runs_ok _ _ _ _ Hruns (lr_init_ok _ Hinit)) as Hk.
  destruct (lr_step_ok _ _ _ _ Hk Hstep)
    as ((_ & _ & HH & HO & _) & -> & ->).
  split; by apply vexp_profile_ok.
Qed.

Lemma lr_returned_density_ok z rho_H rho_O :
  minimise_LR_twotype lmft const c1 inp
  = Some (Converged (z, rho_H, rho_O)) →
  profile_ok (lr_muloc_H inp) rho_H ∧ profile_ok (lr_muloc_O inp) rho_O.
Proof.
  intros H. unfold minimise_LR_twotype in H.
  apply bind_Some in H as (st0 & Hinit & H).
  apply lr_loop_converged in H
    as (k & st_k & st' & d & _ & Hruns & Hstep & _ & _ & -> & ->).
  by eapply lr_density_ok.
Qed.
End LongRange.

(** *** The default tables and the self-energy correction *)

Ltac table_in_unit :=
  intros k a H; apply elem_of_list_to_map_2 in H;
  repeat (apply elem_of_cons in H as [H|H];
          [injection H as -> ->; eexists; split; [reflexivity|lra] |]);
  by apply elem_of_nil in H.

Lemma alpha_updates_default_onetype_in_unit :
  schedule_in_unit alpha_updates_default_onetype.
Proof. unfold alpha_updates_default_onetype. table_in_unit. Qed.

Lemma alpha_updates_default_twotype_in_unit :
  schedule_in_unit alpha_updates_default_twotype.
Proof. unfold alpha_updates_default_twotype. table_in_unit. Qed.

Lemma alpha_restr_updates_default_in_unit :
  schedule_in_unit alpha_restr_updates_default.
Proof. unfold alpha_restr_updates_default. table_in_unit. Qed.

(** The value of [mu_correction] for finite arguments that make no
    denominator zero. *)
Lemma mu_correction_value (e eps kB q kappa temp : R) :
  eps ≠ 0 → kB ≠ 0 → kappa ≠ 0 → temp ≠ 0 →
  mu_correction
    {| elementary_charge := Fin e; epsilon_0 := Fin eps; Boltzmann := Fin kB |}
    (Fin q) (Fin kappa) (Fin temp)
  = Fin (e * e / (4 * PI * eps * 1e-10) * (- (q * q) / (kappa * sqrt PI))
         * (1 / (kB * temp))).
Proof.
  intros Heps HkB Hkappa Htemp. unfold mu_correction, const_pi, sqrt_pi.
  cbn [elementary_charge epsilon_0 Boltzmann fmul fneg].
  pose proof PI_RGT_0 as Hpi. pose proof (sqrt_lt_R0 PI Hpi) as Hsq.
  assert (4 * PI * eps * 1e-10 ≠ 0) as H1.
  { apply Rmult_integral_contrapositive_currified; [|lra].
    apply Rmult_integral_contrapositive_currified; [|done].
    apply Rmult_integral_contrapositive_currified; lra. }
  assert (kB * temp ≠ 0) as H2.
  { by apply Rmult_integral_contrapositive_currified. }
  assert (kappa * sqrt PI ≠ 0) as H3.
  { apply Rmult_integral_contrapositive_currified; [done|lra]. }
  by rewrite !fdiv_fin.
Qed.

(** With the CODATA constants, a smearing length of 4 and a temperature of
    300 the correction of a charge of at most one elementary charge lies
    between -700 and 0. *)
Lemma codata_mu_correction_range q :
  q * q <= 1 →
  ∃ m, mu_correction codata (Fin q) (Fin 4) (Fin 300) = Fin m
       ∧ -700 <= m <= 0.
Proof.
  intros Hq. unfold codata. rewrite mu_correction_value by lra.
  eexists. split; [done|].
  pose proof PI2_3_2 as Hpi. pose proof (sqrt_le_1_alt 1 PI) as Hsq.
  rewrite sqrt_1 in Hsq. assert (1 <= sqrt PI) as Hs by (apply Hsq; lra).
  clear Hsq.
  set (D := 4 * PI * 8.8541878128e-12 * 1e-10).
  assert (1.0625e-20 <= D) as HD by (unfold D; lra).
  assert (0 < / D <= / 1.0625e-20) as HiD.
  { split; [apply Rinv_0_lt_compat; lra|apply Rinv_le_contravar; lra]. }
  assert (0 < / (4 * sqrt PI) <= / 4) as HiK.
  { split; [apply Rinv_0_lt_compat; lra|apply Rinv_le_contravar; lra]. }
  set (iD := / D) in *. set (iK := / (4 * sqrt PI)) in *.
  set (e2 := 1.602176634e-19 * 1.602176634e-19).
  set (b := 1 / (1.380649e-23 * 300)).
  assert (0 < e2 <= 2.567e-38) as He2 by (unfold e2; lra).
  assert (0 < b <= 2.5e20) as Hb.
  { unfold b. split.
    - apply Rdiv_lt_0_compat; lra.
    - apply (Rmult_le_reg_r (1.380649e-23 * 300)); [lra|].
      unfold Rdiv. rewrite Rmult_assoc, Rinv_l by lra. lra. }
  assert (0 <= q * q) as Hqq by nra.
  replace (e2 / D * (- (q * q) / (4 * sqrt PI)) * b)
    with (- ((q * q) * ((e2 * iD) * iK * b)))
    by (unfold Rdiv; fold iD iK; ring).
  assert (0 < e2 * iD <= 2.5e-18) as Hp.
  { split; [apply Rmult_lt_0_compat; lra|].
    apply Rle_trans with (2.567e-38 * / 1.0625e-20); [|lra].
    apply Rmult_le_compat; lra. }
  assert (0 < e2 * iD * iK <= 2.5e-18 * / 4) as Hpk.
  { split; [apply Rmult_lt_0_compat; lra|apply Rmult_le_compat; lra]. }
  assert (0 < e2 * iD * iK * b <= 2.5e-18 * / 4 * 2.5e20) as Hpkb.
  { split; [apply Rmult_lt_0_compat; lra|apply Rmult_le_compat; lra]. }
  set (w := e2 * iD * iK * b) in *.
  assert (2.5e-18 * / 4 * 2.5e20 <= 700) as Hnum by lra.
  split; nra.
Qed.

Lemma default_guess_range : exp_safe (flog lr_initial_guess_default).
Proof.
  unfold lr_initial_guess_default. simpl.
  rewrite (proj2 (Rltb_true 0 0.04)) by lra.
  eexists. split; [done|]. unfold log_lo, log_hi. split.
  - left. apply exp_lt_inv. rewrite exp_ln by lra.
    change (exp (Ropp 700) < 0.04). rewrite exp_Ropp. pose proof (exp_ineq1 700) as H.
    assert (701 < exp 700) as H' by (specialize (H ltac:(lra)); lra).
    apply Rlt_trans with (/ 701); [|lra].
    apply Rinv_lt_contravar; [|done].
    apply Rmult_lt_0_compat; lra.
  - left. apply Rlt_trans with 0; [|lra].
    rewrite <- ln_1. apply ln_increasing; lra.
Qed.

(** *** Evaluating the solvers on one grid point *)

Lemma default_onetype_0 a : schedule_update alpha_updates_default_onetype 0 a = a.
Proof. reflexivity. Qed.

Lemma default_twotype_0 a : schedule_update alpha_updates_default_twotype 0 a = a.
Proof. reflexivity. Qed.

Lemma flog_1 : flog (Fin 1) = Fin 0.
Proof.
  simpl. assert (Rltb 0 1 = true) as -> by (apply Rltb_true; lra).
  by rewrite ln_1.
Qed.

Lemma fabs_zero_diff x : fabs (fsub (Fin x) (Fin x)) = Fin 0.
Proof. simpl. f_equal. rewrite Rplus_opp_r. apply Rabs_R0. Qed.

Lemma sr1_update_nan :
  sr1_update nan_c1 one_point_input 0 (sr1_init one_point_input)
  = ({| sr1_alpha := sr1_alpha_initial_default; sr1_rho := [NaN];
        sr1_log_rho := [NaN] |}, [NaN]).
Proof.
  unfold sr1_update.
  assert (sr1_schedule one_point_input = alpha_updates_default_onetype) as ->
    by done.
  rewrite default_onetype_0.
  unfold nan_c1, one_point_input, sr1_init, valid_mask, initial_log_rho,
    target_log, mix, vexp, vadd, vscale, ones_like.
  cbn [fmap list_fmap zip_with isfinite sr1_muloc sr1_rho sr1_log_rho
       sr1_initial_guess sr1_alpha_initial sr1_zbins sr1_alpha].
  by rewrite flog_1.
Qed.

Lemma sr1_update_ninf :
  sr1_update ninf_c1 one_point_input 0 (sr1_init one_point_input)
  = ({| sr1_alpha := sr1_alpha_initial_default; sr1_rho := [Fin 0];
        sr1_log_rho := [NInf] |}, [Fin 0]).
Proof.
  unfold sr1_update.
  assert (sr1_schedule one_point_input = alpha_updates_default_onetype) as ->
    by done.
  rewrite default_onetype_0.
  unfold ninf_c1, one_point_input, sr1_init, valid_mask, initial_log_rho,
    target_log, mix, vexp, vadd, vscale, ones_like.
  cbn [fmap list_fmap zip_with isfinite sr1_muloc sr1_rho sr1_log_rho
       sr1_initial_guess sr1_alpha_initial sr1_zbins sr1_alpha].
  rewrite flog_1. unfold sr1_alpha_initial_default. simpl. unfold inf_times.
  assert (Reqb 1e-6 0 = false) as -> by (apply Reqb_false; lra).
  assert (Rltb 0 1e-6 = true) as -> by (apply Rltb_true; lra).
  done.
Qed.

Lemma not_profile_ok_nan : ¬ profile_ok [Fin 0] [NaN].
Proof.
  intros H. apply Forall2_cons in H as [H _]. by destruct H as (x & ? & _).
Qed.

Lemma not_profile_ok_zero : ¬ profile_ok [Fin 0] [Fin 0].
Proof.
  intros H. apply Forall2_cons in H as [H _].
  destruct H as (x & [= <-] & Hx & _). lra.
Qed.



Lemma one_point_well_formed : sr1_well_formed zero_c1 one_point_input.
Proof.
  split.
  - exists 1. split; [done|lra].
  - change (exp_safe (flog (Fin 1))). rewrite flog_1.
    exists 0. split; [done|]. unfold log_lo, log_hi. lra.
  - exists 1e-6. split; [done|lra].
  - apply alpha_updates_default_onetype_in_unit.
  - done.
  - intros i [|r [|r' rho]] Hlen; try done.
    constructor; [|constructor]. intros _. exists (0 + 0).
    split; [done|]. unfold log_lo, log_hi. lra.
Qed.

Lemma two_point_target_in_range (q c v : R) :
  q * q <= 1 → - 0 <= v <= 0 →
  exp_safe
    (fadd (Fin 0)
       (fadd (fsub (Fin 0)
                (fmul (mu_correction codata (Fin q) (Fin 4) (Fin 300)) (Fin 1)))
             (fmul (Fin c) (Fin v)))).
Proof.
  intros Hq Hv. destruct (codata_mu_correction_range q Hq) as (m & -> & Hm).
  simpl. eexists. split; [done|]. unfold log_lo, log_hi.
  assert (v = 0) as -> by lra. lra.
Qed.

Lemma Rabs_square_le_1 x : -1 <= x <= 1 → Rabs x * Rabs x <= 1.
Proof.
  intros Hx. rewrite <- Rabs_mult. rewrite Rabs_pos_eq; nra.
Qed.

Lemma two_point_well_formed :
  lr_well_formed flat_lmft codata zero_c2 two_point_input 0.
Proof.
  split.
  - exists 0.04. split; [done|lra].
  - apply default_guess_range.
  - exists 0.000001. split; [done|lra].
  - apply alpha_updates_default_twotype_in_unit.
  - apply alpha_restr_updates_default_in_unit.
  - done.
  - done.
  - lra.
  - intros i [|a [|b [|c rH]]] [|a' [|b' [|c' rO]]] [|p [|p' [|p'' dphi]]]
      HH HO Hd Hin; try done.
    apply Forall_cons in Hin as [(v & -> & Hv) Hin].
    apply Forall_cons in Hin as [(v' & -> & Hv') _].
    unfold lr_correlation, lr_mu_H_correction, lr_mu_O_correction, zero_c2,
      vadd, vsub, vscale, ones_like.
    cbn [fmap list_fmap zip_with fst snd two_point_input lr_zbins lr_muloc_H
         lr_muloc_O lr_q_H lr_q_O lr_kappa_inv lr_temp fabs].
    split.
    + constructor; [|constructor; [done|constructor]]. intros _.
      apply two_point_target_in_range; [apply Rabs_square_le_1; lra|done].
    + constructor; [|constructor; [|constructor]]; intros _;
        (apply two_point_target_in_range; [apply Rabs_square_le_1; lra|done]).
  - intros n_k kbins. split; [|done].
    repeat constructor; exists (- 0 * 1); (split; [done|lra]).
Qed.


(** *** A damped step of the long-range loop *)

(** On the walled grid the densities do not move, so the density delta is
    zero; with utilities that reconstruct the potential 1 the target
    potential is -1 and [delta_restr] is 1. *)
Lemma walled_damped_step :
  ∃ st' d,
    lr_step unit_lmft codata zero_c2 walled_input 0 walled_state = Some (st', d)
    ∧ lr_delta d = Fin 0 ∧ lr_delta_restr d = Fin 1
    ∧ lr_delta_phi_new d
      = [fmul (fneg (Fin 1)) (Fin 1); fmul (fneg (Fin 1)) (Fin 1)].
Proof.
  unfold lr_step.
  assert (lr_schedule walled_input = alpha_updates_default_twotype) as ->
    by done.
  rewrite default_twotype_0.
  unfold walled_state, zero_c2, lr_correlation, lr_mu_H_correction,
    lr_mu_O_correction, target_log, valid_mask, mix, vexp, vadd, vsub, vscale,
    ones_like.
  cbn [fmap list_fmap zip_with isfinite walled_input lr_muloc_H lr_muloc_O
       lr_zbins lr_rho_H lr_rho_O lr_log_rho_H lr_log_rho_O lr_delta_phi
       lr_alpha lr_alpha_restr lr_kbins].
  rewrite (unit_open_mix_NInf lr_alpha_initial_default).
  2:{ exists 0.000001. split; [done|lra]. }
  cbn [fexp].
  assert (∀ rH rO kb, lr_target_potential unit_lmft walled_input rH rO kb
            = (kb, [fmul (fneg (Fin 1)) (Fin 1); fmul (fneg (Fin 1)) (Fin 1)]))
    as -> by done.
  unfold joint_delta, max_abs_diff, vabs, vsub.
  cbn [fmap list_fmap zip_with]. rewrite !fabs_zero_diff.
  assert (fabs (fsub (fmul (fneg (Fin 1)) (Fin 1)) (Fin 0)) = Fin 1) as ->.
  { cbn [fneg fmul fsub fadd fabs]. f_equal.
    replace (- (1) * 1 + - 0) with (- (1)) by lra.
    rewrite Rabs_Ropp. apply Rabs_R1. }
  assert (∀ x, np_max [Fin x; Fin x] = Some (Fin x)) as Hmax.
  { intros x. cbn [np_max foldl]. unfold np_maximum. cbn [isnan flt].
    by destruct (Rltb x x). }
  rewrite !Hmax. cbn [mbind option_bind].
  assert (py_max (Fin 0) (Fin 0) = Fin 0) as ->.
  { unfold py_max, fgt. by destruct (flt _ _). }
  eexists _, _. split; [reflexivity|]. done.
Qed.

Lemma lr_two_phase_update_witness :
  ∃ st' d,
    lr_step unit_lmft codata zero_c2 walled_input 0 walled_state = Some (st', d)
    ∧ flt (lr_delta d) (Fin 1e-2)
      && flt (lr_tolerance_restr walled_input) (lr_delta_restr d) = true
    ∧ lr_delta_phi st' !! 0%nat
      = Some (fadd (fmul (fsub (Fin 1) (Fin 0.01)) (Fin 0))
                   (fmul (Fin 0.01) (fmul (fneg (Fin 1)) (Fin 1)))).
Proof.
  destruct walled_damped_step as (st' & d & Hstep & Hd & Hr & Hnew).
  exists st', d. split; [exact Hstep|].
  assert (flt (lr_delta d) (Fin 1e-2)
          && flt (lr_tolerance_restr walled_input) (lr_delta_restr d) = true)
    as Hdamped.
  { rewrite Hd, Hr. apply andb_true_iff. split.
    - apply (proj2 (Rltb_true 0 1e-2)). lra.
    - apply (proj2 (Rltb_true 1e-3 1)). lra. }
  split; [exact Hdamped|].
  pose proof (lr_two_phase_update unit_lmft codata zero_c2 walled_input 0
                walled_state st' d Hstep) as H.
  cbv zeta in H. destruct H as (_ & _ & _ & _ & _ & _ & H & _).
  destruct (H Hdamped) as [_ Hpoint].
  apply (Hpoint 0%nat (Fin 0) (fmul (fneg (Fin 1)) (Fin 1))).
  - reflexivity.
  - by rewrite Hnew.
Defined.

(** ** Abort on NaN *)

(** X1: in the single-species solver a NaN from the evaluator at a valid
    position makes [delta] NaN, and the loop returns the tuple of [None]s at
    once. *)
Lemma sr1_nan_correlation_aborts c1 inp n i st j m old :
  sr1_muloc inp !! j = Some m → isfinite m = true →
  c1 i (sr1_rho st) !! j = Some NaN →
  sr1_log_rho st !! j = Some old →
  sr1_loop c1 inp (S n) i st = Some Sentinel.
Proof.
  intros Hm Hfin Hc Hold. rewrite sr1_loop_unfold. cbv zeta.
  pose proof (target_log_lookup _ _ _ _ _ Hm Hc) as Ht. rewrite Hfin in Ht.
  assert (fadd m NaN = NaN) as Hnan by (by destruct m). rewrite Hnan in Ht.
  set (alpha := schedule_update (sr1_schedule inp) i (sr1_alpha st)).
  pose proof (mix_lookup alpha _ _ _ _ _ Hold Ht) as Hmix.
  assert (fadd (fmul (fsub (Fin 1) alpha) old) (fmul alpha NaN) = NaN) as Hn2.
  { assert (fmul alpha NaN = NaN) as -> by (by destruct alpha).
    by destruct (fmul _ old). }
  rewrite Hn2 in Hmix.
  assert (max_abs_diff (sr1_update c1 inp i st).2 (sr1_rho (sr1_update c1 inp i st).1)
          = Some NaN) as ->; [|done].
  apply np_max_nan. apply vabs_vsub_elem. exists j, NaN, NaN.
  unfold sr1_update. simpl. unfold vexp. rewrite !list_lookup_fmap.
  fold alpha. by rewrite Ht, Hmix.
Qed.

(** C8 fails in the two-species solver.  On one grid point, with an evaluator
    that returns zero for H and NaN for O, [delta_H] is 0 and [delta_O] is
    NaN; Python's [max(delta_H, delta_O)] keeps its first argument, so [delta]
    is 0, the NaN test passes, and the solver reports convergence in
    iteration 0 and returns the O density [NaN]. *)
Theorem sr2_returns_nan_density :
  nan_for_O_c1 0%nat (sr2_rho_H (sr2_init one_point_input2))
                 (sr2_rho_O (sr2_init one_point_input2))
  = ([Fin 0], [NaN])
  ∧ py_max (Fin 0) NaN = Fin 0
  ∧ minimise_SR_twotype nan_for_O_c1 one_point_input2
    = Some (Converged ([Fin 0], [Fin 1], [NaN])).
Proof.
  split; [done|]. split; [done|].
  assert (sr2_update nan_for_O_c1 one_point_input2 0 (sr2_init one_point_input2)
          = ({| sr2_alpha := sr2_alpha_initial_default;
                sr2_rho_H := [Fin 1]; sr2_rho_O := [NaN];
                sr2_log_rho_H := [Fin 0]; sr2_log_rho_O := [NaN] |},
             ([Fin 1], [NaN]))) as Hupd.
  { unfold sr2_update.
    assert (sr2_schedule one_point_input2 = alpha_updates_default_twotype) as ->
      by done.
    rewrite default_twotype_0.
    unfold nan_for_O_c1, one_point_input2, sr2_init, valid_mask,
      initial_log_rho, target_log, mix, vexp, vadd, vscale, ones_like.
    cbn [fmap list_fmap zip_with isfinite sr2_muloc_H sr2_muloc_O sr2_rho_H
         sr2_rho_O sr2_log_rho_H sr2_log_rho_O sr2_initial_guess
         sr2_alpha_initial sr2_zbins sr2_alpha].
    rewrite flog_1. simpl.
    replace ((1 + - (0.000001)) * 0 + 0.000001 * (0 + 0)) with 0 by lra.
    replace (0 + 0) with 0 by lra. rewrite exp_0. done. }
  unfold minimise_SR_twotype. rewrite sr2_loop_unfold, Hupd.
  cbn [fst snd sr2_rho_H sr2_rho_O].
  unfold joint_delta, max_abs_diff, vabs, vsub.
  cbn [fmap list_fmap zip_with np_max foldl mbind option_bind].
  rewrite fabs_zero_diff.
  assert (py_max (Fin 0) (fabs (fsub NaN NaN)) = Fin 0) as -> by done.
  cbn [isnan].
  assert (sr_converged (Fin 0) (fdiv (Fin 0) (py_max NaN (Fin 1)))
            (sr2_tolerance one_point_input2) = true) as ->; [|done].
  unfold sr_converged. apply orb_true_iff. left.
  apply (proj2 (Rltb_true 0 1e-5)). lra.
Qed.

(** *** The delta of an iteration is not its step size *)

Lemma sqrt2_as_exp : let s := exp (1 / 2 * ln 2) in s * s = 2 ∧ 1 < s < 2.
Proof.
  intros s. assert (s * s = 2) as Hss.
  { unfold s. rewrite <- exp_plus.
    replace (1 / 2 * ln 2 + 1 / 2 * ln 2) with (ln 2) by lra.
    apply exp_ln. lra. }
  assert (0 < s) as Hs by apply exp_pos.
  split; [done|]. nra.
Qed.

(** With target density 2, previous density 1 and coefficient 1/2 the mixed
    density is the square root of 2: the [delta] of the iteration is
    [2 - sqrt 2], not the distance [sqrt 2 - 1] between the new density and
    the previous iterate. *)
Lemma sr1_delta_is_not_the_step_size :
  let st := sr1_init ln2_input in
  let st' := (sr1_update zero_c1 ln2_input 0 st).1 in
  let rho_new := (sr1_update zero_c1 ln2_input 0 st).2 in
  max_abs_diff rho_new (sr1_rho st') ≠ max_abs_diff (sr1_rho st') (sr1_rho st).
Proof.
  cbv zeta. unfold sr1_update.
  assert (schedule_update (sr1_schedule ln2_input) 0
            (sr1_alpha (sr1_init ln2_input)) = Fin (1/2)) as -> by done.
  unfold zero_c1, ln2_input, sr1_init, valid_mask, initial_log_rho,
    target_log, mix, vexp, vadd, vscale, ones_like, max_abs_diff, vabs, vsub.
  cbn [fmap list_fmap zip_with isfinite sr1_muloc sr1_rho sr1_log_rho
       sr1_initial_guess sr1_alpha_initial sr1_zbins sr1_alpha fst snd
       np_max foldl].
  rewrite flog_1. simpl.
  replace ((1 + - (1 / 2)) * 0 + 1 / 2 * (ln 2 + 0)) with (1 / 2 * ln 2) by lra.
  replace (ln 2 + 0) with (ln 2) by lra. rewrite exp_ln by lra.
  destruct sqrt2_as_exp as [Hss Hs]. cbv zeta in Hss, Hs.
  set (s := exp (1 / 2 * ln 2)) in *.
  intros [= H]. revert H.
  rewrite (Rabs_pos_eq (2 + - s)) by lra.
  rewrite (Rabs_pos_eq (s + - (1 * 1))) by lra.
  intros H. nra.
Qed.

(** *** The field before the first update *)

(** The density handed to the evaluator in iteration 0 is the initial guess
    at every grid position, whatever the validity mask. *)
Lemma sr1_initial_density_ignores_mask inp j z :
  sr1_zbins inp !! j = Some z →
  sr1_rho (sr1_init inp) !! j = Some (fmul (sr1_initial_guess inp) (Fin 1)).
Proof.
  intros Hz. simpl. unfold vscale, ones_like.
  by rewrite !list_lookup_fmap, Hz.
Qed.

(* ===================================================================== *)
(** * Further properties of the solvers and utilities *)
(* ===================================================================== *)

(** ** What the NaN test sees *)

Lemma sr1_nan_correlation_aborts_witness :
  sr1_loop nan_c1 one_point_input 11 0 (sr1_init one_point_input)
  = Some Sentinel.
Proof.
  apply (sr1_nan_correlation_aborts nan_c1 one_point_input 10 0
           (sr1_init one_point_input) 0 (Fin 0) (flog (Fin 1)));
    reflexivity.
Defined.

Lemma py_max_nan a b : isnan (py_max a b) = isnan a.
Proof.
  unfold py_max, fgt. destruct (flt a b) eqn:H; [|done].
  by apply flt_true_not_nan in H as [-> ->].
Qed.

(** X2: the joint delta of the two-species solvers, Python's
    [max(delta_H, delta_O)], is NaN exactly when [delta_H] is: a NaN in
    [delta_O] alone is dropped and [delta_H] is tested in its place. *)
Theorem joint_delta_nan_iff_H (rho_H_new rho_H rho_O_new rho_O : list fl) delta :
  joint_delta rho_H_new rho_H rho_O_new rho_O = Some delta →
  ∃ delta_H delta_O,
    max_abs_diff rho_H_new rho_H = Some delta_H
    ∧ max_abs_diff rho_O_new rho_O = Some delta_O
    ∧ isnan delta = isnan delta_H
    ∧ (isnan delta_O = true → delta = delta_H).
Proof.
  unfold joint_delta. intros H.
  apply bind_Some in H as (dH & HH & H).
  apply bind_Some in H as (dO & HO & H). injection H as <-.
  exists dH, dO. repeat split; [done..|apply py_max_nan|].
  intros Hn. unfold py_max, fgt. destruct dO; try done. by rewrite flt_nan_r.
Qed.

Lemma joint_delta_nan_iff_H_witness :
  ∃ delta_H delta_O,
    max_abs_diff [Fin 1] [Fin 1] = Some delta_H
    ∧ max_abs_diff [NaN] [NaN] = Some delta_O
    ∧ isnan (py_max (fabs (fsub (Fin 1) (Fin 1))) (fabs (fsub NaN NaN)))
      = isnan delta_H
    ∧ (isnan delta_O = true →
       py_max (fabs (fsub (Fin 1) (Fin 1))) (fabs (fsub NaN NaN)) = delta_H).
Proof.
  apply (joint_delta_nan_iff_H [Fin 1] [Fin 1] [NaN] [NaN]). reflexivity.
Defined.

Lemma nan_target_makes_delta_nan alpha muloc c1 old j m o :
  muloc !! j = Some m → isfinite m = true →
  c1 !! j = Some NaN → old !! j = Some o →
  max_abs_diff (vexp (target_log (valid_mask muloc) muloc c1))
               (vexp (mix alpha old (target_log (valid_mask muloc) muloc c1)))
  = Some NaN.
Proof.
  intros Hm Hfin Hc Hold.
  pose proof (target_log_lookup _ _ _ _ _ Hm Hc) as Ht. rewrite Hfin in Ht.
  assert (fadd m NaN = NaN) as Hnan by (by destruct m). rewrite Hnan in Ht.
  pose proof (mix_lookup alpha _ _ _ _ _ Hold Ht) as Hmix.
  assert (fadd (fmul (fsub (Fin 1) alpha) o) (fmul alpha NaN) = NaN) as Hn2.
  { assert (fmul alpha NaN = NaN) as -> by (by destruct alpha).
    by destruct (fmul _ o). }
  rewrite Hn2 in Hmix.
  apply np_max_nan. apply vabs_vsub_elem. exists j, NaN, NaN.
  unfold vexp. rewrite !list_lookup_fmap. by rewrite Ht, Hmix.
Qed.

Lemma max_abs_diff_lookup_is_Some (a b : list fl) j x y :
  a !! j = Some x → b !! j = Some y → is_Some (max_abs_diff a b).
Proof.
  intros Hx Hy. apply np_max_is_Some. intros Hnil.
  pose proof (vabs_vsub_lookup _ _ _ _ _ Hx Hy) as H. by rewrite Hnil in H.
Qed.

(** X3: in the two-species solver a NaN from the evaluator at a valid
    position of species H makes the joint delta NaN, and the loop returns the
    tuple of [None]s in that iteration. *)
Theorem sr2_nan_in_H_aborts c1 inp n i st j m o j' m' c' o' :
  sr2_muloc_H inp !! j = Some m → isfinite m = true →
  (c1 i (sr2_rho_H st) (sr2_rho_O st)).1 !! j = Some NaN →
  sr2_log_rho_H st !! j = Some o →
  sr2_muloc_O inp !! j' = Some m' →
  (c1 i (sr2_rho_H st) (sr2_rho_O st)).2 !! j' = Some c' →
  sr2_log_rho_O st !! j' = Some o' →
  sr2_loop c1 inp (S n) i st = Some Sentinel.
Proof.
  intros Hm Hfin Hc Ho Hm' Hc' Ho'.
  rewrite sr2_loop_unfold, sr2_update_eq. cbv zeta.
  cbn [fst snd sr2_rho_H sr2_rho_O]. unfold joint_delta.
  rewrite (nan_target_makes_delta_nan _ _ _ _ _ _ _ Hm Hfin Hc Ho).
  pose proof (target_log_lookup _ _ _ _ _ Hm' Hc') as Ht'.
  pose proof (mix_lookup (schedule_update (sr2_schedule inp) i (sr2_alpha st))
                _ _ _ _ _ Ho' Ht') as Hmix'.
  set (alpha := schedule_update (sr2_schedule inp) i (sr2_alpha st)) in *.
  set (new_O := target_log (valid_mask (sr2_muloc_O inp)) (sr2_muloc_O inp)
                  (c1 i (sr2_rho_H st) (sr2_rho_O st)).2) in *.
  assert (is_Some (max_abs_diff (vexp new_O)
                     (vexp (mix alpha (sr2_log_rho_O st) new_O)))) as [dO HdO].
  { eapply (max_abs_diff_lookup_is_Some _ _ j'); unfold vexp;
      rewrite list_lookup_fmap; [by rewrite Ht' | by rewrite Hmix']. }
  rewrite HdO. done.
Qed.

Lemma sr2_nan_in_H_aborts_witness :
  sr2_loop nan_for_H_c1 one_point_input2 11 0 (sr2_init one_point_input2)
  = Some Sentinel.
Proof.
  apply (sr2_nan_in_H_aborts nan_for_H_c1 one_point_input2 10 0
           (sr2_init one_point_input2) 0 (Fin 0) (flog (Fin 1))
           0 (Fin 0) (Fin 0) (flog (Fin 1)));
    reflexivity.
Defined.

(** ** What a returned field is *)

Lemma flt_trans a b c : flt a b = true → flt b c = true → flt a c = true.
Proof.
  destruct a, b, c; simpl; try done. rewrite !Rltb_true. lra.
Qed.

Lemma flt_le_lt_trans x d t :
  isnan x = false → flt d x = false → flt d t = true → flt x t = true.
Proof.
  destruct x, d, t; simpl; try done.
  rewrite Rltb_false, !Rltb_true. lra.
Qed.

Lemma flt_PInf_false d : isnan d = false → flt d PInf = false → d = PInf.
Proof. by destruct d. Qed.

Lemma fabs_fsub_not_nan x y :
  isnan (fabs (fsub x y)) = false → isnan x = false ∧ isnan y = false.
Proof. by destruct x, y. Qed.

Lemma fabs_fsub_PInf x :
  isnan (fabs (fsub x PInf)) = false → fabs (fsub x PInf) = PInf.
Proof. by destruct x. Qed.

Lemma fexp_cases a : finite_nonneg (fexp a) ∨ fexp a = PInf ∨ fexp a = NaN.
Proof.
  destruct a as [x| | |]; simpl; auto.
  - left. exists (exp x). split; [done|]. left. apply exp_pos.
  - left. exists 0. split; [done|lra].
Qed.

Lemma mix_lookup_inv alpha (old new : list fl) j v :
  mix alpha old new !! j = Some v →
  ∃ o n, old !! j = Some o ∧ new !! j = Some n.
Proof.
  unfold mix, vadd, vscale. rewrite lookup_zip_with, !list_lookup_fmap.
  destruct (old !! j) as [o|]; [|done]. destruct (new !! j) as [n|]; [|done].
  eauto.
Qed.

(** Where the mixed density has an entry, so has the target density. *)
Lemma mixed_within_target alpha (old new : list fl) j y :
  vexp (mix alpha old new) !! j = Some y → is_Some (vexp new !! j).
Proof.
  unfold vexp. rewrite !list_lookup_fmap. intros H.
  destruct (mix alpha old new !! j) as [v|] eqn:Hv; [|done].
  apply mix_lookup_inv in Hv as (o & n & _ & ->). by eexists.
Qed.

(** A delta that is not NaN leaves no NaN in the mixed density, and is
    infinite if the mixed density is infinite somewhere. *)
Lemma residual_excludes_nan alpha (old new : list fl) delta j y :
  max_abs_diff (vexp new) (vexp (mix alpha old new)) = Some delta →
  isnan delta = false →
  vexp (mix alpha old new) !! j = Some y →
  isnan y = false ∧ (y = PInf → delta = PInf).
Proof.
  intros Hd Hnan Hy. destruct (mixed_within_target _ _ _ _ _ Hy) as [x Hx].
  pose proof (max_abs_diff_spec _ _ _ Hd) as Hspec. rewrite Hnan in Hspec.
  destruct Hspec as [_ Hmax]. destruct (Hmax _ _ _ Hx Hy) as [Hxy Hle].
  split; [by apply fabs_fsub_not_nan in Hxy as [_ ?]|].
  intros ->. rewrite (fabs_fsub_PInf _ Hxy) in Hle.
  by apply flt_PInf_false.
Qed.

Lemma np_max_with_PInf l top :
  np_max l = Some top → PInf ∈ l → top = PInf ∨ top = NaN.
Proof.
  intros Hmax Hin. destruct (isnan top) eqn:Hn; [right; by destruct top|].
  left. destruct (np_max_not_nan _ _ Hmax Hn) as [_ H].
  destruct (H _ Hin) as [_ Hle]. by apply flt_PInf_false.
Qed.

Lemma finite_nonneg_of_vexp l j y :
  vexp l !! j = Some y → isnan y = false → y ≠ PInf → finite_nonneg y.
Proof.
  unfold vexp. rewrite list_lookup_fmap.
  destruct (l !! j) as [a|]; [|done]. intros [= <-] Hn Hp.
  destruct (fexp_cases a) as [?|[?|Ha]]; [done..|]. by rewrite Ha in Hn.
Qed.

(** *** The single-species solver *)

(** What holds in the iteration that returns. *)
Lemma sr1_loop_converged_inv c1 inp n i st z rho :
  sr1_loop c1 inp n i st = Some (Converged (z, rho)) →
  ∃ k st_k delta top,
    let st' := (sr1_update c1 inp k st_k).1 in
    let rho_new := (sr1_update c1 inp k st_k).2 in
    (i ≤ k < i + n)%nat
    ∧ z = sr1_zbins inp ∧ rho = sr1_rho st'
    ∧ max_abs_diff rho_new rho = Some delta
    ∧ isnan delta = false
    ∧ np_max rho = Some top
    ∧ sr_converged delta (fdiv delta top) (sr1_tolerance inp) = true.
Proof.
  revert i st. induction n as [|n IH]; intros i st; [done|].
  rewrite sr1_loop_unfold. cbv zeta. intros H.
  apply bind_Some in H as (delta & Hdelta & H).
  destruct (isnan delta) eqn:Hnan; [done|].
  apply bind_Some in H as (top & Htop & H).
  destruct (sr_converged _ _ _) eqn:Hconv.
  - injection H as <- <-. exists i, st, delta, top. cbv zeta.
    repeat split; try done; lia.
  - apply IH in H as (k & st_k & d & t & Hk & Hrest).
    exists k, st_k, d, t. cbv zeta in *. split; [lia|done].
Qed.

(** X4: whatever the evaluator returns, a density field returned by the
    single-species solver holds only finite, non-negative numbers, no NaN
    and no infinity, and comes with the grid that was passed in. *)
Theorem sr1_returned_field_is_finite c1 inp z rho :
  minimise_SR_onetype c1 inp = Some (Converged (z, rho)) →
  z = sr1_zbins inp ∧ Forall finite_nonneg rho.
Proof.
  unfold minimise_SR_onetype. destruct (sr1_zbins inp) eqn:Hz; [done|].
  rewrite <- Hz. intros H.
  apply sr1_loop_converged_inv in H
    as (k & st & delta & top & _ & -> & -> & Hdelta & Hnan & Htop & Hconv).
  split; [done|]. apply Forall_lookup. intros j y Hy.
  unfold sr1_update in *. cbn [fst snd sr1_rho] in *.
  destruct (residual_excludes_nan _ _ _ _ _ _ Hdelta Hnan Hy) as [Hny Hinf].
  apply (finite_nonneg_of_vexp _ _ _ Hy Hny). intros ->.
  rewrite (Hinf eq_refl) in Hconv.
  assert (top = PInf ∨ top = NaN) as [-> | ->].
  { apply (np_max_with_PInf _ _ Htop). apply list_elem_of_lookup. eauto. }
  all: unfold sr_converged in Hconv; by destruct (sr1_tolerance inp).
Qed.

Lemma sr1_update_zero :
  sr1_update zero_c1 one_point_input 0 (sr1_init one_point_input)
  = ({| sr1_alpha := sr1_alpha_initial_default; sr1_rho := [Fin 1];
        sr1_log_rho := [Fin 0] |}, [Fin 1]).
Proof.
  unfold sr1_update.
  assert (sr1_schedule one_point_input = alpha_updates_default_onetype) as ->
    by done.
  rewrite default_onetype_0.
  unfold zero_c1, one_point_input, sr1_init, valid_mask, initial_log_rho,
    target_log, mix, vexp, vadd, vscale, ones_like.
  cbn [fmap list_fmap zip_with isfinite sr1_muloc sr1_rho sr1_log_rho
       sr1_initial_guess sr1_alpha_initial sr1_zbins sr1_alpha].
  rewrite flog_1. unfold sr1_alpha_initial_default. simpl.
  replace ((1 + - (1e-6)) * 0 + 1e-6 * (0 + 0)) with 0 by lra.
  replace (0 + 0) with 0 by lra. by rewrite exp_0.
Qed.

(** With zero correlation, zero chemical potential and initial guess 1 the
    first iterate is already the fixed point. *)
Lemma one_point_zero_run :
  minimise_SR_onetype zero_c1 one_point_input
  = Some (Converged ([Fin 0], [Fin 1])).
Proof.
  unfold minimise_SR_onetype. cbn [sr1_zbins one_point_input].
  change (sr1_maxiter _) with 10%nat.
  rewrite sr1_loop_unfold, sr1_update_zero.
  cbn [fst snd sr1_rho]. unfold max_abs_diff, vabs, vsub.
  cbn [fmap list_fmap zip_with np_max foldl mbind option_bind].
  rewrite fabs_zero_diff. cbn [isnan].
  assert (sr_converged (Fin 0) (fdiv (Fin 0) (Fin 1))
            (sr1_tolerance one_point_input) = true) as ->; [|done].
  unfold sr_converged. apply orb_true_iff. left.
  apply (proj2 (Rltb_true 0 5e-6)). lra.
Qed.

Lemma sr1_returned_field_is_finite_witness :
  [Fin 0] = sr1_zbins one_point_input ∧ Forall finite_nonneg [Fin 1].
Proof.
  exact (sr1_returned_field_is_finite zero_c1 one_point_input [Fin 0] [Fin 1]
           one_point_zero_run).
Defined.

(** *** The two-species solvers *)

Lemma sr2_loop_converged_inv c1 inp n i st z rho_H rho_O :
  sr2_loop c1 inp n i st = Some (Converged (z, rho_H, rho_O)) →
  ∃ k st_k delta top_O top_H,
    let st' := (sr2_update c1 inp k st_k).1 in
    let rho_H_new := (sr2_update c1 inp k st_k).2.1 in
    let rho_O_new := (sr2_update c1 inp k st_k).2.2 in
    (i ≤ k < i + n)%nat
    ∧ z = sr2_zbins inp ∧ rho_H = sr2_rho_H st' ∧ rho_O = sr2_rho_O st'
    ∧ joint_delta rho_H_new rho_H rho_O_new rho_O = Some delta
    ∧ isnan delta = false
    ∧ np_max rho_O = Some top_O ∧ np_max rho_H = Some top_H
    ∧ sr_converged delta (fdiv delta (py_max top_O top_H)) (sr2_tolerance inp)
      = true.
Proof.
  revert i st. induction n as [|n IH]; intros i st; [done|].
  rewrite sr2_loop_unfold. cbv zeta. intros H.
  apply bind_Some in H as (delta & Hdelta & H).
  destruct (isnan delta) eqn:Hnan; [done|].
  apply bind_Some in H as (top_O & HtO & H).
  apply bind_Some in H as (top_H & HtH & H).
  destruct (sr_converged _ _ _) eqn:Hconv.
  - injection H as <- <- <-. exists i, st, delta, top_O, top_H. cbv zeta.
    repeat split; try done; lia.
  - apply IH in H as (k & st_k & d & tO & tH & Hk & Hrest).
    exists k, st_k, d, tO, tH. cbv zeta in *. split; [lia|done].
Qed.

Lemma py_max_PInf_l b : py_max PInf b = PInf.
Proof. unfold py_max, fgt. by destruct b. Qed.

Lemma fdiv_PInf_py_max top_O :
  fdiv PInf (py_max top_O PInf) = NaN.
Proof. unfold py_max, fgt. by destruct top_O. Qed.

(** X5: whatever the evaluator returns, the H density returned by the
    two-species solver holds only finite, non-negative numbers; the O
    density is not tested as strictly and need not. *)
Theorem sr2_returned_H_field_is_finite c1 inp z rho_H rho_O :
  minimise_SR_twotype c1 inp = Some (Converged (z, rho_H, rho_O)) →
  z = sr2_zbins inp ∧ Forall finite_nonneg rho_H.
Proof.
  unfold minimise_SR_twotype. intros H.
  apply sr2_loop_converged_inv in H
    as (k & st & delta & top_O & top_H & _ & -> & -> & -> & Hdelta & Hnan
        & HtO & HtH & Hconv).
  split; [done|]. apply Forall_lookup. intros j y Hy.
  rewrite sr2_update_eq in *. cbv zeta in *.
  cbn [fst snd sr2_rho_H sr2_rho_O] in *.
  apply bind_Some in Hdelta as (dH & HdH & Hdelta).
  apply bind_Some in Hdelta as (dO & HdO & Hdelta). injection Hdelta as <-.
  rewrite py_max_nan in Hnan.
  destruct (residual_excludes_nan _ _ _ _ _ _ HdH Hnan Hy) as [Hny Hinf].
  apply (finite_nonneg_of_vexp _ _ _ Hy Hny). intros ->.
  rewrite (Hinf eq_refl), py_max_PInf_l in Hconv.
  assert (top_H = PInf) as ->.
  { destruct (np_max_with_PInf _ _ HtH) as [?| ->]; [|done|].
    - apply list_elem_of_lookup. eauto.
    - apply np_max_nan_inv, list_elem_of_lookup in HtH as [j' Hj'].
      by destruct (residual_excludes_nan _ _ _ _ _ _ HdH Hnan Hj'). }
  rewrite fdiv_PInf_py_max in Hconv.
  unfold sr_converged in Hconv. by destruct (sr2_tolerance inp).
Qed.

Lemma sr2_update_zero :
  sr2_update zero_c2 one_point_input2 0 (sr2_init one_point_input2)
  = ({| sr2_alpha := sr2_alpha_initial_default;
        sr2_rho_H := [Fin 1]; sr2_rho_O := [Fin 1];
        sr2_log_rho_H := [Fin 0]; sr2_log_rho_O := [Fin 0] |},
     ([Fin 1], [Fin 1])).
Proof.
  unfold sr2_update.
  assert (sr2_schedule one_point_input2 = alpha_updates_default_twotype) as ->
    by done.
  rewrite default_twotype_0.
  unfold zero_c2, one_point_input2, sr2_init, valid_mask,
    initial_log_rho, target_log, mix, vexp, vadd, vscale, ones_like.
  cbn [fmap list_fmap zip_with isfinite sr2_muloc_H sr2_muloc_O sr2_rho_H
       sr2_rho_O sr2_log_rho_H sr2_log_rho_O sr2_initial_guess
       sr2_alpha_initial sr2_zbins sr2_alpha].
  rewrite flog_1. simpl.
  replace ((1 + - (0.000001)) * 0 + 0.000001 * (0 + 0)) with 0 by lra.
  replace (0 + 0) with 0 by lra. rewrite exp_0. done.
Qed.

Lemma one_point_zero_run2 :
  minimise_SR_twotype zero_c2 one_point_input2
  = Some (Converged ([Fin 0], [Fin 1], [Fin 1])).
Proof.
  unfold minimise_SR_twotype. rewrite sr2_loop_unfold, sr2_update_zero.
  cbn [fst snd sr2_rho_H sr2_rho_O].
  unfold joint_delta, max_abs_diff, vabs, vsub.
  cbn [fmap list_fmap zip_with np_max foldl mbind option_bind].
  rewrite fabs_zero_diff.
  assert (py_max (Fin 0) (Fin 0) = Fin 0) as ->.
  { unfold py_max, fgt. by destruct (flt _ _). }
  cbn [isnan].
  assert (sr_converged (Fin 0) (fdiv (Fin 0) (py_max (Fin 1) (Fin 1)))
            (sr2_tolerance one_point_input2) = true) as ->; [|done].
  unfold sr_converged. apply orb_true_iff. left.
  apply (proj2 (Rltb_true 0 1e-5)). lra.
Qed.

Lemma sr2_returned_H_field_is_finite_witness :
  [Fin 0] = sr2_zbins one_point_input2 ∧ Forall finite_nonneg [Fin 1].
Proof.
  exact (sr2_returned_H_field_is_finite zero_c2 one_point_input2
           [Fin 0] [Fin 1] [Fin 1] one_point_zero_run2).
Defined.

Lemma py_max_below a b t :
  flt (py_max a b) t = true → isnan a = false → flt a t = true.
Proof.
  unfold py_max, fgt. destruct (flt a b) eqn:Hab; [|done].
  intros Hbt _. by eapply flt_trans.
Qed.

Lemma residuals_below (a b : list fl) delta t j x y :
  max_abs_diff a b = Some delta → flt delta t = true →
  a !! j = Some x → b !! j = Some y →
  flt (fabs (fsub x y)) t = true.
Proof.
  intros Hd Ht Hx Hy. pose proof (max_abs_diff_spec _ _ _ Hd) as Hspec.
  destruct (flt_true_not_nan _ _ Ht) as [Hnan _]. rewrite Hnan in Hspec.
  destruct Hspec as [_ Hmax]. destruct (Hmax _ _ _ Hx Hy) as [Hn Hle].
  by eapply flt_le_lt_trans.
Qed.

(** X6: a field returned by the long-range solver comes from an iteration in
    which, at every grid point, the H target density and the H density differ
    by less than [tolerance] and the target potential and the previous
    potential differ by less than [tolerance_restr]; the H density holds only
    finite, non-negative numbers. *)
Theorem lr_returned_field_residuals lmft const c1 inp z rho_H rho_O :
  minimise_LR_twotype lmft const c1 inp = Some (Converged (z, rho_H, rho_O)) →
  z = lr_zbins inp
  ∧ Forall finite_nonneg rho_H
  ∧ ∃ k st st' d,
      lr_step lmft const c1 inp k st = Some (st', d)
      ∧ rho_H = lr_rho_H st' ∧ rho_O = lr_rho_O st'
      ∧ (∀ j t r,
           lr_rho_H_new d !! j = Some t → rho_H !! j = Some r →
           flt (fabs (fsub t r)) (lr_tolerance inp) = true)
      ∧ (∀ j p q,
           lr_delta_phi_new d !! j = Some p → lr_delta_phi st !! j = Some q →
           flt (fabs (fsub p q)) (lr_tolerance_restr inp) = true).
Proof.
  unfold minimise_LR_twotype. intros H.
  apply bind_Some in H as (st0 & _ & H).
  apply lr_loop_converged in H
    as (k & st & st' & d & _ & _ & Hstep & Hconv & -> & -> & ->).
  apply andb_true_iff in Hconv as [Hd Hr].
  pose proof (lr_step_inv _ _ _ _ _ _ _ _ Hstep) as (_ & Hjoint & Hrestr & _).
  pose proof (lr_step_density _ _ _ _ _ _ _ _ Hstep)
    as (HlH & _ & HrH & _ & HnH & _).
  cbv zeta in HlH, HnH.
  apply bind_Some in Hjoint as (dH & HdH & Hjoint).
  apply bind_Some in Hjoint as (dO & HdO & Hjoint). injection Hjoint as Hjoint.
  rewrite <- Hjoint in Hd.
  destruct (flt_true_not_nan _ _ Hd) as [Hnan _]. rewrite py_max_nan in Hnan.
  pose proof (py_max_below _ _ _ Hd Hnan) as HdHt.
  split; [done|]. split.
  - apply Forall_lookup. intros j y Hy.
    rewrite HnH, HrH, HlH in HdH. rewrite HrH, HlH in Hy.
    destruct (residual_excludes_nan _ _ _ _ _ _ HdH Hnan Hy) as [Hny Hinf].
    apply (finite_nonneg_of_vexp _ _ _ Hy Hny). intros ->.
    rewrite (Hinf eq_refl) in HdHt. by destruct (lr_tolerance inp).
  - exists k, st, st', d. split_and!; [done..| |].
    + intros j t r Ht Hr'. exact (residuals_below _ _ _ _ _ _ _ HdH HdHt Ht Hr').
    + intros j p q Hp Hq. exact (residuals_below _ _ _ _ _ _ _ Hrestr Hr Hp Hq).
Qed.

Lemma lr_loop_unfold lmft const c1 inp n i st :
  lr_loop lmft const c1 inp (S n) i st
  = ('(st', d) ← lr_step lmft const c1 inp i st;
     if isnan (lr_delta d) then Some Sentinel
     else
       let st'' := lr_plot_branch lmft inp i st' in
       if lr_converged inp d
       then Some (Converged (lr_zbins inp, lr_rho_H st'', lr_rho_O st''))
       else lr_loop lmft const c1 inp n (S i) st'').
Proof. reflexivity. Qed.

Lemma np_max_zeros : np_max [Fin 0; Fin 0] = Some (Fin 0).
Proof.
  cbn [np_max foldl]. unfold np_maximum. cbn [isnan flt].
  by destruct (Rltb 0 0).
Qed.

Lemma walled_run :
  minimise_LR_twotype flat_lmft codata zero_c2 walled_input
  = Some (Converged ([Fin 0; Fin 1], [Fin 0; Fin 0], [Fin 0; Fin 0])).
Proof.
  unfold minimise_LR_twotype.
  assert (lr_init flat_lmft walled_input = Some
    {| lr_alpha := lr_alpha_initial_default;
       lr_alpha_restr := lr_alpha_restr_initial;
       lr_rho_H := vscale lr_initial_guess_default [Fin 1; Fin 1];
       lr_rho_O := vscale lr_initial_guess_default [Fin 1; Fin 1];
       lr_log_rho_H := [NInf; NInf]; lr_log_rho_O := [NInf; NInf];
       lr_delta_phi := [Fin 0; Fin 0];
       lr_kbins := [Fin 0; Fin 0] |}) as -> by done.
  cbn [mbind option_bind]. rewrite lr_loop_unfold.
  unfold lr_step.
  assert (lr_schedule walled_input = alpha_updates_default_twotype) as ->
    by done.
  rewrite default_twotype_0.
  assert (∀ a, schedule_update (lr_schedule_restr walled_input) 0 a = a) as ->
    by done.
  unfold zero_c2, lr_correlation, lr_mu_H_correction, lr_mu_O_correction,
    target_log, valid_mask, mix, vexp, vadd, vsub, vscale, ones_like.
  cbn [fmap list_fmap zip_with isfinite walled_input lr_muloc_H lr_muloc_O
       lr_zbins lr_rho_H lr_rho_O lr_log_rho_H lr_log_rho_O lr_delta_phi
       lr_alpha lr_alpha_restr lr_kbins].
  rewrite (unit_open_mix_NInf lr_alpha_initial_default).
  2:{ exists 0.000001. split; [done|lra]. }
  cbn [fexp].
  assert (∀ rH rO kb, lr_target_potential flat_lmft walled_input rH rO kb
            = (kb, [fmul (fneg (Fin 0)) (Fin 1); fmul (fneg (Fin 0)) (Fin 1)]))
    as -> by done.
  unfold joint_delta, max_abs_diff, vabs, vsub.
  cbn [fmap list_fmap zip_with]. rewrite !fabs_zero_diff, np_max_zeros.
  cbn [mbind option_bind].
  assert (py_max (Fin 0) (Fin 0) = Fin 0) as ->.
  { unfold py_max, fgt. by destruct (flt _ _). }
  assert (fabs (fsub (fmul (fneg (Fin 0)) (Fin 1)) (Fin 0)) = Fin 0) as ->.
  { cbn [fneg fmul fsub fadd fabs]. f_equal.
    replace (- 0 * 1 + - 0) with 0 by lra. apply Rabs_R0. }
  rewrite np_max_zeros. cbn [mbind option_bind lr_delta isnan].
  unfold lr_converged, lr_plot_branch.
  cbn [lr_delta lr_delta_restr lr_tolerance lr_tolerance_restr lr_plot
       walled_input andb lr_rho_H lr_rho_O lr_zbins].
  assert (flt (Fin 0) lr_tolerance_default = true) as ->.
  { apply (proj2 (Rltb_true 0 1e-5)). lra. }
  assert (flt (Fin 0) lr_tolerance_restr_default = true) as ->.
  { apply (proj2 (Rltb_true 0 1e-3)). lra. }
  done.
Qed.

Lemma lr_returned_field_residuals_witness :
  [Fin 0; Fin 1] = lr_zbins walled_input
  ∧ Forall finite_nonneg [Fin 0; Fin 0]
  ∧ ∃ k st st' d,
      lr_step flat_lmft codata zero_c2 walled_input k st = Some (st', d)
      ∧ [Fin 0; Fin 0] = lr_rho_H st' ∧ [Fin 0; Fin 0] = lr_rho_O st'
      ∧ (∀ j t r,
           lr_rho_H_new d !! j = Some t → [Fin 0; Fin 0] !! j = Some r →
           flt (fabs (fsub t r)) (lr_tolerance walled_input) = true)
      ∧ (∀ j p q,
           lr_delta_phi_new d !! j = Some p → lr_delta_phi st !! j = Some q →
           flt (fabs (fsub p q)) (lr_tolerance_restr walled_input) = true).
Proof.
  exact (lr_returned_field_residuals flat_lmft codata zero_c2 walled_input
           [Fin 0; Fin 1] [Fin 0; Fin 0] [Fin 0; Fin 0] walled_run).
Defined.

(** ** A NaN in the restructuring potential *)

(** X7: the long-range loop tests only the density delta for NaN.  When the
    potential residual [delta_restr] of an iteration is NaN, the iteration
    does not abort on that account: the target potential replaces the
    potential outright, without relaxation, and the convergence test fails. *)
Theorem lr_nan_potential_is_adopted lmft const c1 inp i st st' d :
  lr_step lmft const c1 inp i st = Some (st', d) →
  isnan (lr_delta_restr d) = true →
  lr_delta_phi st' = lr_delta_phi_new d ∧ lr_converged inp d = false.
Proof.
  intros Hstep Hnan.
  pose proof (lr_step_inv _ _ _ _ _ _ _ _ Hstep) as (_ & _ & _ & Hphi).
  assert (lr_delta_restr d = NaN) as Hr by (by destruct (lr_delta_restr d)).
  split.
  - rewrite Hphi, Hr. unfold restr_update, fgt.
    by rewrite flt_nan_r, andb_false_r.
  - unfold lr_converged. by rewrite Hr, flt_nan_l, andb_false_r.
Qed.

Lemma lr_nan_potential_is_adopted_witness :
  ∃ st' d,
    lr_step nan_lmft codata zero_c2 two_point_input 0 two_point_state
    = Some (st', d)
    ∧ lr_delta_phi st' = lr_delta_phi_new d
    ∧ lr_converged two_point_input d = false.
Proof.
  assert (∃ st' d,
            lr_step nan_lmft codata zero_c2 two_point_input 0 two_point_state
            = Some (st', d)
            ∧ isnan (lr_delta_restr d) = true) as (st' & d & Hstep & Hnan)
    by (eexists _, _; split; reflexivity).
  exists st', d. split; [exact Hstep|].
  exact (lr_nan_potential_is_adopted nan_lmft codata zero_c2 two_point_input 0
           two_point_state st' d Hstep Hnan).
Defined.

(** ** The chemical-potential correction *)

Lemma fmul_fabs_square q : fmul (fabs q) (fabs q) = fmul q q.
Proof.
  destruct q; try done. simpl. f_equal.
  rewrite <- Rabs_mult. apply Rabs_pos_eq. nra.
Qed.

(** X8: in exact arithmetic, for finite constants, smearing length and
    temperature that make no denominator zero, and a finite charge of
    absolute value at most [1e150] (so that its square does not overflow),
    [mu_correction] returns the same finite number for the charge and for its
    absolute value: the [np.abs] at its two call sites does not change the
    value. *)
Theorem mu_correction_abs_redundant (e eps kB q kappa temp : R) :
  eps ≠ 0 → kB ≠ 0 → kappa ≠ 0 → temp ≠ 0 → Rabs q <= 1e150 →
  let const :=
    {| elementary_charge := Fin e; epsilon_0 := Fin eps; Boltzmann := Fin kB |}
  in
  mu_correction const (fabs (Fin q)) (Fin kappa) (Fin temp)
  = mu_correction const (Fin q) (Fin kappa) (Fin temp)
  ∧ isfinite (mu_correction const (Fin q) (Fin kappa) (Fin temp)) = true.
Proof.
  intros Heps HkB Hkappa Htemp _. cbv zeta. split.
  - unfold mu_correction. by rewrite fmul_fabs_square.
  - by rewrite mu_correction_value.
Qed.

Lemma mu_correction_abs_redundant_witness :
  mu_correction codata (fabs (Fin (-1))) (Fin 4) (Fin 300)
  = mu_correction codata (Fin (-1)) (Fin 4) (Fin 300)
  ∧ isfinite (mu_correction codata (Fin (-1)) (Fin 4) (Fin 300)) = true.
Proof.
  apply (mu_correction_abs_redundant 1.602176634e-19 8.8541878128e-12
           1.380649e-23 (-1) 4 300); try lra.
  rewrite Rabs_left by lra. lra.
Defined.

Lemma fmul_fneg_square q : fmul (fneg q) (fneg q) = fmul q q.
Proof. destruct q; try done. simpl. f_equal. lra. Qed.

(** X9: when the two species carry opposite charges, the long-range solver
    subtracts the same correction array from both correlation profiles. *)
Theorem lr_opposite_charges_equal_corrections const inp :
  lr_q_O inp = fneg (lr_q_H inp) →
  lr_mu_O_correction const inp = lr_mu_H_correction const inp.
Proof.
  intros Hq. unfold lr_mu_O_correction, lr_mu_H_correction. f_equal.
  unfold mu_correction. by rewrite Hq, !fmul_fabs_square, fmul_fneg_square.
Qed.

Lemma lr_opposite_charges_equal_corrections_witness :
  lr_mu_O_correction codata two_point_input
  = lr_mu_H_correction codata two_point_input.
Proof.
  apply (lr_opposite_charges_equal_corrections codata two_point_input).
  reflexivity.
Defined.

(** X10: for positive physical constants, a positive smearing length and a
    positive temperature the correction is a finite number that is never
    positive, and it is zero only for a zero charge. *)
Theorem mu_correction_nonpositive (e eps kB q kappa temp : R) :
  0 < e → 0 < eps → 0 < kB → 0 < kappa → 0 < temp →
  ∃ m, mu_correction
         {| elementary_charge := Fin e; epsilon_0 := Fin eps;
            Boltzmann := Fin kB |}
         (Fin q) (Fin kappa) (Fin temp) = Fin m
       ∧ m <= 0 ∧ (m = 0 ↔ q = 0).
Proof.
  intros He Heps HkB Hkappa Htemp. unfold mu_correction, const_pi, sqrt_pi.
  cbn [elementary_charge epsilon_0 Boltzmann fmul fneg].
  pose proof PI_RGT_0 as Hpi. pose proof (sqrt_lt_R0 PI Hpi) as Hsq.
  assert (0 < 4 * PI * eps * 1e-10) as H1.
  { apply Rmult_lt_0_compat; [|lra].
    apply Rmult_lt_0_compat; [lra|done]. }
  assert (0 < kB * temp) as H2 by (by apply Rmult_lt_0_compat).
  assert (0 < kappa * sqrt PI) as H3 by (by apply Rmult_lt_0_compat).
  rewrite !fdiv_fin by lra. cbn [fmul]. eexists. split; [done|].
  set (p := e * e / (4 * PI * eps * 1e-10)).
  set (b := 1 / (kB * temp)).
  assert (0 < p) as Hp.
  { unfold p. apply Rdiv_lt_0_compat; [|done]. by apply Rmult_lt_0_compat. }
  assert (0 < b) as Hb by (unfold b; apply Rdiv_lt_0_compat; lra).
  assert (0 < / (kappa * sqrt PI)) as Hk by (by apply Rinv_0_lt_compat).
  set (k := / (kappa * sqrt PI)) in *.
  assert (0 < p * k * b) as Hpkb.
  { apply Rmult_lt_0_compat; [|done]. by apply Rmult_lt_0_compat. }
  replace (p * (- (q * q) / (kappa * sqrt PI)) * b)
    with (- (q * q) * (p * k * b)) by (unfold Rdiv; fold k; ring).
  assert (0 <= q * q) as Hqq by nra.
  split; [nra|]. split.
  - intros H0. apply Rmult_integral in H0 as [H0|H0]; [nra|lra].
  - intros ->. ring.
Qed.

Lemma mu_correction_nonpositive_witness :
  ∃ m, mu_correction
         {| elementary_charge := Fin 1.602176634e-19;
            epsilon_0 := Fin 8.8541878128e-12;
            Boltzmann := Fin 1.380649e-23 |}
         (Fin (-1)) (Fin 4) (Fin 300) = Fin m
       ∧ m <= 0 ∧ (m = 0 ↔ -1 = 0).
Proof.
  apply (mu_correction_nonpositive 1.602176634e-19 8.8541878128e-12
           1.380649e-23 (-1) 4 300); lra.
Defined.

(** ** The potential of the solver and the standalone helper *)

Lemma fmul_fneg_l x p : fmul (fneg x) p = fneg (fmul x p).
Proof.
  destruct x as [x| | |], p as [p| | |]; try done; simpl.
  - f_equal. ring.
  - unfold inf_times.
    destruct (Req_dec_T x 0) as [->|Hx].
    + rewrite Ropp_0. by rewrite (proj2 (Reqb_true 0 0) eq_refl).
    + rewrite (proj2 (Reqb_false x 0) Hx).
      rewrite (proj2 (Reqb_false (- x) 0)) by lra.
      destruct (Rlt_dec 0 x) as [Hpos|Hneg].
      * rewrite (proj2 (Rltb_true 0 x) Hpos).
        by rewrite (proj2 (Rltb_false 0 (- x))) by lra.
      * rewrite (proj2 (Rltb_false 0 x) Hneg).
        by rewrite (proj2 (Rltb_true 0 (- x))) by lra.
  - unfold inf_times.
    destruct (Req_dec_T x 0) as [->|Hx].
    + rewrite Ropp_0. by rewrite (proj2 (Reqb_true 0 0) eq_refl).
    + rewrite (proj2 (Reqb_false x 0) Hx).
      rewrite (proj2 (Reqb_false (- x) 0)) by lra.
      destruct (Rlt_dec 0 x) as [Hpos|Hneg].
      * rewrite (proj2 (Rltb_true 0 x) Hpos).
        by rewrite (proj2 (Rltb_false 0 (- x))) by lra.
      * rewrite (proj2 (Rltb_false 0 x) Hneg).
        by rewrite (proj2 (Rltb_true 0 (- x))) by lra.
  - unfold inf_times. by rbool.
  - unfold inf_times. by rbool.
Qed.

(** X11: fed the charge density of the solver and freshly computed wave
    numbers, the standalone [update_electrostatic_potential] returns the
    target potential of the solver with the opposite sign at every grid
    point: the solver negates the restructured potential, the helper does
    not. *)
Theorem standalone_potential_has_opposite_sign lmft inp rho_H rho_O dz :
  snd (lr_target_potential lmft inp rho_H rho_O
         (compute_wave_numbers lmft (length (lr_zbins inp)) dz))
  = vneg (update_electrostatic_potential lmft
            (lr_charge_density rho_H rho_O (lr_q_H inp) (lr_q_O inp))
            (lr_zbins inp) dz (lr_kappa_inv inp)
            (calculate_prefactor lmft (lr_temp inp) (lr_dielectric inp))).
Proof.
  unfold lr_target_potential, update_electrostatic_potential.
  destruct (fourier_transform _ _ _ _) as [kb nk]. cbn [snd].
  unfold vmuls, vneg. rewrite <- !list_fmap_compose.
  apply list_fmap_ext. intros _ x _. apply fmul_fneg_l.
Qed.

(** ** Plotting *)

Lemma lr_step_with_plot lmft const c1 inp b i st :
  lr_step lmft const c1 (lr_with_plot inp b) i st
  = lr_step lmft const c1 inp i st.
Proof. reflexivity. Qed.

Lemma lr_plot_branch_id lmft inp i st :
  (∀ z n k, fst (fourier_transform lmft z n k) = k) →
  lr_plot_branch lmft inp i st = st.
Proof.
  intros Hk. unfold lr_plot_branch. destruct (_ && _); [|done].
  unfold lr_target_potential. destruct (fourier_transform _ _ _ _) eqn:Hft.
  cbn [fst]. pose proof (Hk (lr_zbins inp)
    (lr_charge_density (lr_rho_H st) (lr_rho_O st) (lr_q_H inp) (lr_q_O inp))
    (lr_kbins st)) as Hk'.
  rewrite Hft in Hk'. cbn [fst] in Hk'. rewrite Hk'. by destruct st.
Qed.

(** X12: the plotting branch of the long-range loop transforms the charge
    density once more and so reassigns the wave numbers.  When [plot_every]
    is not zero and the Fourier transform hands the wave numbers back
    unchanged, the plotting flag has no effect on what the solver returns. *)
Theorem lr_plot_flag_is_inert lmft const c1 inp b :
  lr_plot_every inp ≠ 0%nat →
  (∀ z n k, fst (fourier_transform lmft z n k) = k) →
  minimise_LR_twotype lmft const c1 (lr_with_plot inp b)
  = minimise_LR_twotype lmft const c1 inp.
Proof.
  intros _ Hk. unfold minimise_LR_twotype.
  change (lr_init lmft (lr_with_plot inp b)) with (lr_init lmft inp).
  destruct (lr_init lmft inp) as [st|]; [|done]. cbn [mbind option_bind].
  change (lr_maxiter (lr_with_plot inp b)) with (lr_maxiter inp).
  generalize (S (lr_maxiter inp)) 0%nat st. clear st.
  intros n. induction n as [|n IH]; intros i st; [done|].
  rewrite !lr_loop_unfold, lr_step_with_plot.
  destruct (lr_step lmft const c1 inp i st) as [[st' d]|]; [|done].
  cbn [mbind option_bind]. cbv zeta. rewrite !lr_plot_branch_id by done.
  destruct (isnan _); [done|].
  change (lr_converged (lr_with_plot inp b) d) with (lr_converged inp d).
  destruct (lr_converged inp d); [done|]. apply IH.
Qed.

Lemma lr_plot_flag_is_inert_witness :
  minimise_LR_twotype flat_lmft codata zero_c2 (lr_with_plot walled_input true)
  = Some (Converged ([Fin 0; Fin 1], [Fin 0; Fin 0], [Fin 0; Fin 0])).
Proof.
  rewrite (lr_plot_flag_is_inert flat_lmft codata zero_c2 walled_input true).
  - exact walled_run.
  - done.
  - reflexivity.
Defined.

(** ** A relaxation coefficient outside the open unit interval *)

Lemma mix_NInf_not_unit alpha :
  ¬ unit_open alpha →
  fadd (fmul (fsub (Fin 1) alpha) NInf) (fmul alpha NInf) = NaN.
Proof.
  intros Hno. destruct alpha as [a| | |]; try done. simpl. unfold inf_times.
  destruct (Req_dec_T a 0) as [->|Ha0].
  { rewrite (proj2 (Reqb_true 0 0) eq_refl).
    match goal with |- fadd ?x NaN = NaN => by destruct x end. }
  rewrite (proj2 (Reqb_false a 0) Ha0).
  destruct (Req_dec_T (1 + - a) 0) as [Ha1|Ha1].
  { by rewrite (proj2 (Reqb_true _ _) Ha1). }
  rewrite (proj2 (Reqb_false _ _) Ha1).
  destruct (Rlt_dec 0 a) as [Hpos|Hneg].
  - rewrite (proj2 (Rltb_true 0 a) Hpos).
    assert (¬ 0 < 1 + - a) as Hge.
    { intros Hlt. apply Hno. exists a. split; [done|lra]. }
    by rewrite (proj2 (Rltb_false _ _) Hge).
  - rewrite (proj2 (Rltb_false 0 a) Hneg).
    by rewrite (proj2 (Rltb_true 0 (1 + - a))) by lra.
Qed.

(** X13: when the relaxation coefficient of the first iteration is not
    strictly between 0 and 1 and some grid position lies inside the wall
    (non-finite local chemical potential), the mix of the two minus
    infinities at that position is NaN and the single-species solver returns
    the tuple of [None]s in iteration 0, whatever the evaluator returns. *)
Theorem sr1_bad_alpha_at_wall_aborts c1 inp j m x :
  sr1_zbins inp ≠ [] →
  ¬ unit_open (schedule_update (sr1_schedule inp) 0 (sr1_alpha_initial inp)) →
  sr1_muloc inp !! j = Some m → isfinite m = false →
  c1 0%nat (sr1_rho (sr1_init inp)) !! j = Some x →
  minimise_SR_onetype c1 inp = Some Sentinel.
Proof.
  intros Hz Halpha Hm Hfin Hc. unfold minimise_SR_onetype.
  destruct (sr1_zbins inp) eqn:Hzb; [done|]. rewrite sr1_loop_unfold. cbv zeta.
  pose proof (target_log_lookup _ _ _ _ _ Hm Hc) as Ht. rewrite Hfin in Ht.
  assert (sr1_log_rho (sr1_init inp) !! j = Some NInf) as Hold.
  { simpl. unfold initial_log_rho, valid_mask.
    by rewrite !list_lookup_fmap, Hm; simpl; rewrite Hfin. }
  set (alpha := schedule_update (sr1_schedule inp) 0
                  (sr1_alpha (sr1_init inp))).
  pose proof (mix_lookup alpha _ _ _ _ _ Hold Ht) as Hmix.
  rewrite (mix_NInf_not_unit alpha Halpha) in Hmix.
  assert (max_abs_diff (sr1_update c1 inp 0 (sr1_init inp)).2
            (sr1_rho (sr1_update c1 inp 0 (sr1_init inp)).1)
          = Some NaN) as ->; [|done].
  apply np_max_nan. apply vabs_vsub_elem. exists j, (Fin 0), NaN.
  unfold sr1_update. cbn [fst snd sr1_rho]. unfold vexp.
  rewrite !list_lookup_fmap. fold alpha. by rewrite Ht, Hmix.
Qed.

Lemma sr1_bad_alpha_at_wall_aborts_witness :
  minimise_SR_onetype zero_c1 wall_point_input = Some Sentinel.
Proof.
  apply (sr1_bad_alpha_at_wall_aborts zero_c1 wall_point_input 0 PInf (Fin 0)).
  - done.
  - intros (a & Ha & Hlt). change (Fin 1 = Fin a) in Ha.
    injection Ha as Ha. lra.
  - reflexivity.
  - reflexivity.
  - reflexivity.
Defined.

(** ** What the solver reads of the evaluator *)

Lemma target_log_agree (muloc c c' : list fl) :
  length c = length c' →
  (∀ j m, muloc !! j = Some m → isfinite m = true → c !! j = c' !! j) →
  target_log (valid_mask muloc) muloc c = target_log (valid_mask muloc) muloc c'.
Proof.
  intros Hlen Hagree. unfold target_log, valid_mask, vadd.
  apply list_eq. intros j. rewrite !lookup_zip_with, list_lookup_fmap.
  destruct (muloc !! j) as [m|] eqn:Hm; [|done]. simpl.
  destruct (isfinite m) eqn:Hfin.
  - by rewrite (Hagree j m Hm Hfin).
  - destruct (c !! j) as [x|] eqn:Hx, (c' !! j) as [y|] eqn:Hy; try done.
    + apply lookup_lt_Some in Hx. apply lookup_ge_None in Hy. lia.
    + apply lookup_lt_Some in Hy. apply lookup_ge_None in Hx. lia.
Qed.

Lemma sr1_loop_agree inp c1 c1' n i st :
  agree_where_valid inp c1 c1' → (i + n ≤ S (sr1_maxiter inp))%nat →
  sr1_loop c1 inp n i st = sr1_loop c1' inp n i st.
Proof.
  intros Hagree. revert i st. induction n as [|n IH]; intros i st Hi; [done|].
  rewrite !sr1_loop_unfold.
  assert (sr1_update c1 inp i st = sr1_update c1' inp i st) as ->.
  { unfold sr1_update.
    destruct (Hagree i (sr1_rho st)) as [Hlen Hval]; [lia|].
    by rewrite (target_log_agree _ _ _ Hlen Hval). }
  cbv zeta. destruct (max_abs_diff _ _) as [delta|]; [|done].
  cbn [mbind option_bind]. destruct (isnan delta); [done|].
  destruct (np_max _) as [top|]; [|done]. cbn [mbind option_bind].
  destruct (sr_converged _ _ _); [done|]. apply IH. lia.
Qed.

(** X14: the single-species solver reads the evaluator only at the valid
    grid positions and only in iterations 0 to [maxiter]: two evaluators that
    agree there give the same result, be it a field, the tuple of [None]s or
    an exception. *)
Theorem sr1_reads_evaluator_where_valid inp c1 c1' :
  agree_where_valid inp c1 c1' →
  minimise_SR_onetype c1 inp = minimise_SR_onetype c1' inp.
Proof.
  intros Hagree. unfold minimise_SR_onetype.
  destruct (sr1_zbins inp); [done|]. by apply sr1_loop_agree.
Qed.

Lemma sr1_reads_evaluator_where_valid_witness :
  minimise_SR_onetype zero_c1 damped_wall_point_input
  = minimise_SR_onetype nan_c1 damped_wall_point_input.
Proof.
  apply (sr1_reads_evaluator_where_valid damped_wall_point_input zero_c1 nan_c1).
  intros i rho _. split.
  - unfold zero_c1, nan_c1. by rewrite !length_fmap.
  - intros [|j] m Hm Hfin; simpl in Hm; [|done].
    injection Hm as <-. done.
Defined.

(** ** Two species treated alike *)

Lemma sr2_update_symmetric c1 inp i st :
  symmetric_evaluator c1 → sr2_muloc_H inp = sr2_muloc_O inp →
  sr2_rho_H st = sr2_rho_O st → sr2_log_rho_H st = sr2_log_rho_O st →
  let st' := (sr2_update c1 inp i st).1 in
  sr2_rho_H st' = sr2_rho_O st' ∧ sr2_log_rho_H st' = sr2_log_rho_O st'.
Proof.
  intros Hsym Hmu Hrho Hlog. cbv zeta. unfold sr2_update.
  pose proof (Hsym i (sr2_rho_O st)) as Hc. rewrite Hrho.
  destruct (c1 i (sr2_rho_O st) (sr2_rho_O st)) as [cH cO].
  cbn [fst snd] in Hc. subst cO.
  cbn [fst sr2_rho_H sr2_rho_O sr2_log_rho_H sr2_log_rho_O].
  by rewrite Hmu, Hlog.
Qed.

Lemma sr2_loop_symmetric c1 inp n i st z rho_H rho_O :
  symmetric_evaluator c1 → sr2_muloc_H inp = sr2_muloc_O inp →
  sr2_rho_H st = sr2_rho_O st → sr2_log_rho_H st = sr2_log_rho_O st →
  sr2_loop c1 inp n i st = Some (Converged (z, rho_H, rho_O)) →
  rho_H = rho_O.
Proof.
  intros Hsym Hmu. revert i st.
  induction n as [|n IH]; intros i st Hrho Hlog; [done|].
  rewrite sr2_loop_unfold. cbv zeta.
  destruct (sr2_update_symmetric c1 inp i st Hsym Hmu Hrho Hlog)
    as [Hrho' Hlog'].
  intros H. apply bind_Some in H as (delta & _ & H).
  destruct (isnan delta); [done|].
  apply bind_Some in H as (top_O & _ & H).
  apply bind_Some in H as (top_H & _ & H).
  destruct (sr_converged _ _ _).
  - injection H as _ <- <-. done.
  - by eapply IH.
Qed.

(** X15: when the two species have the same local chemical potential and the
    evaluator returns the same correlation profile for both whenever their
    densities coincide, every field the two-species solver returns has
    identical H and O densities. *)
Theorem sr2_symmetric_species_stay_equal c1 inp z rho_H rho_O :
  symmetric_evaluator c1 → sr2_muloc_H inp = sr2_muloc_O inp →
  minimise_SR_twotype c1 inp = Some (Converged (z, rho_H, rho_O)) →
  rho_H = rho_O.
Proof.
  intros Hsym Hmu. unfold minimise_SR_twotype.
  apply sr2_loop_symmetric; [done..| |]; simpl; [done|by rewrite Hmu].
Qed.

Lemma sr2_symmetric_species_stay_equal_witness : [Fin 1] = [Fin 1].
Proof.
  exact (sr2_symmetric_species_stay_equal zero_c2 one_point_input2
           [Fin 0] [Fin 1] [Fin 1] (λ _ _, eq_refl) eq_refl
           one_point_zero_run2).
Defined.

(** ** Grids too short *)

(** X16: on an empty grid the two-species solver raises: the first
    [np.max] of the loop is taken over an empty array. *)
Theorem sr2_empty_grid_raises c1 inp :
  sr2_zbins inp = [] → sr2_muloc_H inp = [] →
  minimise_SR_twotype c1 inp = None.
Proof.
  intros Hz Hm. unfold minimise_SR_twotype. rewrite sr2_loop_unfold. cbv zeta.
  unfold sr2_update. destruct (c1 _ _ _) as [cH cO]. cbn [fst snd sr2_rho_H].
  by rewrite Hm.
Qed.

Lemma sr2_empty_grid_raises_witness :
  minimise_SR_twotype zero_c2 empty_grid_input2 = None.
Proof.
  apply (sr2_empty_grid_raises zero_c2 empty_grid_input2); reflexivity.
Defined.

(** X17: the long-range solver reads [zbins[1]] before the loop, so it
    raises on every grid of fewer than two points, whatever the utilities,
    the constants and the evaluator; the short-range solvers accept a grid of
    one point. *)
Theorem lr_short_grid_raises lmft const c1 inp :
  (length (lr_zbins inp) < 2)%nat →
  minimise_LR_twotype lmft const c1 inp = None.
Proof.
  intros Hlen. unfold minimise_LR_twotype, lr_init.
  destruct (lr_zbins inp) as [|z0 [|z1 zs]]; [done..|]. simpl in Hlen. lia.
Qed.

Lemma lr_short_grid_raises_witness :
  minimise_LR_twotype flat_lmft codata zero_c2 single_point_lr_input = None.
Proof.
  apply (lr_short_grid_raises flat_lmft codata zero_c2 single_point_lr_input).
  simpl. lia.
Defined.

(** ** The default schedules *)

Lemma fle_refl_l a b : fle a b → fle a a.
Proof. intros (x & y & -> & _ & _). exists x, x. repeat split. lra. Qed.

Lemma fle_refl_r a b : fle a b → fle b b.
Proof. intros (x & y & _ & -> & _). exists y, y. repeat split. lra. Qed.

Lemma fle_trans a b c : fle a b → fle b c → fle a c.
Proof.
  intros (x & y & -> & -> & Hxy) (y' & z & [= <-] & -> & Hyz).
  exists x, z. repeat split. lra.
Qed.

Lemma nondecreasing_from_bound k0 a0 l k a :
  nondecreasing_from k0 a0 l → (k, a) ∈ l → (k0 < k)%Z ∧ fle a0 a.
Proof.
  revert k0 a0. induction l as [|[k1 a1] l IH]; intros k0 a0.
  - by intros _ ?%elem_of_nil.
  - intros (Hk & Ha & Hl) [[= -> ->]|Hin]%elem_of_cons; [done|].
    destruct (IH _ _ Hl Hin) as [Hk' Ha']. split; [lia|by eapply fle_trans].
Qed.

Lemma nondecreasing_from_pairwise k0 a0 l k a k' a' :
  nondecreasing_from k0 a0 l →
  (k, a) ∈ l → (k', a') ∈ l → (k < k')%Z → fle a a'.
Proof.
  revert k0 a0. induction l as [|[k1 a1] l IH]; intros k0 a0.
  - by intros _ ?%elem_of_nil.
  - intros (Hk & Ha & Hl) [[= -> ->]|Hin]%elem_of_cons
      [[= -> ->]|Hin']%elem_of_cons Hlt.
    + lia.
    + by destruct (nondecreasing_from_bound _ _ _ _ _ Hl Hin').
    + destruct (nondecreasing_from_bound _ _ _ _ _ Hl Hin). lia.
    + by eapply IH.
Qed.

Lemma active_alpha_below_later (l : list (Z * fl)) a0 i :
  fle a0 a0 → nondecreasing_from (-1) a0 l →
  fle a0 (active_alpha (list_to_map l) a0 i)
  ∧ ∀ k a, (k, a) ∈ l → (Z.of_nat i < k)%Z →
      fle (active_alpha (list_to_map l) a0 i) a.
Proof.
  intros Ha0 Hl. induction i as [|i [IH0 IH]]; simpl; unfold schedule_update.
  - destruct (list_to_map l !! Z.of_nat 0) as [v|] eqn:Hv.
    + apply elem_of_list_to_map_2 in Hv. split.
      * by destruct (nondecreasing_from_bound _ _ _ _ _ Hl Hv).
      * intros k a Hin Hlt. by eapply nondecreasing_from_pairwise.
    + split; [done|]. intros k a Hin _.
      by destruct (nondecreasing_from_bound _ _ _ _ _ Hl Hin).
  - destruct (list_to_map l !! Z.of_nat (S i)) as [v|] eqn:Hv.
    + apply elem_of_list_to_map_2 in Hv. split.
      * by destruct (nondecreasing_from_bound _ _ _ _ _ Hl Hv).
      * intros k a Hin Hlt. by eapply nondecreasing_from_pairwise.
    + split; [done|]. intros k a Hin Hlt. apply (IH k a); [done|lia].
Qed.

Lemma active_alpha_nondecreasing (l : list (Z * fl)) a0 i :
  fle a0 a0 → nondecreasing_from (-1) a0 l →
  fle (active_alpha (list_to_map l) a0 i)
      (active_alpha (list_to_map l) a0 (S i)).
Proof.
  intros Ha0 Hl.
  destruct (active_alpha_below_later l a0 i Ha0 Hl) as [H0 Hlater].
  simpl. unfold schedule_update.
  destruct (list_to_map l !! Z.of_nat (S i)) as [v|] eqn:Hv.
  - apply elem_of_list_to_map_2 in Hv. apply (Hlater _ _ Hv). lia.
  - by eapply fle_refl_r.
Qed.

Ltac table_nondecreasing :=
  apply active_alpha_nondecreasing;
  [ eexists _, _; split; [reflexivity|split; [reflexivity|lra]]
  | simpl;
    repeat (split; [lia|];
            split; [eexists _, _; split; [reflexivity|split; [reflexivity|lra]]|]);
    exact I ].

(** X18: under each of the three default schedules, started from the default
    initial coefficient of its solver, the relaxation coefficient in force
    never decreases from one iteration to the next. *)
Theorem default_schedules_never_decrease i :
  fle (active_alpha alpha_updates_default_onetype sr1_alpha_initial_default i)
      (active_alpha alpha_updates_default_onetype sr1_alpha_initial_default (S i))
  ∧ fle (active_alpha alpha_updates_default_twotype sr2_alpha_initial_default i)
        (active_alpha alpha_updates_default_twotype sr2_alpha_initial_default (S i))
  ∧ fle (active_alpha alpha_restr_updates_default lr_alpha_restr_initial i)
        (active_alpha alpha_restr_updates_default lr_alpha_restr_initial (S i)).
Proof.
  split; [|split].
  - unfold alpha_updates_default_onetype. table_nondecreasing.
  - unfold alpha_updates_default_twotype. table_nondecreasing.
  - unfold alpha_restr_updates_default. table_nondecreasing.
Qed.

(** ** The background-corrected charge density *)

(** X19: in exact arithmetic, for finite densities on a grid of finite
    positions and a domain length [L] that is not zero, the field returned by
    [calculate_charge_density] integrates, under the trapezoidal sum over the
    grid, to [charge * N * (1 - extent / L)], where [N] is the trapezoidal
    integral of the density and [extent] is last grid point minus first. *)
Theorem charge_density_residual_charge (r z : list R) (q l : R) :
  length r = length z → l ≠ 0 →
  trapz (calculate_charge_density (Fin <$> r) (Fin q) (Fin l) (Fin <$> z))
        (Fin <$> z)
  = Fin (q * trapzR r z * (1 - extentR z / l)).
Proof.
  intros Hlen Hl.
  rewrite calculate_charge_density_fin, trapz_fin, trapzR_affine by done.
  f_equal. field. done.
Qed.

Lemma charge_density_residual_charge_witness :
  trapz (calculate_charge_density (Fin <$> [1; 3; 2]) (Fin (-1)) (Fin 4)
                                  (Fin <$> [0; 1; 2]))
        (Fin <$> [0; 1; 2])
  = Fin (-1 * trapzR [1; 3; 2] [0; 1; 2] * (1 - extentR [0; 1; 2] / 4)).
Proof.
  apply (charge_density_residual_charge [1; 3; 2] [0; 1; 2] (-1) 4).
  - reflexivity.
  - lra.
Defined.

Lemma fdiv_zero_not_finite t : not_finite (fdiv t (Fin 0)).
Proof.
  unfold not_finite. destruct t as [x| | |]; simpl; try done.
  - rewrite (proj2 (Reqb_true 0 0) eq_refl).
    by destruct (Reqb x 0), (Rltb 0 x).
  - by destruct (Rltb 0 0).
  - by destruct (Rltb 0 0).
Qed.

Lemma fsub_not_finite a b : not_finite b → not_finite (fsub a b).
Proof. unfold not_finite. by destruct a, b. Qed.

(** X20: with a domain length of zero and a density of the grid's length,
    no entry of the field that [calculate_charge_density] returns is a finite
    number, whatever the density values and the charge: the background is an
    infinity or NaN. *)
Theorem charge_density_zero_length (rho_new : list fl) (charge : fl)
    (zbins : list fl) :
  length rho_new = length zbins →
  Forall not_finite (calculate_charge_density rho_new charge (Fin 0) zbins).
Proof.
  intros _. unfold calculate_charge_density. apply Forall_fmap, Forall_forall.
  intros r _. simpl. apply fsub_not_finite, fdiv_zero_not_finite.
Qed.

Lemma charge_density_zero_length_witness :
  Forall not_finite
    (calculate_charge_density [Fin 1; Fin 3] (Fin 1) (Fin 0) [Fin 0; Fin 1]).
Proof.
  apply (charge_density_zero_length [Fin 1; Fin 3] (Fin 1) [Fin 0; Fin 1]).
  reflexivity.
Defined.

(** ** A tolerance that is not positive *)

Lemma fnonneg_not_below a t :
  fnonneg a → flt (Fin 0) t = false → flt a t = false.
Proof.
  intros [->|(x & -> & Hx)] Ht; [by destruct t|].
  destruct t as [t| | |]; try done. simpl in *.
  apply Rltb_false in Ht. apply Rltb_false. lra.
Qed.

Lemma fabs_nonneg a : isnan (fabs a) = false → fnonneg (fabs a).
Proof.
  destruct a as [x| | |]; simpl; try done; [|by left..].
  intros _. right. exists (Rabs x). split; [done|apply Rabs_pos].
Qed.

Lemma fexp_nonneg a : isnan (fexp a) = false → fnonneg (fexp a).
Proof.
  destruct a as [x| | |]; simpl; try done; intros _.
  - right. exists (exp x). split; [done|]. left. apply exp_pos.
  - by left.
  - right. exists 0. split; [done|lra].
Qed.

Lemma max_abs_diff_nonneg (a b : list fl) delta :
  max_abs_diff a b = Some delta → isnan delta = false → fnonneg delta.
Proof.
  intros Hd Hnan. pose proof (max_abs_diff_spec _ _ _ Hd) as Hspec.
  rewrite Hnan in Hspec. destruct Hspec as [(j & x & y & _ & _ & ->) _].
  by apply fabs_nonneg.
Qed.

Lemma np_max_vexp_nonneg l top :
  np_max (vexp l) = Some top → isnan top = false → fnonneg top.
Proof.
  intros Hmax Hnan. destruct (np_max_not_nan _ _ Hmax Hnan) as [Hin _].
  unfold vexp in Hin. apply list_elem_of_fmap in Hin as (a & -> & _).
  by apply fexp_nonneg.
Qed.

Lemma fdiv_nonneg a b :
  fnonneg a → fnonneg b →
  isnan (fdiv a b) = true ∨ fnonneg (fdiv a b).
Proof.
  intros [->|(x & -> & Hx)] [->|(y & -> & Hy)]; simpl.
  - by left.
  - right. left. by rewrite (proj2 (Rltb_false y 0)) by lra.
  - right. right. exists 0. split; [done|lra].
  - destruct (Req_dec_T y 0) as [->|Hy0].
    + rewrite (proj2 (Reqb_true 0 0) eq_refl).
      destruct (Reqb x 0) eqn:Hx0; [by left|]. apply Reqb_false in Hx0.
      right. left. rewrite (proj2 (Rltb_true 0 x)); [done|].
      destruct Hx as [Hlt|Heq]; [done|]. by symmetry in Heq.
    + rewrite (proj2 (Reqb_false y 0) Hy0). right. right.
      exists (x / y). split; [done|].
      assert (0 < y) as Hpos.
      { destruct Hy as [?|Heq]; [done|]. by symmetry in Heq. }
      unfold Rdiv. apply Rmult_le_pos; [done|].
      left. by apply Rinv_0_lt_compat.
Qed.

(** X21: the single-species solver never returns a field when the tolerance
    is not positive (zero, negative, minus infinity or NaN): the delta and
    the relative error it tests are never negative. *)
Theorem sr1_needs_positive_tolerance c1 inp f :
  flt (Fin 0) (sr1_tolerance inp) = false →
  minimise_SR_onetype c1 inp ≠ Some (Converged f).
Proof.
  intros Htol H. destruct f as [z rho]. unfold minimise_SR_onetype in H.
  destruct (sr1_zbins inp); [done|].
  apply sr1_loop_converged_inv
    in H as (k & st & delta & top & _ & _ & Hrho & Hd & Hnan & Htop & Hconv).
  cbv zeta in *.
  pose proof (max_abs_diff_nonneg _ _ _ Hd Hnan) as Hdelta.
  unfold sr_converged in Hconv.
  rewrite (fnonneg_not_below _ _ Hdelta Htol) in Hconv. simpl in Hconv.
  destruct (isnan top) eqn:Hntop.
  { destruct top; try done. by destruct delta. }
  assert (fnonneg top) as Hnn.
  { rewrite Hrho in Htop. unfold sr1_update in Htop. cbn [fst sr1_rho] in Htop.
    by eapply np_max_vexp_nonneg. }
  destruct (fdiv_nonneg _ _ Hdelta Hnn) as [Hn|Hn].
  - destruct (fdiv delta top); try done.
  - by rewrite (fnonneg_not_below _ _ Hn Htol) in Hconv.
Qed.

Lemma sr1_needs_positive_tolerance_witness :
  minimise_SR_onetype zero_c1 zero_tolerance_input
  ≠ Some (Converged ([Fin 0], [Fin 1])).
Proof.
  apply (sr1_needs_positive_tolerance zero_c1 zero_tolerance_input
           ([Fin 0], [Fin 1])).
  apply (proj2 (Rltb_false 0 0)). lra.
Defined.

(** ** Fixed points *)

Lemma mix_fixed alpha (l : list fl) :
  unit_open alpha → Forall log_value l → mix alpha l l = l.
Proof.
  intros Ha Hl. unfold mix, vadd, vscale.
  induction Hl as [|x l Hx _ IH]; [done|]. cbn [fmap list_fmap zip_with].
  f_equal; [|exact IH].
  destruct Hx as [Hfin| ->]; [|by apply unit_open_mix_NInf].
  destruct x as [x| | |]; try done. destruct Ha as (a & -> & _).
  simpl. f_equal. ring.
Qed.

Lemma vexp_log_value_finite (l : list fl) :
  Forall log_value l → all_finite (vexp l).
Proof.
  intros Hl. unfold all_finite, vexp. apply Forall_fmap.
  eapply Forall_impl; [exact Hl|]. intros x [Hfin| ->]; [|done].
  by destruct x.
Qed.

Lemma foldl_np_maximum_zeros (l : list fl) :
  Forall (λ x, x = Fin 0) l → foldl np_maximum (Fin 0) l = Fin 0.
Proof.
  induction 1 as [|x l -> _ IH]; [done|]. simpl.
  assert (np_maximum (Fin 0) (Fin 0) = Fin 0) as ->; [|done].
  unfold np_maximum. simpl. by destruct (Rltb 0 0).
Qed.

Lemma max_abs_diff_self (l : list fl) :
  l ≠ [] → all_finite l → max_abs_diff l l = Some (Fin 0).
Proof.
  intros Hne Hfin. unfold max_abs_diff.
  assert (Forall (λ x, x = Fin 0) (vabs (vsub l l))) as Hz.
  { unfold vabs, vsub. apply Forall_fmap. clear Hne.
    induction Hfin as [|x l Hx _ IH]; [done|]. cbn [zip_with].
    constructor; [|exact IH]. destruct x as [x| | |]; try done.
    apply fabs_zero_diff. }
  destruct (vabs (vsub l l)) as [|d ds] eqn:Hd.
  - destruct l; [done|]. done.
  - apply Forall_cons in Hz as [-> Hz]. simpl. f_equal.
    by apply foldl_np_maximum_zeros.
Qed.

(** X22: in exact arithmetic the single-species loop accepts a fixed point in
    the iteration that meets it.  When the target log-density equals the current log-density,
    whose entries are finite or minus infinity, the relaxation coefficient
    lies strictly between 0 and 1 and the tolerance is positive, the mixed
    density equals the target, [delta] is exactly zero and the loop returns
    the grid with the exponential of the current log-density. *)
Theorem sr1_fixed_point_is_accepted c1 inp n i st :
  unit_open (schedule_update (sr1_schedule inp) i (sr1_alpha st)) →
  sr1_log_rho st ≠ [] → Forall log_value (sr1_log_rho st) →
  target_log (valid_mask (sr1_muloc inp)) (sr1_muloc inp) (c1 i (sr1_rho st))
  = sr1_log_rho st →
  flt (Fin 0) (sr1_tolerance inp) = true →
  sr1_loop c1 inp (S n) i st
  = Some (Converged (sr1_zbins inp, vexp (sr1_log_rho st))).
Proof.
  intros Halpha Hne Hval Hfix Htol. rewrite sr1_loop_unfold. cbv zeta.
  unfold sr1_update. cbn [fst snd sr1_rho]. rewrite Hfix.
  rewrite (mix_fixed _ _ Halpha Hval).
  assert (vexp (sr1_log_rho st) ≠ []) as Hne'.
  { unfold vexp. by destruct (sr1_log_rho st). }
  rewrite (max_abs_diff_self _ Hne' (vexp_log_value_finite _ Hval)).
  cbn [mbind option_bind isnan].
  destruct (np_max_is_Some _ Hne') as [top ->]. cbn [mbind option_bind].
  unfold sr_converged. by rewrite Htol.
Qed.

Lemma sr1_fixed_point_is_accepted_witness :
  sr1_loop zero_c1 one_point_input 11 0 (sr1_init one_point_input)
  = Some (Converged (sr1_zbins one_point_input,
                     vexp (sr1_log_rho (sr1_init one_point_input)))).
Proof.
  apply (sr1_fixed_point_is_accepted zero_c1 one_point_input 10 0
           (sr1_init one_point_input)).
  - exists 1e-6. split; [reflexivity|lra].
  - done.
  - constructor; [|constructor]. left.
    change (isfinite (flog (Fin 1)) = true). by rewrite flog_1.
  - unfold target_log, valid_mask, vadd, zero_c1, one_point_input, sr1_init,
      initial_log_rho, vscale, ones_like.
    cbn [fmap list_fmap zip_with isfinite sr1_muloc sr1_rho sr1_zbins
         sr1_initial_guess sr1_log_rho fadd].
    rewrite flog_1. cbn [fmap list_fmap isfinite].
    apply (f_equal (λ x, [Fin x])). lra.
  - apply (proj2 (Rltb_true 0 5e-6)). lra.
Defined.

(** ** A schedule entry for iteration 0 *)

Lemma sr1_update_with_alpha_initial c1 inp a0 i st :
  sr1_update c1 (sr1_with_alpha_initial inp a0) i st = sr1_update c1 inp i st.
Proof. reflexivity. Qed.

Lemma sr1_loop_with_alpha_initial c1 inp a0 n i st :
  sr1_loop c1 (sr1_with_alpha_initial inp a0) n i st = sr1_loop c1 inp n i st.
Proof.
  revert i st. induction n as [|n IH]; intros i st; [done|].
  rewrite !sr1_loop_unfold, sr1_update_with_alpha_initial. cbv zeta.
  destruct (max_abs_diff _ _) as [delta|]; [|done]. cbn [mbind option_bind].
  destruct (isnan delta); [done|].
  destruct (np_max _) as [top|]; [|done]. cbn [mbind option_bind].
  change (sr1_tolerance (sr1_with_alpha_initial inp a0))
    with (sr1_tolerance inp).
  destruct (sr_converged _ _ _); [done|]. apply IH.
Qed.

(** X23: the schedule is consulted before the first update, so an entry for
    iteration 0 replaces [alpha_initial] before it is ever used: the result
    of the single-species solver then does not depend on [alpha_initial]. *)
Theorem sr1_key_zero_overrides_alpha_initial c1 inp a a0 :
  sr1_schedule inp !! 0%Z = Some a →
  minimise_SR_onetype c1 (sr1_with_alpha_initial inp a0)
  = minimise_SR_onetype c1 inp.
Proof.
  intros Hkey. unfold minimise_SR_onetype.
  change (sr1_zbins (sr1_with_alpha_initial inp a0)) with (sr1_zbins inp).
  destruct (sr1_zbins inp); [done|].
  change (sr1_maxiter (sr1_with_alpha_initial inp a0)) with (sr1_maxiter inp).
  rewrite sr1_loop_with_alpha_initial, !sr1_loop_unfold.
  assert (sr1_update c1 inp 0 (sr1_init (sr1_with_alpha_initial inp a0))
          = sr1_update c1 inp 0 (sr1_init inp)) as ->; [|done].
  unfold sr1_update, schedule_update. change (Z.of_nat 0) with 0%Z.
  by rewrite Hkey.
Qed.

Lemma sr1_key_zero_overrides_alpha_initial_witness :
  minimise_SR_onetype zero_c1 (sr1_with_alpha_initial keyed_input (Fin 7))
  = minimise_SR_onetype zero_c1 keyed_input.
Proof.
  apply (sr1_key_zero_overrides_alpha_initial zero_c1 keyed_input
           (Fin 0.5) (Fin 7)).
  reflexivity.
Defined.
